(** * SP3CTRON backtest core: portfolio ledger and performance metrics

    Shallow embedding of [trading_agents/backtest/portifolio.py]
    ([Position], [Trade], [Portfolio]), of the benchmark aligner and
    the metrics of [trading_agents/backtest/metrics.py]
    ([align_cdi_to_portfolio], [calculate_metrics]) and of the series
    drawn by [trading_agents/backtest/visualization.py]
    ([plot_drawdown], [plot_portfolio_vs_cdi]).

    Number model.  Python [int]s are [Z].  Python [float]s are
    rationals ([Q]), in two readings.  In the exact ledger they are
    idealised as exact rationals: rounding error, infinities and NaN of
    IEEE arithmetic are outside it, except where the code itself
    handles a missing value: a cell of the benchmark series is an
    [option Q], and a numpy division by zero yields [None].  In the
    ledger on doubles ([Float]), which the cash invariant is stated on,
    every operation rounds its result to the nearest double and an
    infinity is told from a finite double.  Python's float division by
    zero raises [ZeroDivisionError].  Equality of amounts is rational
    equality [==]. *)

From Stdlib Require Import QArith Qpower Qround Qabs Qminmax Lqa Lia ZArith String List Bool.
From Stdlib Require Import Setoid Morphisms Sorted Permutation.
From stdpp Require Import gmap strings.
Import ListNotations.

Local Open Scope Q_scope.

(** ** Numbers *)

Definition Qltb (a b : Q) : bool := negb (Qle_bool b a).
Definition Qgtb (a b : Q) : bool := Qltb b a.
Definition Qgeb (a b : Q) : bool := Qle_bool b a.

(** Python's [int(x)] on a float: truncation toward zero. *)
Definition trunc (q : Q) : Z :=
  if Qle_bool 0 q then Qfloor q else Qceiling q.

(** Python's [sum(...)]: left fold starting from [0]. *)
Definition Qsum (l : list Q) : Q := fold_left Qplus l 0.

(** ** Python dictionaries with string keys

    A [dict] keeps insertion order; iteration order decides the order in
    which [check_stops] closes positions, so the position map is an
    association list.  Assigning to a present key updates in place,
    assigning to a new key appends, [del] removes. *)

Section Dict.
Context {V : Type}.

Definition dict := list (string * V).

Fixpoint dget (k : string) (d : dict) : option V :=
  match d with
  | [] => None
  | (k', v) :: d' => if String.eqb k k' then Some v else dget k d'
  end.

Fixpoint dset (k : string) (v : V) (d : dict) : dict :=
  match d with
  | [] => [(k, v)]
  | (k', v') :: d' =>
      if String.eqb k k' then (k', v) :: d' else (k', v') :: dset k v d'
  end.

Fixpoint ddel (k : string) (d : dict) : dict :=
  match d with
  | [] => []
  | (k', v') :: d' =>
      if String.eqb k k' then d' else (k', v') :: ddel k d'
  end.

Definition dvalues (d : dict) : list V := map snd d.
Definition dkeys (d : dict) : list string := map fst d.
End Dict.
Arguments dict : clear implicits.

(** ** Position *)

Record Position := mkPosition {
  ticker : string;
  shares : Z;
  avg_price : Q;
  current_price : Q;
  entry_date : string;
  stop_loss : option Q;
  take_profit : option Q
}.

Definition market_value (p : Position) : Q :=
  inject_Z (shares p) * current_price p.

Definition cost_basis (p : Position) : Q :=
  inject_Z (shares p) * avg_price p.

Definition pnl (p : Position) : Q := market_value p - cost_basis p.

Definition pnl_pct (p : Position) : Q :=
  if Qgtb (cost_basis p) 0 then (pnl p / cost_basis p) * 100 else 0.

Definition should_stop_loss (p : Position) : bool :=
  match stop_loss p with
  | None => false
  | Some sl => Qle_bool (current_price p) sl
  end.

Definition should_take_profit (p : Position) : bool :=
  match take_profit p with
  | None => false
  | Some tp => Qgeb (current_price p) tp
  end.

(** ** Trade *)

Inductive Action := BUY | SELL | INTEREST.

Record Trade := mkTrade {
  trade_date : string;
  trade_ticker : string;
  action : Action;
  trade_shares : Z;
  trade_price : Q;
  commission : Q;
  total_cost : Q;
  reason : string
}.

(** ** Portfolio *)

(** One row of [self.history] (a dict of six parallel lists, appended to
    together by [record_state]). *)
Record HistoryRow := mkHistoryRow {
  h_date : string;
  h_total_value : Q;
  h_cash : Q;
  h_positions_value : Q;
  h_num_positions : nat;
  h_returns : Q
}.

Record Portfolio := mkPortfolio {
  initial_capital : Q;
  cash : Q;
  commission_pct : Q;
  min_position_size : Q;
  max_position_size : Q;
  positions : dict Position;
  trades : list Trade;
  history : list HistoryRow
}.

(** [Portfolio.__init__]; the keyword defaults are [default_commission_pct],
    [default_min_position_size], [default_max_position_size]. *)
Definition Portfolio_init (initial_capital commission_pct
                           min_position_size max_position_size : Q) : Portfolio :=
  {| initial_capital := initial_capital;
     cash := initial_capital;
     commission_pct := commission_pct;
     min_position_size := min_position_size;
     max_position_size := max_position_size;
     positions := [];
     trades := [];
     history := [] |}.

Definition default_commission_pct : Q := 1 # 1000.
Definition default_min_position_size : Q := 1 # 100.
Definition default_max_position_size : Q := 15 # 100.

Definition Portfolio_default (initial_capital : Q) : Portfolio :=
  Portfolio_init initial_capital default_commission_pct
                 default_min_position_size default_max_position_size.

Definition set_cash (c : Q) (s : Portfolio) : Portfolio :=
  {| initial_capital := initial_capital s;
     cash := c;
     commission_pct := commission_pct s;
     min_position_size := min_position_size s;
     max_position_size := max_position_size s;
     positions := positions s;
     trades := trades s;
     history := history s |}.

Definition set_positions (ps : dict Position) (s : Portfolio) : Portfolio :=
  {| initial_capital := initial_capital s;
     cash := cash s;
     commission_pct := commission_pct s;
     min_position_size := min_position_size s;
     max_position_size := max_position_size s;
     positions := ps;
     trades := trades s;
     history := history s |}.

Definition set_trades (ts : list Trade) (s : Portfolio) : Portfolio :=
  {| initial_capital := initial_capital s;
     cash := cash s;
     commission_pct := commission_pct s;
     min_position_size := min_position_size s;
     max_position_size := max_position_size s;
     positions := positions s;
     trades := ts;
     history := history s |}.

Definition set_history (h : list HistoryRow) (s : Portfolio) : Portfolio :=
  {| initial_capital := initial_capital s;
     cash := cash s;
     commission_pct := commission_pct s;
     min_position_size := min_position_size s;
     max_position_size := max_position_size s;
     positions := positions s;
     trades := trades s;
     history := h |}.

(** ** Methods as computations on the portfolio

    A method call runs on the current object state and either returns a
    value together with the new state or raises, leaving the object in
    the state reached when the exception left the method. *)

(** The exceptions the ledger raises.  [Infinite] is not one of Python's:
    it is where the ledger on doubles stops because an operation gave an
    infinity that Python would go on computing with; the exact ledger
    never raises it, nor [OverflowError]. *)
Inductive exn := ZeroDivisionError | OverflowError | Infinite.

Inductive res (A : Type) :=
| Ok (a : A) (s : Portfolio)
| Raise (e : exn) (s : Portfolio).
Arguments Ok {A} a s.
Arguments Raise {A} e s.

Definition M (A : Type) : Type := Portfolio -> res A.

Definition ret {A} (a : A) : M A := fun s => Ok a s.

Definition bind {A B} (m : M A) (k : A -> M B) : M B :=
  fun s => match m s with
           | Ok a s' => k a s'
           | Raise e s' => Raise e s'
           end.

Definition raise {A} (e : exn) : M A := fun s => Raise e s.
Definition gets {A} (f : Portfolio -> A) : M A := fun s => Ok (f s) s.
Definition modify (f : Portfolio -> Portfolio) : M unit := fun s => Ok tt (f s).

#[global] Instance M_ret : MRet M := @ret.
#[global] Instance M_bind : MBind M := fun A B k m => bind m k.

(** Float division [a / b]. *)
Definition pdiv (a b : Q) : M Q :=
  if Qeq_bool b 0 then raise ZeroDivisionError else ret (a / b).

(** *** Properties *)

Definition positions_value (s : Portfolio) : Q :=
  Qsum (map market_value (dvalues (positions s))).

Definition total_value (s : Portfolio) : Q := cash s + positions_value s.

Definition num_positions (s : Portfolio) : nat := length (positions s).

Definition exposure (s : Portfolio) : Q :=
  if Qgtb (total_value s) 0
  then (positions_value s / total_value s) * 100
  else 0.

(** Python truthiness of an optional float argument ([if stop_loss:]):
    [None] and [0.0] are false. *)
Definition truthy (o : option Q) : bool :=
  match o with
  | Some v => negb (Qeq_bool v 0)
  | None => false
  end.

(** *** update_prices *)

Definition update_prices (prices : gmap string Q) : M unit :=
  modify (fun s =>
    set_positions
      (map (fun kv : string * Position =>
              let (tkr, position) := kv in
              match prices !! tkr with
              | Some p =>
                  (tkr,
                   {| ticker := ticker position;
                      shares := shares position;
                      avg_price := avg_price position;
                      current_price := p;
                      entry_date := entry_date position;
                      stop_loss := stop_loss position;
                      take_profit := take_profit position |})
              | None => (tkr, position)
              end)
           (positions s)) s).

(** *** can_buy

    The third component of the result is the message; the formatted text
    is represented by its template and the numbers it displays. *)

Inductive BuyMsg :=
| MsgBelowMin (target_pct min_pct : Q)
| MsgSmallIncrement (increment_pct : Q)
| MsgNoCash (cash required_cash : Q)
| MsgOK.

(** "Tem cash suficiente?" to the end of [can_buy]. *)
Definition can_buy_funded (target_value : Q) : M (bool * Z * BuyMsg) :=
  cp ← gets commission_pct;
  c ← gets cash;
  let required_cash := target_value * (1 + cp) in
  if Qgtb required_cash c then
    target_value ← pdiv c (1 + cp);
    tv ← gets total_value;
    mn ← gets min_position_size;
    if Qltb target_value (tv * mn)
    then mret (false, 0%Z, MsgNoCash c required_cash)
    else mret (true, trunc target_value, MsgOK)
  else mret (true, trunc target_value, MsgOK).

(** "Calcula valor alvo" to the end of [can_buy], for the validated and
    clamped [target_pct]. *)
Definition can_buy_sized (tkr : string) (target_pct : Q) : M (bool * Z * BuyMsg) :=
  tv ← gets total_value;
  let target_value := (target_pct / 100) * tv in
  ps ← gets positions;
  match dget tkr ps with
  | Some pos =>
      let current_value := market_value pos in
      let additional_value := target_value - current_value in
      mn ← gets min_position_size;
      if Qltb additional_value (tv * mn) then
        r ← pdiv additional_value tv;
        mret (false, 0%Z, MsgSmallIncrement (r * 100))
      else can_buy_funded additional_value
  | None => can_buy_funded target_value
  end.

Definition can_buy (tkr : string) (target_pct : Q) : M (bool * Z * BuyMsg) :=
  mn ← gets min_position_size;
  if Qltb target_pct (mn * 100) then
    mret (false, 0%Z, MsgBelowMin target_pct (mn * 100))
  else
    mx ← gets max_position_size;
    can_buy_sized tkr
      (if Qgtb target_pct (mx * 100) then mx * 100 else target_pct).

(** *** buy *)

Definition append_trade (t : Trade) : M unit :=
  modify (fun s => set_trades (trades s ++ [t]) s).

(** "Atualiza cash" to the end of [buy]. *)
Definition buy_settle (tkr : string) (price : Q) (date : string)
    (new_stop_loss new_take_profit : option Q) (reason : string)
    (nshares : Z) (commission total_cost : Q) : M (option Trade) :=
  modify (fun s => set_cash (cash s - total_cost) s);;
  ps ← gets positions;
  match dget tkr ps with
  | Some pos =>
      let old_cost := inject_Z (shares pos) * avg_price pos in
      let new_cost := inject_Z nshares * price in
      let pos1 :=
        {| ticker := ticker pos;
           shares := (shares pos + nshares)%Z;
           avg_price := avg_price pos;
           current_price := current_price pos;
           entry_date := entry_date pos;
           stop_loss := stop_loss pos;
           take_profit := take_profit pos |} in
      modify (set_positions (dset tkr pos1 ps));;
      avg ← pdiv (old_cost + new_cost) (inject_Z (shares pos1));
      let pos2 :=
        {| ticker := ticker pos;
           shares := shares pos1;
           avg_price := avg;
           current_price := price;
           entry_date := entry_date pos;
           stop_loss := if truthy new_stop_loss then new_stop_loss
                        else stop_loss pos;
           take_profit := if truthy new_take_profit then new_take_profit
                          else take_profit pos |} in
      modify (set_positions (dset tkr pos2 ps))
  | None =>
      modify (set_positions
                (dset tkr
                   {| ticker := tkr;
                      shares := nshares;
                      avg_price := price;
                      current_price := price;
                      entry_date := date;
                      stop_loss := new_stop_loss;
                      take_profit := new_take_profit |} ps))
  end;;
  let trade :=
    {| trade_date := date;
       trade_ticker := tkr;
       action := BUY;
       trade_shares := nshares;
       trade_price := price;
       commission := commission;
       total_cost := total_cost;
       reason := reason |} in
  append_trade trade;;
  mret (Some trade).

Definition buy (tkr : string) (price target_pct : Q) (date : string)
    (new_stop_loss new_take_profit : option Q) (reason : string)
    : M (option Trade) :=
  r ← can_buy tkr target_pct;
  let '(can, target_value, msg) := r in
  if negb can then mret None else
  q ← pdiv (inject_Z target_value) price;
  let nshares := trunc q in
  if (nshares =? 0)%Z then mret None else
  cp ← gets commission_pct;
  c ← gets cash;
  let trade_value := inject_Z nshares * price in
  let commission := trade_value * cp in
  let total_cost := trade_value + commission in
  if Qgtb total_cost c then
    q ← pdiv c (price * (1 + cp));
    let nshares := trunc q in
    if (nshares =? 0)%Z then mret None else
    let trade_value := inject_Z nshares * price in
    let commission := trade_value * cp in
    let total_cost := trade_value + commission in
    buy_settle tkr price date new_stop_loss new_take_profit reason
               nshares commission total_cost
  else
    buy_settle tkr price date new_stop_loss new_take_profit reason
               nshares commission total_cost.

(** *** sell *)

Definition sell (tkr : string) (price : Q) (date : string)
    (nshares : option Z) (reason : string) : M (option Trade) :=
  ps ← gets positions;
  match dget tkr ps with
  | None => mret None
  | Some pos =>
      let requested := match nshares with
                       | None => shares pos
                       | Some n => n
                       end in
      let nshares := Z.min requested (shares pos) in
      if (nshares =? 0)%Z then mret None else
      cp ← gets commission_pct;
      let trade_value := inject_Z nshares * price in
      let commission := trade_value * cp in
      let net_proceeds := trade_value - commission in
      modify (fun s => set_cash (cash s + net_proceeds) s);;
      let pos1 :=
        {| ticker := ticker pos;
           shares := (shares pos - nshares)%Z;
           avg_price := avg_price pos;
           current_price := current_price pos;
           entry_date := entry_date pos;
           stop_loss := stop_loss pos;
           take_profit := take_profit pos |} in
      modify (set_positions
                (if (shares pos1 =? 0)%Z
                 then ddel tkr ps
                 else dset tkr pos1 ps));;
      let trade :=
        {| trade_date := date;
           trade_ticker := tkr;
           action := SELL;
           trade_shares := nshares;
           trade_price := price;
           commission := commission;
           total_cost := - net_proceeds;
           reason := reason |} in
      append_trade trade;;
      mret (Some trade)
  end.

(** *** check_stops *)

Fixpoint tickers_to_close (ps : dict Position) : list (string * Q * string) :=
  match ps with
  | [] => []
  | (tkr, pos) :: ps' =>
      if should_stop_loss pos then
        (tkr, current_price pos, "STOP_LOSS"%string) :: tickers_to_close ps'
      else if should_take_profit pos then
        (tkr, current_price pos, "TAKE_PROFIT"%string) :: tickers_to_close ps'
      else tickers_to_close ps'
  end.

Fixpoint execute_closes (date : string) (l : list (string * Q * string))
    (executed_trades : list Trade) : M (list Trade) :=
  match l with
  | [] => mret executed_trades
  | (tkr, price, reason) :: l' =>
      trade ← sell tkr price date None reason;
      execute_closes date l'
        (match trade with
         | Some t => executed_trades ++ [t]
         | None => executed_trades
         end)
  end.

Definition check_stops (date : string) : M (list Trade) :=
  ps ← gets positions;
  execute_closes date (tickers_to_close ps) [].

(** *** record_state *)

Definition record_state (date : string) : M unit :=
  total ← gets total_value;
  h ← gets history;
  let daily_return :=
    match last h with
    | Some prev =>
        let prev_value := h_total_value prev in
        if Qgtb prev_value 0 then ((total / prev_value) - 1) * 100 else 0
    | None => 0
    end in
  c ← gets cash;
  pv ← gets positions_value;
  n ← gets num_positions;
  modify (set_history
            (h ++ [ {| h_date := date;
                       h_total_value := total;
                       h_cash := c;
                       h_positions_value := pv;
                       h_num_positions := n;
                       h_returns := daily_return |} ])).

(** *** apply_selic_to_cash *)

Definition apply_selic_to_cash (date : string) (selic_daily_rate : Q) : M unit :=
  c ← gets cash;
  if Qgtb c 0 then
    let interest := c * selic_daily_rate in
    modify (fun s => set_cash (cash s + interest) s);;
    append_trade
      {| trade_date := date;
         trade_ticker := "SELIC";
         action := INTEREST;
         trade_shares := 0;
         trade_price := 0;
         commission := 0;
         total_cost := - interest;
         reason := "SELIC_YIELD" |}
  else mret tt.

(** *** summary *)

Record Summary := mkSummary {
  sm_initial_capital : Q;
  sm_current_value : Q;
  sm_cash : Q;
  sm_positions_value : Q;
  sm_num_positions : nat;
  sm_total_return_pct : Q;
  sm_total_return_brl : Q;
  sm_exposure_pct : Q;
  sm_num_trades : nat
}.

Definition summary : M Summary :=
  tv ← gets total_value;
  ic ← gets initial_capital;
  r ← pdiv tv ic;
  let total_return := (r - 1) * 100 in
  s ← gets id;
  mret {| sm_initial_capital := initial_capital s;
          sm_current_value := total_value s;
          sm_cash := cash s;
          sm_positions_value := positions_value s;
          sm_num_positions := num_positions s;
          sm_total_return_pct := total_return;
          sm_total_return_brl := total_value s - initial_capital s;
          sm_exposure_pct := exposure s;
          sm_num_trades := length (trades s) |}.

(** ** Sequences of operations

    The driver applies the portfolio's operations one after another; an
    exception ends the run. *)

Inductive op :=
| OpBuy (tkr : string) (price target_pct : Q) (date : string)
        (new_stop_loss new_take_profit : option Q) (reason : string)
| OpSell (tkr : string) (price : Q) (date : string)
         (nshares : option Z) (reason : string)
| OpCheckStops (date : string)
| OpUpdatePrices (prices : gmap string Q)
| OpInterest (date : string) (selic_daily_rate : Q)
| OpRecord (date : string).

Definition step (o : op) : M unit :=
  match o with
  | OpBuy tkr price target_pct date sl tp reason =>
      buy tkr price target_pct date sl tp reason;; mret tt
  | OpSell tkr price date nshares reason =>
      sell tkr price date nshares reason;; mret tt
  | OpCheckStops date => check_stops date;; mret tt
  | OpUpdatePrices prices => update_prices prices
  | OpInterest date rate => apply_selic_to_cash date rate
  | OpRecord date => record_state date
  end.

Fixpoint run (ops : list op) : M unit :=
  match ops with
  | [] => mret tt
  | o :: ops' => step o;; run ops'
  end.

(** Inputs in the domain the ledger is meant for: positive buy prices,
    non-negative sell prices, marks and share counts, a daily rate of at
    least -100 percent. *)
Definition valid_op (o : op) : Prop :=
  match o with
  | OpBuy _ price _ _ _ _ _ => 0 < price
  | OpSell _ price _ nshares _ =>
      0 <= price /\ match nshares with
                    | Some n => (0 <= n)%Z
                    | None => True
                    end
  | OpUpdatePrices prices =>
      forall (tkr : string) (p : Q), prices !! tkr = Some p -> 0 <= p
  | OpInterest _ rate => -1 <= rate
  | OpCheckStops _ | OpRecord _ => True
  end.

Definition valid_params (s : Portfolio) : Prop :=
  -1 < commission_pct s /\ commission_pct s <= 1 /\
  0 <= min_position_size s /\ 0 <= max_position_size s.

Definition wf_position (kv : string * Position) : Prop :=
  (0 < shares (snd kv))%Z /\ 0 <= current_price (snd kv).

Definition wf (s : Portfolio) : Prop :=
  0 <= cash s /\ Forall wf_position (positions s).

(** The sizing parameters are never written after construction. *)
Definition same_params (s s' : Portfolio) : Prop :=
  commission_pct s' = commission_pct s
  /\ min_position_size s' = min_position_size s
  /\ max_position_size s' = max_position_size s.

(** No zero-share position. *)
Definition nonzero_position (kv : string * Position) : Prop :=
  shares (snd kv) <> 0%Z.

(** ** Benchmark aligner ([metrics.align_cdi_to_portfolio])

    The source series [cdi_df['cdi_daily']] is a date-indexed column with
    one cell per date; a cell is [None] when it holds NaN.  Dates are day
    numbers.  The result is the list of cells along [portfolio_dates]. *)

(** The cell of the source series at a date: missing when the date is
    not in the index or the stored value is NaN. *)
Definition cdi_cell (cdi : gmap Z (option Q)) (d : Z) : option Q :=
  match cdi !! d with
  | Some cell => cell
  | None => None
  end.

Definition reindex (portfolio_dates : list Z) (cdi : gmap Z (option Q))
    : list (option Q) :=
  map (cdi_cell cdi) portfolio_dates.

(** [fillna(method='ffill')], carrying the last valid value. *)
Fixpoint ffill_from (prev : option Q) (l : list (option Q)) : list (option Q) :=
  match l with
  | [] => []
  | cell :: l' =>
      let cell' := match cell with
                   | Some v => Some v
                   | None => prev
                   end in
      cell' :: ffill_from cell' l'
  end.

Definition ffill (l : list (option Q)) : list (option Q) := ffill_from None l.

Definition isna_any (l : list (option Q)) : bool :=
  existsb (fun cell => match cell with Some _ => false | None => true end) l.

(** [Series.mean()]: mean of the valid cells, NaN when there is none. *)
Definition valid_cells (cdi : gmap Z (option Q)) : list Q :=
  omap snd (map_to_list cdi).

Definition series_mean (cdi : gmap Z (option Q)) : option Q :=
  match valid_cells cdi with
  | [] => None
  | vs => Some (Qsum vs / inject_Z (Z.of_nat (length vs)))
  end.

Definition fillna (value : option Q) (l : list (option Q)) : list (option Q) :=
  map (fun cell => match cell with
                   | Some v => Some v
                   | None => value
                   end) l.

Definition align_cdi_to_portfolio (portfolio_dates : list Z)
    (cdi : gmap Z (option Q)) : list (option Q) :=
  let cdi_aligned := reindex portfolio_dates cdi in
  let cdi_aligned := ffill cdi_aligned in
  if isna_any cdi_aligned then
    let mean_cdi := series_mean cdi in
    fillna mean_cdi cdi_aligned
  else cdi_aligned.

(** ** Maximum drawdown ([metrics.calculate_metrics])

    [returns]: the [returns] column divided by 100, first row dropped. *)

Definition metrics_returns (portfolio_history : list HistoryRow) : list Q :=
  tail (map (fun row => h_returns row / 100) portfolio_history).

Fixpoint cumprod_from (acc : Q) (l : list Q) : list Q :=
  match l with
  | [] => []
  | x :: l' => (acc * x) :: cumprod_from (acc * x) l'
  end.

Definition cumprod (l : list Q) : list Q :=
  match l with
  | [] => []
  | x :: l' => x :: cumprod_from x l'
  end.

Fixpoint expanding_max_from (acc : Q) (l : list Q) : list Q :=
  match l with
  | [] => []
  | x :: l' => Qmax acc x :: expanding_max_from (Qmax acc x) l'
  end.

Definition expanding_max (l : list Q) : list Q :=
  match l with
  | [] => []
  | x :: l' => x :: expanding_max_from x l'
  end.

(** Element-wise array division; [None] where the divisor is zero (numpy
    gives NaN or an infinity there, which the rationals do not have). *)
Definition np_div (a b : Q) : option Q :=
  if Qeq_bool b 0 then None else Some (a / b).

(** [(cumulative - running_max) / running_max], cell by cell.  A cell is
    missing where the running maximum is zero; the cumulative value is
    then zero as well (a running maximum of zero is reached only by a
    product that has become zero), so the cell is the NaN of 0/0. *)
Fixpoint drawdown_series (cumulative running_max : list Q)
    : list (option Q) :=
  match cumulative, running_max with
  | c :: cs, m :: ms => np_div (c - m) m :: drawdown_series cs ms
  | _, _ => []
  end.

Definition series_min (l : list Q) : option Q :=
  match l with
  | [] => None
  | x :: l' => Some (fold_left Qmin l' x)
  end.

(** [Series.min()] of a series with NaN cells: NaN is skipped, the result
    is the minimum of the other cells, and NaN when there is none. *)
Definition min_skipna (l : list (option Q)) : option Q :=
  series_min (omap id l).

(** "MAX DRAWDOWN": [None] is the NaN reported when every cell of the
    drawdown series is NaN. *)
Definition max_drawdown (returns : list Q) : option Q :=
  let cumulative := cumprod (map (fun r => 1 + r) returns) in
  let running_max := expanding_max cumulative in
  let drawdown := drawdown_series cumulative running_max in
  (fun m => m * 100) <$> min_skipna drawdown.

(** The [max_drawdown_pct] entry of the result; the outer [option] is
    the empty result [{}] on a history too short. *)
Definition max_drawdown_pct (portfolio_history : list HistoryRow)
    : option (option Q) :=
  if (length portfolio_history <? 2)%nat then None else
  let returns := metrics_returns portfolio_history in
  match returns with
  | [] => None
  | _ => Some (max_drawdown returns)
  end.

(** [Series.mean()] and [Series.std()] (sample standard deviation) of a
    series without missing values; [None] is NaN. *)
Definition mean (l : list Q) : option Q :=
  match l with
  | [] => None
  | _ => Some (Qsum l / inject_Z (Z.of_nat (length l)))
  end.

Definition sample_variance (l : list Q) : option Q :=
  match l with
  | [] | [_] => None
  | _ =>
      match mean l with
      | Some mu =>
          Some (Qsum (map (fun x => (x - mu) * (x - mu)) l)
                / inject_Z (Z.of_nat (length l - 1)))
      | None => None
      end
  end.

(** The entries of the result that the properties below are about. *)
Record Metrics := mkMetrics {
  m_total_return_pct : option Q;
  m_annualized_return_pct : option Q;
  m_sharpe_ratio : option Q;
  m_max_drawdown_pct : option Q;
  m_calmar_ratio : option Q;
  m_num_days : nat
}.

(** [calculate_metrics].  Square root and real power are not rational
    functions: they are parameters, [fpow] answering [None] where the
    power is not a real number.  [cdi_series], when given, is the list of
    rates along the history's dates.  The result holds the entries of a
    call that returns: given a CDI series of fewer than two rows the
    code's "CDI COMPARISON" raises [IndexError] at
    [cdi_cumulative.iloc[-1]] after these entries are computed, and
    returns nothing. *)
Section Metrics.
Variable fsqrt : Q -> Q.
Variable fpow : Q -> Q -> option Q.

Definition std (l : list Q) : option Q := fsqrt <$> sample_variance l.

(** [(excess.mean() / excess.std()) * sqrt(252) if excess.std() > 0 else 0.0];
    a comparison with NaN is false. *)
Definition sharpe_of (excess_returns : list Q) : Q :=
  match std excess_returns, mean excess_returns with
  | Some sd, Some mu => if Qgtb sd 0 then (mu / sd) * fsqrt 252 else 0
  | _, _ => 0
  end.

Definition calculate_metrics (portfolio_history : list HistoryRow)
    (cdi_series : option (list Q)) (risk_free_rate : Q) : option Metrics :=
  if (length portfolio_history <? 2)%nat then None else
  let returns := metrics_returns portfolio_history in
  match returns, head portfolio_history, last portfolio_history with
  | _ :: _, Some first_row, Some last_row =>
      let initial_value := h_total_value first_row in
      let final_value := h_total_value last_row in
      let ratio := np_div final_value initial_value in
      let total_return := (fun r => (r - 1) * 100) <$> ratio in
      let num_days := length portfolio_history in
      let years := inject_Z (Z.of_nat num_days) / 252 in
      let annualized_return :=
        if Qgtb years 0 then
          match ratio with
          | Some r => (fun p => (p - 1) * 100) <$> fpow r (1 / years)
          | None => None
          end
        else Some 0 in
      let sharpe :=
        match cdi_series with
        | Some cdi =>
            let cdi_returns := tail cdi in
            Some (sharpe_of (zip_with Qminus returns cdi_returns))
        | None =>
            (fun p => sharpe_of (map (fun r => r - (p - 1)) returns))
              <$> fpow (1 + risk_free_rate) (1 / 252)
        end in
      let max_dd := max_drawdown returns in
      let calmar :=
        match max_dd with
        | Some dd =>
            if Qeq_bool dd 0 then Some 0
            else (fun a => Qabs (a / dd)) <$> annualized_return
        | None => None
        end in
      Some {| m_total_return_pct := total_return;
              m_annualized_return_pct := annualized_return;
              m_sharpe_ratio := sharpe;
              m_max_drawdown_pct := max_dd;
              m_calmar_ratio := calmar;
              m_num_days := num_days |}
  | _, _, _ => None
  end.

End Metrics.

(** The same quantities read off the definition: cumulative product of
    [1 + r] up to point [i], its maximum over the points up to [i], and
    the relative distance between the two. *)
Definition cumulative_at (returns : list Q) (i : nat) : Q :=
  fold_right Qmult 1 (map (fun r => 1 + r) (firstn (S i) returns)).

Fixpoint running_max_at (returns : list Q) (i : nat) : Q :=
  match i with
  | O => cumulative_at returns 0
  | S j => Qmax (running_max_at returns j) (cumulative_at returns (S j))
  end.

Definition drawdown_at (returns : list Q) (i : nat) : Q :=
  (cumulative_at returns i - running_max_at returns i) / running_max_at returns i.

(** Calling [can_buy] [n] times in a row, collecting the results. *)
Fixpoint can_buy_times (n : nat) (tkr : string) (target_pct : Q)
    : M (list (bool * Z * BuyMsg)) :=
  match n with
  | O => mret []
  | S n' =>
      r ← can_buy tkr target_pct;
      rs ← can_buy_times n' tkr target_pct;
      mret (r :: rs)
  end.

(** A default portfolio of 1000 holding ten shares bought at 10, used in
    examples. *)
Definition example_position : Position :=
  {| ticker := "PETR4.SA"; shares := 10; avg_price := 10;
     current_price := 10; entry_date := "2024-01-02";
     stop_loss := None; take_profit := None |}.

Definition example_holding : Portfolio :=
  set_positions [("PETR4.SA"%string, example_position)]
                (Portfolio_default 1000).

(** Histories with given daily returns (in percent), for examples. *)
Definition history_of_returns (returns : list Q) : list HistoryRow :=
  map (fun r => {| h_date := "2024-01-02"; h_total_value := 1000;
                   h_cash := 1000; h_positions_value := 0;
                   h_num_positions := 0; h_returns := r |}) returns.

Definition example_history : list HistoryRow :=
  history_of_returns [0; 1; -2; 3].

(** ** Scaling by a positive constant

    [scaled k s s']: the portfolio [s'] is [s] with every amount of money
    and every price multiplied by [k]; share counts, rates, sizes and
    recorded daily returns are the same. *)

Definition scaled_opt (k : Q) (a a' : option Q) : Prop :=
  match a, a' with
  | Some x, Some x' => x' == k * x
  | None, None => True
  | _, _ => False
  end.

Definition scaled_position (k : Q) (p p' : Position) : Prop :=
  ticker p' = ticker p
  /\ shares p' = shares p
  /\ avg_price p' == k * avg_price p
  /\ current_price p' == k * current_price p
  /\ entry_date p' = entry_date p
  /\ scaled_opt k (stop_loss p) (stop_loss p')
  /\ scaled_opt k (take_profit p) (take_profit p').

Definition scaled_entry (k : Q) (kv kv' : string * Position) : Prop :=
  fst kv' = fst kv /\ scaled_position k (snd kv) (snd kv').

Definition scaled_trade (k : Q) (t t' : Trade) : Prop :=
  trade_date t' = trade_date t
  /\ trade_ticker t' = trade_ticker t
  /\ action t' = action t
  /\ trade_shares t' = trade_shares t
  /\ trade_price t' == k * trade_price t
  /\ commission t' == k * commission t
  /\ total_cost t' == k * total_cost t
  /\ reason t' = reason t.

Definition scaled_row (k : Q) (r r' : HistoryRow) : Prop :=
  h_date r' = h_date r
  /\ h_total_value r' == k * h_total_value r
  /\ h_cash r' == k * h_cash r
  /\ h_positions_value r' == k * h_positions_value r
  /\ h_num_positions r' = h_num_positions r
  /\ h_returns r' == h_returns r.

Definition scaled (k : Q) (s s' : Portfolio) : Prop :=
  initial_capital s' == k * initial_capital s
  /\ cash s' == k * cash s
  /\ commission_pct s' == commission_pct s
  /\ min_position_size s' == min_position_size s
  /\ max_position_size s' == max_position_size s
  /\ Forall2 (scaled_entry k) (positions s) (positions s')
  /\ Forall2 (scaled_trade k) (trades s) (trades s')
  /\ Forall2 (scaled_row k) (history s) (history s').

(** The same operation with its prices multiplied by [k]. *)
Definition scale_op (k : Q) (o : op) : op :=
  match o with
  | OpBuy tkr price target_pct date sl tp rsn =>
      OpBuy tkr (k * price) target_pct date
            (option_map (Qmult k) sl) (option_map (Qmult k) tp) rsn
  | OpSell tkr price date nshares rsn =>
      OpSell tkr (k * price) date nshares rsn
  | OpCheckStops date => OpCheckStops date
  | OpUpdatePrices prices => OpUpdatePrices (Qmult k <$> prices)
  | OpInterest date rate => OpInterest date rate
  | OpRecord date => OpRecord date
  end.

(** Outcomes of a call on [s] and of the scaled call on [s']. *)
Definition res_scaled {A : Type} (k : Q) (R : A -> A -> Prop)
    (r r' : res A) : Prop :=
  match r, r' with
  | Ok a s1, Ok a' s1' => R a a' /\ scaled k s1 s1'
  | Raise _ s1, Raise _ s1' => scaled k s1 s1'
  | _, _ => False
  end.

(** [can_buy] hands [buy] the affordable value truncated to an integer;
    the two runs agree on a buy when the share counts computed from the
    truncated values are the same. *)
Definition buy_shares_agree (k : Q) (o : op) (s s' : Portfolio) : Prop :=
  match o with
  | OpBuy tkr price target_pct _ _ _ _ =>
      forall v v' m m',
        can_buy tkr target_pct s = Ok (true, v, m) s ->
        can_buy tkr target_pct s' = Ok (true, v', m') s' ->
        trunc (inject_Z v / price) = trunc (inject_Z v' / (k * price))
  | _ => True
  end.

Fixpoint buys_agree (k : Q) (ops : list op) (s s' : Portfolio) : Prop :=
  match ops with
  | [] => True
  | o :: ops' =>
      buy_shares_agree k o s s'
      /\ forall s1 s1',
           step o s = Ok tt s1 ->
           step (scale_op k o) s' = Ok tt s1' ->
           buys_agree k ops' s1 s1'
  end.

(** [can_buy] answers alike on both portfolios: allowed or not on both,
    or raising on both, the portfolios untouched. *)
Definition can_buy_agree (s s' : Portfolio) (r r' : res (bool * Z * BuyMsg))
    : Prop :=
  match r, r' with
  | Ok a s1, Ok a' s1' => s1 = s /\ s1' = s' /\ fst (fst a') = fst (fst a)
  | Raise _ s1, Raise _ s1' => s1 = s /\ s1' = s'
  | _, _ => False
  end.

Definition scaled_otrade (k : Q) (o o' : option Trade) : Prop :=
  match o, o' with
  | Some t, Some t' => scaled_trade k t t'
  | None, None => True
  | _, _ => False
  end.

(** Entries of [tickers_to_close]: ticker, price, reason. *)
Definition scaled_close (k : Q) (c c' : string * Q * string) : Prop :=
  fst (fst c') = fst (fst c)
  /\ snd (fst c') == k * snd (fst c)
  /\ snd c' = snd c.

Definition opt_Qeq (a a' : option Q) : Prop :=
  match a, a' with
  | Some x, Some x' => x' == x
  | None, None => True
  | _, _ => False
  end.

(** The percentage outputs of [calculate_metrics] agree (or the result
    is empty on both sides). *)
Definition metrics_agree (r r' : option Metrics) : Prop :=
  match r, r' with
  | Some a, Some a' =>
      opt_Qeq (m_total_return_pct a) (m_total_return_pct a')
      /\ opt_Qeq (m_annualized_return_pct a) (m_annualized_return_pct a')
      /\ opt_Qeq (m_sharpe_ratio a) (m_sharpe_ratio a')
      /\ opt_Qeq (m_max_drawdown_pct a) (m_max_drawdown_pct a')
      /\ opt_Qeq (m_calmar_ratio a) (m_calmar_ratio a')
      /\ m_num_days a' = m_num_days a
  | None, None => True
  | _, _ => False
  end.

(** The percentage outputs of [summary] agree (or it raises on both). *)
Definition summary_pct_agree (r r' : res Summary) : Prop :=
  match r, r' with
  | Ok a _, Ok a' _ =>
      sm_total_return_pct a' == sm_total_return_pct a
      /\ sm_exposure_pct a' == sm_exposure_pct a
  | Raise _ _, Raise _ _ => True
  | _, _ => False
  end.

Definition is_buy (o : op) : bool :=
  match o with
  | OpBuy _ _ _ _ _ _ _ => true
  | _ => false
  end.

(** A three-day run used in examples: buy, mark up, accrue interest,
    take profit, recording the state each day. *)
Definition example_run : list op :=
  [ OpBuy "PETR4.SA" 10 10 "2024-01-02" None (Some 12) "SIGNAL";
    OpRecord "2024-01-02";
    OpUpdatePrices {[ "PETR4.SA"%string := 11 ]};
    OpInterest "2024-01-03" (35 # 100000);
    OpRecord "2024-01-03";
    OpUpdatePrices {[ "PETR4.SA"%string := 12 ]};
    OpCheckStops "2024-01-04";
    OpRecord "2024-01-04" ].

(** The value [f] gives to the entry of a key, 0 when the key is absent. *)
Definition dget_value {V : Type} (f : V -> Q) (k : string) (d : dict V) : Q :=
  match dget k d with
  | Some v => f v
  | None => 0
  end.

(** The portfolio a call leaves behind, whether it returned or raised. *)
Definition outcome_state {A : Type} (r : res A) : Portfolio :=
  match r with
  | Ok _ s => s
  | Raise _ s => s
  end.

(** A position marked at the quote a price table has for its ticker,
    untouched when the table has none. *)
Definition remark (prices : gmap string Q) (tkr : string) (pos : Position)
    : Position :=
  match prices !! tkr with
  | Some p =>
      {| ticker := ticker pos;
         shares := shares pos;
         avg_price := avg_price pos;
         current_price := p;
         entry_date := entry_date pos;
         stop_loss := stop_loss pos;
         take_profit := take_profit pos |}
  | None => pos
  end.

(** Number of history rows an operation records. *)
Definition recorded_rows (o : op) : nat :=
  match o with
  | OpRecord _ => 1
  | _ => 0
  end.

Fixpoint rows_recorded (ops : list op) : nat :=
  match ops with
  | [] => 0
  | o :: ops' => recorded_rows o + rows_recorded ops'
  end.

(** [books n s s']: [s'] has the initial capital and the parameters of
    [s], its trade log is the one of [s] followed by new trades and its
    history the one of [s] followed by [n] new rows. *)
Definition books (n : nat) (s s' : Portfolio) : Prop :=
  initial_capital s' = initial_capital s
  /\ same_params s s'
  /\ (exists new, trades s' = trades s ++ new)
  /\ (exists new, history s' = history s ++ new /\ length new = n).

(** The daily return [record_state] stores with a total value, given the
    row recorded before it. *)
Definition daily_return_after (prev : option HistoryRow) (total : Q) : Q :=
  match prev with
  | Some p =>
      if Qgtb (h_total_value p) 0
      then ((total / h_total_value p) - 1) * 100
      else 0
  | None => 0
  end.

(** Histories whose rows are consistent: each total value is cash plus
    positions value and each return is the one derived from the row
    before. *)
Fixpoint recorded_after (prev : option HistoryRow) (h : list HistoryRow)
    : Prop :=
  match h with
  | [] => True
  | row :: h' =>
      h_returns row == daily_return_after prev (h_total_value row)
      /\ h_total_value row == h_cash row + h_positions_value row
      /\ recorded_after (Some row) h'
  end.

Definition recorded (h : list HistoryRow) : Prop := recorded_after None h.

(** ** Daily statistics ([metrics.calculate_metrics])

    [Series.max()], and the entries [win_rate_pct], [best_day_pct] and
    [worst_day_pct] of the result; as for [max_drawdown_pct] the outer
    [option] is the empty result on a history too short. *)

Definition series_max (l : list Q) : option Q :=
  match l with
  | [] => None
  | x :: l' => Some (fold_left Qmax l' x)
  end.

Record DayStats := mkDayStats {
  m_win_rate_pct : option Q;
  m_best_day_pct : option Q;
  m_worst_day_pct : option Q
}.

Definition day_stats (portfolio_history : list HistoryRow) : option DayStats :=
  if (length portfolio_history <? 2)%nat then None else
  let returns := metrics_returns portfolio_history in
  match returns with
  | [] => None
  | _ =>
      let positive_days :=
        length (List.filter (fun r => Qgtb r 0) returns) in
      let win_rate :=
        (fun q => q * 100)
          <$> np_div (inject_Z (Z.of_nat positive_days))
                     (inject_Z (Z.of_nat (length returns))) in
      let best_day := (fun m => m * 100) <$> series_max returns in
      let worst_day := (fun m => m * 100) <$> series_min returns in
      Some {| m_win_rate_pct := win_rate;
              m_best_day_pct := best_day;
              m_worst_day_pct := worst_day |}
  end.

(** ** Drawdown chart ([visualization.plot_drawdown])

    The value [max_dd_val] shown in the legend of the chart; [None] is
    NaN, as for [max_drawdown]. *)
Definition plot_drawdown_max (history_df : list HistoryRow) : option Q :=
  let returns := map (fun row => h_returns row / 100) history_df in
  let cumulative := cumprod (map (fun r => 1 + r) (tail returns)) in
  let running_max := expanding_max cumulative in
  let drawdown :=
    map (fun d : option Q => (fun x => x * 100) <$> d)
        (drawdown_series cumulative running_max) in
  min_skipna drawdown.

(** A position that [check_stops] closes: its stop loss or its take
    profit is hit. *)
Definition triggered (pos : Position) : bool :=
  should_stop_loss pos || should_take_profit pos.

(** The trade that closes a whole position at its mark, at commission
    rate [cp], with the reason [check_stops] gives. *)
Definition closing_trade (date : string) (cp : Q) (kv : string * Position)
    : Trade :=
  let pos := snd kv in
  let trade_value := inject_Z (shares pos) * current_price pos in
  {| trade_date := date;
     trade_ticker := fst kv;
     action := SELL;
     trade_shares := shares pos;
     trade_price := current_price pos;
     commission := trade_value * cp;
     total_cost := - (trade_value - trade_value * cp);
     reason := if should_stop_loss pos then "STOP_LOSS" else "TAKE_PROFIT" |}.

(** ** Reading the trade log

    Shares of an instrument held by the portfolio (0 without a
    position), and the net number of shares of an instrument that a list
    of trades bought. *)

Definition held (tkr : string) (s : Portfolio) : Z :=
  match dget tkr (positions s) with
  | Some pos => shares pos
  | None => 0%Z
  end.

Definition signed_shares (tkr : string) (t : Trade) : Z :=
  if String.eqb (trade_ticker t) tkr then
    match action t with
    | BUY => trade_shares t
    | SELL => (- trade_shares t)%Z
    | INTEREST => 0%Z
    end
  else 0%Z.

Definition net_shares (tkr : string) (ts : list Trade) : Z :=
  fold_right (fun t acc => (signed_shares tkr t + acc)%Z) 0%Z ts.

(** [reconciled s s' new]: [s'] has the trade log of [s] followed by
    [new], and the cash and holdings of [s'] are those of [s] moved by
    what [new] records. *)
Definition reconciled (s s' : Portfolio) (new : list Trade) : Prop :=
  trades s' = trades s ++ new
  /\ cash s' == cash s - Qsum (map total_cost new)
  /\ (forall tkr, held tkr s' = (held tkr s + net_shares tkr new)%Z)
  /\ List.NoDup (dkeys (positions s')).

(** *** get_positions_summary

    The loop collects one row per position in [positions_data], in the
    order of the position dictionary; the data frame returned holds these
    rows sorted by decreasing [weight_pct]. *)

Record PositionRow := mkPositionRow {
  r_ticker : string;
  r_shares : Z;
  r_avg_price : Q;
  r_current_price : Q;
  r_market_value : Q;
  r_cost_basis : Q;
  r_pnl : Q;
  r_pnl_pct : Q;
  r_weight_pct : Q;
  r_entry_date : string;
  r_stop_loss : option Q;
  r_take_profit : option Q
}.

Fixpoint positions_data_from (ps : dict Position)
    (positions_data : list PositionRow) : M (list PositionRow) :=
  match ps with
  | [] => mret positions_data
  | (tkr, pos) :: ps' =>
      tv ← gets total_value;
      w ← pdiv (market_value pos) tv;
      positions_data_from ps'
        (positions_data ++
         [ {| r_ticker := tkr;
              r_shares := shares pos;
              r_avg_price := avg_price pos;
              r_current_price := current_price pos;
              r_market_value := market_value pos;
              r_cost_basis := cost_basis pos;
              r_pnl := pnl pos;
              r_pnl_pct := pnl_pct pos;
              r_weight_pct := w * 100;
              r_entry_date := entry_date pos;
              r_stop_loss := stop_loss pos;
              r_take_profit := take_profit pos |} ])
  end.

Definition positions_data : M (list PositionRow) :=
  ps ← gets positions;
  positions_data_from ps [].

(** [df.sort_values('weight_pct', ascending=False)], as an insertion
    sort.  pandas leaves the relative order of rows of equal weight
    unspecified; nothing stated about the result depends on it. *)
Fixpoint insert_by_weight (r : PositionRow) (l : list PositionRow)
    : list PositionRow :=
  match l with
  | [] => [r]
  | r' :: l' =>
      if Qltb (r_weight_pct r') (r_weight_pct r)
      then r :: r' :: l'
      else r' :: insert_by_weight r l'
  end.

Definition sort_by_weight_desc (l : list PositionRow) : list PositionRow :=
  fold_right insert_by_weight [] l.

Definition get_positions_summary : M (list PositionRow) :=
  rows ← positions_data;
  mret (sort_by_weight_desc rows).

(** A portfolio of 1000 in cash holding one share of a first instrument
    and ten shares of a second one, all marked at 10. *)
Definition example_two_holdings : Portfolio :=
  set_positions
    [("ABEV3.SA"%string,
      {| ticker := "ABEV3.SA"; shares := 1; avg_price := 10;
         current_price := 10; entry_date := "2024-01-02";
         stop_loss := None; take_profit := None |});
     ("PETR4.SA"%string, example_position)]
    (Portfolio_default 1000).

(** A portfolio of 1000 in cash holding ten shares marked at 10, below
    their stop at 11. *)
Definition example_stopped : Portfolio :=
  set_positions
    [("PETR4.SA"%string,
      {| ticker := "PETR4.SA"; shares := 10; avg_price := 12;
         current_price := 10; entry_date := "2024-01-02";
         stop_loss := Some 11; take_profit := None |})]
    (Portfolio_default 1000).

(** ** Benchmark return ([metrics.calculate_metrics], "CDI COMPARISON")

    The entry [cdi_total_return_pct] when a CDI series is given: the last
    cumulated rate of the series without its first day, as a percentage;
    [None] when there is no such day. *)
Definition cdi_total_return (cdi_series : list Q) : option Q :=
  let cdi_cumulative := cumprod (map (fun r => 1 + r) (tail cdi_series)) in
  (fun c => (c - 1) * 100) <$> last cdi_cumulative.

(** ** Portfolio against CDI ([visualization.plot_portfolio_vs_cdi])

    The two curves of the chart of cumulated returns, in percent; a point
    is missing where the division by the initial capital is a division by
    zero. *)
Definition plot_portfolio_returns (history_df : list HistoryRow)
    (initial_capital : Q) : list (option Q) :=
  map (fun row =>
         (fun q => (q - 1) * 100)
           <$> np_div (h_total_value row) initial_capital)
      history_df.

Definition plot_cdi_returns_cum (cdi_series : list Q) (initial_capital : Q)
    : list (option Q) :=
  let cdi_cumulative :=
    map (fun c => initial_capital * c)
        (cumprod (map (fun r => 1 + r) cdi_series)) in
  map (fun c => (fun q => (q - 1) * 100) <$> np_div c initial_capital)
      cdi_cumulative.

(** [visualization.create_performance_report]: no chart for a history of
    fewer than two rows; otherwise the curves are drawn with the first
    recorded total value as initial capital. *)
Definition report_curves (history_df : list HistoryRow) (cdi_series : list Q)
    : option (list (option Q) * list (option Q)) :=
  if (length history_df <? 2)%nat then None else
  match head history_df with
  | Some first =>
      let initial_capital := h_total_value first in
      Some (plot_portfolio_returns history_df initial_capital,
            plot_cdi_returns_cum cdi_series initial_capital)
  | None => None
  end.

(** ** The ledger on doubles

    The methods above compute on exact rationals.  Python computes on
    binary64: every arithmetic operation rounds its exact result to a
    double.  [Float] is the same ledger with that rounding, [fl], applied
    to the result of every operation on floats; an [int] operand is
    converted to a double first.  [fsum] is Python's [sum] over doubles
    (how it rounds depends on the interpreter).

    A result too large for a double is an infinity: [finite] tells
    whether a rounded result is a finite double.  [int] raises
    [OverflowError] on an infinity, and so does the conversion of an
    [int] too large for a double.  Where Python would go on computing
    with an infinity the model stops, with [Infinite]: what a call
    does there is not modelled.

    Without rounding and without a largest double ([fl := fun x => x],
    [fsum := Qsum], [finite := fun _ => true]) these are the definitions
    above. *)

Module Float.
Section Rounded.
Variable fl : Q -> Q.
Variable fsum : list Q -> Q.
Variable finite : Q -> bool.

(** A double that further arithmetic is done on. *)
Definition check (x : Q) : M Q :=
  if finite x then ret x else raise Infinite.

(** The double nearest to the exact result [x] of an operation. *)
Definition rnd (x : Q) : M Q := check (fl x).

(** [float(n)], the conversion of an [int] operand. *)
Definition of_int (n : Z) : M Q :=
  if finite (fl (inject_Z n)) then ret (fl (inject_Z n))
  else raise OverflowError.

(** [int(x)] *)
Definition to_int (x : Q) : M Z :=
  if finite x then ret (trunc x) else raise OverflowError.

(** Float division [a / b]; the quotient may be an infinity. *)
Definition fdiv (a b : Q) : M Q :=
  if Qeq_bool b 0 then raise ZeroDivisionError else ret (fl (a / b)).

Fixpoint mapM {A B : Type} (f : A -> M B) (l : list A) : M (list B) :=
  match l with
  | [] => mret []
  | x :: l => y ← f x; ys ← mapM f l; mret (y :: ys)
  end.

Definition market_value (p : Position) : M Q :=
  n ← of_int (shares p);
  rnd (n * current_price p).

Definition positions_value : M Q :=
  ps ← gets positions;
  vs ← mapM market_value (dvalues ps);
  check (fsum vs).

Definition total_value : M Q :=
  c ← gets cash;
  pv ← positions_value;
  rnd (c + pv).

Definition can_buy_funded (target_value : Q) : M (bool * Z * BuyMsg) :=
  cp ← gets commission_pct;
  k ← rnd (1 + cp);
  required_cash ← rnd (target_value * k);
  c ← gets cash;
  if Qgtb required_cash c then
    k ← rnd (1 + cp);
    target_value ← fdiv c k;
    tv ← total_value;
    mn ← gets min_position_size;
    floor ← rnd (tv * mn);
    if Qltb target_value floor
    then mret (false, 0%Z, MsgNoCash c required_cash)
    else v ← to_int target_value; mret (true, v, MsgOK)
  else v ← to_int target_value; mret (true, v, MsgOK).

Definition can_buy_sized (tkr : string) (target_pct : Q)
    : M (bool * Z * BuyMsg) :=
  f ← rnd (target_pct / 100);
  tv ← total_value;
  target_value ← rnd (f * tv);
  ps ← gets positions;
  match dget tkr ps with
  | Some pos =>
      current_value ← market_value pos;
      additional_value ← rnd (target_value - current_value);
      tv ← total_value;
      mn ← gets min_position_size;
      floor ← rnd (tv * mn);
      if Qltb additional_value floor then
        tv ← total_value;
        r ← fdiv additional_value tv;
        r ← check r;
        p ← rnd (r * 100);
        mret (false, 0%Z, MsgSmallIncrement p)
      else can_buy_funded additional_value
  | None => can_buy_funded target_value
  end.

Definition can_buy (tkr : string) (target_pct : Q) : M (bool * Z * BuyMsg) :=
  mn ← gets min_position_size;
  lo ← rnd (mn * 100);
  if Qltb target_pct lo then
    lo ← rnd (mn * 100);
    mret (false, 0%Z, MsgBelowMin target_pct lo)
  else
    mx ← gets max_position_size;
    hi ← rnd (mx * 100);
    if Qgtb target_pct hi then
      hi ← rnd (mx * 100);
      can_buy_sized tkr hi
    else can_buy_sized tkr target_pct.

Definition buy_settle (tkr : string) (price : Q) (date : string)
    (new_stop_loss new_take_profit : option Q) (reason : string)
    (nshares : Z) (commission total_cost : Q) : M (option Trade) :=
  c ← gets cash;
  c ← rnd (c - total_cost);
  modify (set_cash c);;
  ps ← gets positions;
  match dget tkr ps with
  | Some pos =>
      n ← of_int (shares pos);
      old_cost ← rnd (n * avg_price pos);
      n ← of_int nshares;
      new_cost ← rnd (n * price);
      let pos1 :=
        {| ticker := ticker pos;
           shares := (shares pos + nshares)%Z;
           avg_price := avg_price pos;
           current_price := current_price pos;
           entry_date := entry_date pos;
           stop_loss := stop_loss pos;
           take_profit := take_profit pos |} in
      modify (set_positions (dset tkr pos1 ps));;
      total ← rnd (old_cost + new_cost);
      n ← of_int (shares pos1);
      avg ← fdiv total n;
      avg ← check avg;
      let pos2 :=
        {| ticker := ticker pos;
           shares := shares pos1;
           avg_price := avg;
           current_price := price;
           entry_date := entry_date pos;
           stop_loss := if truthy new_stop_loss then new_stop_loss
                        else stop_loss pos;
           take_profit := if truthy new_take_profit then new_take_profit
                          else take_profit pos |} in
      modify (set_positions (dset tkr pos2 ps))
  | None =>
      modify (set_positions
                (dset tkr
                   {| ticker := tkr;
                      shares := nshares;
                      avg_price := price;
                      current_price := price;
                      entry_date := date;
                      stop_loss := new_stop_loss;
                      take_profit := new_take_profit |} ps))
  end;;
  let trade :=
    {| trade_date := date;
       trade_ticker := tkr;
       action := BUY;
       trade_shares := nshares;
       trade_price := price;
       commission := commission;
       total_cost := total_cost;
       reason := reason |} in
  append_trade trade;;
  mret (Some trade).

(** "Custo total (incluindo comissão)": the commission and the total
    cost of [nshares] shares at [price]. *)
Definition cost_of (nshares : Z) (price : Q) : M (Q * Q) :=
  n ← of_int nshares;
  trade_value ← rnd (n * price);
  cp ← gets commission_pct;
  commission ← rnd (trade_value * cp);
  total_cost ← rnd (trade_value + commission);
  mret (commission, total_cost).

Definition buy (tkr : string) (price target_pct : Q) (date : string)
    (new_stop_loss new_take_profit : option Q) (reason : string)
    : M (option Trade) :=
  r ← can_buy tkr target_pct;
  let '(can, target_value, msg) := r in
  if negb can then mret None else
  t ← of_int target_value;
  q ← fdiv t price;
  nshares ← to_int q;
  if (nshares =? 0)%Z then mret None else
  cost ← cost_of nshares price;
  c ← gets cash;
  if Qgtb (snd cost) c then
    cp ← gets commission_pct;
    k ← rnd (1 + cp);
    d ← rnd (price * k);
    q ← fdiv c d;
    nshares ← to_int q;
    if (nshares =? 0)%Z then mret None else
    cost ← cost_of nshares price;
    buy_settle tkr price date new_stop_loss new_take_profit reason
               nshares (fst cost) (snd cost)
  else
    buy_settle tkr price date new_stop_loss new_take_profit reason
               nshares (fst cost) (snd cost).

Definition sell (tkr : string) (price : Q) (date : string)
    (nshares : option Z) (reason : string) : M (option Trade) :=
  ps ← gets positions;
  match dget tkr ps with
  | None => mret None
  | Some pos =>
      let requested := match nshares with
                       | None => shares pos
                       | Some n => n
                       end in
      let nshares := Z.min requested (shares pos) in
      if (nshares =? 0)%Z then mret None else
      n ← of_int nshares;
      trade_value ← rnd (n * price);
      cp ← gets commission_pct;
      commission ← rnd (trade_value * cp);
      net_proceeds ← rnd (trade_value - commission);
      c ← gets cash;
      c ← rnd (c + net_proceeds);
      modify (set_cash c);;
      let pos1 :=
        {| ticker := ticker pos;
           shares := (shares pos - nshares)%Z;
           avg_price := avg_price pos;
           current_price := current_price pos;
           entry_date := entry_date pos;
           stop_loss := stop_loss pos;
           take_profit := take_profit pos |} in
      modify (set_positions
                (if (shares pos1 =? 0)%Z
                 then ddel tkr ps
                 else dset tkr pos1 ps));;
      let trade :=
        {| trade_date := date;
           trade_ticker := tkr;
           action := SELL;
           trade_shares := nshares;
           trade_price := price;
           commission := commission;
           total_cost := - net_proceeds;
           reason := reason |} in
      append_trade trade;;
      mret (Some trade)
  end.

Definition apply_selic_to_cash (date : string) (selic_daily_rate : Q)
    : M unit :=
  c ← gets cash;
  if Qgtb c 0 then
    interest ← rnd (c * selic_daily_rate);
    c ← gets cash;
    c ← rnd (c + interest);
    modify (set_cash c);;
    append_trade
      {| trade_date := date;
         trade_ticker := "SELIC";
         action := INTEREST;
         trade_shares := 0;
         trade_price := 0;
         commission := 0;
         total_cost := - interest;
         reason := "SELIC_YIELD" |}
  else mret tt.

(** A call of one of the three methods that move cash. *)
Inductive call :=
| Buy (tkr : string) (price target_pct : Q) (date : string)
      (stop_loss take_profit : option Q) (reason : string)
| Sell (tkr : string) (price : Q) (date : string) (nshares : option Z)
       (reason : string)
| Interest (date : string) (selic_daily_rate : Q).

(** What a call returned. *)
Inductive returned :=
| Traded (t : option Trade)
| Accrued.

Definition step (c : call) : M returned :=
  match c with
  | Buy tkr price target_pct date sl tp rsn =>
      t ← buy tkr price target_pct date sl tp rsn; mret (Traded t)
  | Sell tkr price date nshares rsn =>
      t ← sell tkr price date nshares rsn; mret (Traded t)
  | Interest date rate =>
      apply_selic_to_cash date rate;; mret Accrued
  end.

(** A sequence of calls on one portfolio: the state after each call,
    as far as the calls return. *)
Fixpoint states (cs : list call) (s : Portfolio) : list Portfolio :=
  match cs with
  | [] => []
  | c :: cs =>
      match step c s with
      | Ok _ s1 => s1 :: states cs s1
      | Raise _ _ => []
      end
  end.

(** Whether [buy] has to recompute its share count: whether it gets as
    far as "Verifica cash novamente" and finds the total cost above the
    cash. *)
Definition recounts (tkr : string) (price target_pct : Q) : M bool :=
  r ← can_buy tkr target_pct;
  let '(can, target_value, msg) := r in
  if negb can then mret false else
  t ← of_int target_value;
  q ← fdiv t price;
  nshares ← to_int q;
  if (nshares =? 0)%Z then mret false else
  cost ← cost_of nshares price;
  c ← gets cash;
  mret (Qgtb (snd cost) c).

(** The buys of a sequence of calls that have to recompute their share
    count. *)
Fixpoint recounting (cs : list call) (s : Portfolio) : list call :=
  match cs with
  | [] => []
  | c :: cs =>
      match c with
      | Buy tkr price target_pct _ _ _ _ =>
          match recounts tkr price target_pct s with
          | Ok true _ => [c]
          | _ => []
          end
      | _ => []
      end
      ++ match step c s with
         | Ok _ s1 => recounting cs s1
         | Raise _ _ => []
         end
  end.

End Rounded.
End Float.

(** What the properties below need of a rounding: it is monotone, it
    leaves a double as it is, and it commutes with negation. *)
Definition rounding (fl : Q -> Q) : Prop :=
  (forall a b, a <= b -> fl a <= fl b)
  /\ (forall a, fl (fl a) == fl a)
  /\ (forall a, fl (- a) == - fl a).

(** And of a summation: the sum of non-negative doubles is not negative. *)
Definition summation (fsum : list Q -> Q) : Prop :=
  forall l, Forall (fun x => 0 <= x) l -> 0 <= fsum l.

(** Inputs in the domain the ledger is meant for. *)
Definition valid_call (c : Float.call) : Prop :=
  match c with
  | Float.Buy _ price _ _ _ _ _ => 0 < price
  | Float.Sell _ price _ nshares _ =>
      0 <= price /\ match nshares with
                    | Some n => (0 <= n)%Z
                    | None => True
                    end
  | Float.Interest _ rate => -1 <= rate
  end.

(** *** binary64, round to nearest, ties to even *)

(** [floor (log2 q)] for [q > 0]. *)
Definition Qlog2 (q : Q) : Z :=
  let e := (Z.log2 (Qnum q) - Z.log2 (Zpos (Qden q)))%Z in
  if Qle_bool (2 ^ e) q then e else (e - 1)%Z.

(** The integer nearest to [q >= 0], the even one of two equally near. *)
Definition round_half_even (q : Q) : Z :=
  let f := Qfloor q in
  match Qcompare (q - inject_Z f) (1 # 2) with
  | Lt => f
  | Gt => (f + 1)%Z
  | Eq => if Z.even f then f else (f + 1)%Z
  end.

(** The exponent of the last place of the double nearest to [q > 0]: it
    leaves 53 significant bits and is never below -1074 (the subnormal
    doubles). *)
Definition ulp_exp (q : Q) : Z := Z.max (Qlog2 q - 52) (-1074).

(** The double nearest to [q > 0], a multiple of its last place.  There
    is no largest exponent here: a result of [2 ^ 1024] or more stands
    for an infinity. *)
Definition round64_pos (q : Q) : Q :=
  let e := ulp_exp q in
  inject_Z (round_half_even (q / 2 ^ e)) * 2 ^ e.

Definition round64 (q : Q) : Q :=
  match Qcompare q 0 with
  | Eq => 0
  | Gt => Qred (round64_pos q)
  | Lt => Qred (- round64_pos (- q))
  end.

Definition finite64 (x : Q) : bool := Qltb (Qabs x) (2 ^ 1024).

(** Summation of doubles from left to right. *)
Definition sum64 (l : list Q) : Q :=
  fold_left (fun acc x => round64 (acc + x)) l 0.

(** [Portfolio(initial_capital)] with the keyword defaults as doubles. *)
Definition Portfolio_double (initial_capital : Q) : Portfolio :=
  Portfolio_init (round64 initial_capital)
                 (round64 default_commission_pct)
                 (round64 default_min_position_size)
                 (round64 default_max_position_size).

(** A buy at 30.50 targeting 8 percent, a day of interest at 0.035
    percent and the sale of the position at 32. *)
Definition example_calls : list Float.call :=
  [Float.Buy "PETR4.SA" (round64 (305 # 10)) 8 "2024-01-02" None None "INITIAL";
   Float.Interest "2024-01-02" (round64 (35 # 100000));
   Float.Sell "PETR4.SA" 32 "2024-01-03" None "SIGNAL"].

(** [Portfolio(77, commission_pct=0.0, max_position_size=1.0)] *)
Definition example_tight : Portfolio :=
  Portfolio_init 77 0 (round64 default_min_position_size) 1.

(** * Properties *)

(** Split conjunctions only (an equation [==] is left alone). *)
Ltac splits := repeat match goal with |- _ /\ _ => split end.

(** Scenario of the module's self-test: capital 50,000,000, buy at 30.50
    targeting 8 percent. *)
Example scenario_A :
  exists tr s,
    buy "PETR4.SA" (305 # 10) 8 "2024-01-02" None None "INITIAL"
        (Portfolio_default 50000000) = Ok (Some tr) s
    /\ trade_shares tr = 131147%Z
    /\ cash s == 50000000 - inject_Z 131147 * (305 # 10) * (1001 # 1000).
Proof.
  eexists _, _. split; [ vm_compute; reflexivity | ].
  split; [ reflexivity | vm_compute; reflexivity ].
Qed.

(** A position with stop loss 29.50 whose mark drops to 29.00 is closed
    by [check_stops] with exactly one SELL trade, reason STOP_LOSS. *)
Example scenario_B :
  exists tr s1 s2,
    run [OpBuy "PETR4.SA" (305 # 10) 8 "2024-01-02" (Some (295 # 10)) None
               "INITIAL";
         OpUpdatePrices {[ "PETR4.SA"%string := 29 ]}]
        (Portfolio_default 50000000) = Ok tt s1
    /\ check_stops "2024-01-03" s1 = Ok [tr] s2
    /\ action tr = SELL
    /\ reason tr = "STOP_LOSS"%string
    /\ trade_shares tr = 131147%Z
    /\ positions s2 = [].
Proof.
  eexists _, _, _. split; [ vm_compute; reflexivity | ].
  split; [ vm_compute; reflexivity | ].
  splits; reflexivity.
Qed.

(** ** Comparisons *)

Lemma Qltb_true (a b : Q) : Qltb a b = true <-> a < b.
Proof.
  unfold Qltb. rewrite negb_true_iff, <- not_true_iff_false, Qle_bool_iff.
  split; [ apply Qnot_le_lt | apply Qlt_not_le ].
Qed.

Lemma Qltb_false (a b : Q) : Qltb a b = false <-> b <= a.
Proof. unfold Qltb. rewrite negb_false_iff. apply Qle_bool_iff. Qed.

Lemma Qgtb_true (a b : Q) : Qgtb a b = true <-> b < a.
Proof. apply Qltb_true. Qed.

Lemma Qgtb_false (a b : Q) : Qgtb a b = false <-> a <= b.
Proof. apply Qltb_false. Qed.

Lemma Qle_bool_false (a b : Q) : Qle_bool a b = false <-> b < a.
Proof.
  rewrite <- not_true_iff_false, Qle_bool_iff.
  split; [ apply Qnot_le_lt | apply Qlt_not_le ].
Qed.

Lemma Qeq_bool_false (a b : Q) : Qeq_bool a b = false <-> ~ a == b.
Proof. rewrite <- not_true_iff_false, Qeq_bool_iff. reflexivity. Qed.

(** Case analysis on the first comparison found in the goal, recording
    its meaning as a hypothesis. *)
Ltac qcase :=
  match goal with
  | |- context [Qltb ?a ?b] =>
      let E := fresh "E" in
      destruct (Qltb a b) eqn:E;
      [ apply Qltb_true in E | apply Qltb_false in E ]
  | |- context [Qgtb ?a ?b] =>
      let E := fresh "E" in
      destruct (Qgtb a b) eqn:E;
      [ apply Qgtb_true in E | apply Qgtb_false in E ]
  | |- context [Qle_bool ?a ?b] =>
      let E := fresh "E" in
      destruct (Qle_bool a b) eqn:E;
      [ apply Qle_bool_iff in E | apply Qle_bool_false in E ]
  | |- context [Qeq_bool ?a ?b] =>
      let E := fresh "E" in
      destruct (Qeq_bool a b) eqn:E;
      [ apply Qeq_bool_iff in E | apply Qeq_bool_false in E ]
  end.

Ltac unfold_M :=
  unfold mbind, mret, M_bind, M_ret, bind, ret, gets, modify, raise.

(** ** can_buy: sizing floor and ceiling, and absence of effects *)

Lemma can_buy_funded_frame (target_value : Q) (s : Portfolio) :
  (exists r, can_buy_funded target_value s = Ok r s) \/
  (exists e, can_buy_funded target_value s = Raise e s).
Proof.
  unfold can_buy_funded, pdiv. unfold_M. cbn.
  repeat (qcase; cbn); eauto.
Qed.

Lemma can_buy_sized_frame (tkr : string) (target_pct : Q) (s : Portfolio) :
  (exists r, can_buy_sized tkr target_pct s = Ok r s) \/
  (exists e, can_buy_sized tkr target_pct s = Raise e s).
Proof.
  unfold can_buy_sized.
  unfold_M. cbn.
  destruct (dget tkr (positions s)) as [pos|]; cbn.
  - qcase; cbn.
    + unfold pdiv. unfold_M. qcase; cbn; eauto.
    + apply can_buy_funded_frame.
  - apply can_buy_funded_frame.
Qed.

Lemma can_buy_frame (tkr : string) (target_pct : Q) (s : Portfolio) :
  (exists r, can_buy tkr target_pct s = Ok r s) \/
  (exists e, can_buy tkr target_pct s = Raise e s).
Proof.
  unfold can_buy. unfold_M. cbn.
  qcase; cbn; eauto using can_buy_sized_frame.
Qed.

Lemma can_buy_funded_exn (target_value : Q) (s s' : Portfolio) (e : exn) :
  can_buy_funded target_value s = Raise e s' -> e = ZeroDivisionError.
Proof.
  unfold can_buy_funded, pdiv. unfold_M. cbn.
  repeat (qcase; cbn); congruence.
Qed.

Lemma can_buy_exn (tkr : string) (target_pct : Q) (s s' : Portfolio) (e : exn) :
  can_buy tkr target_pct s = Raise e s' -> e = ZeroDivisionError.
Proof.
  unfold can_buy, can_buy_sized. unfold_M. cbn.
  qcase; cbn; [ discriminate | ].
  destruct (dget tkr (positions s)) as [pos|]; cbn;
    [ | apply can_buy_funded_exn ].
  qcase; cbn; [ | apply can_buy_funded_exn ].
  unfold pdiv. unfold_M.
  destruct (Qeq_bool (total_value s) 0); cbn; congruence.
Qed.

Lemma can_buy_funded_message (target_value : Q) (s s' : Portfolio)
    (can : bool) (v : Z) (a b : Q) :
  can_buy_funded target_value s <> Ok (can, v, MsgBelowMin a b) s'.
Proof.
  unfold can_buy_funded, pdiv. unfold_M. cbn.
  repeat (qcase; cbn); congruence.
Qed.

Lemma can_buy_sized_message (tkr : string) (target_pct : Q) (s s' : Portfolio)
    (can : bool) (v : Z) (a b : Q) :
  can_buy_sized tkr target_pct s <> Ok (can, v, MsgBelowMin a b) s'.
Proof.
  unfold can_buy_sized. unfold_M. cbn.
  destruct (dget tkr (positions s)) as [pos|]; cbn;
    [ | apply can_buy_funded_message ].
  destruct (Qltb _ (total_value s * min_position_size s));
    [ | apply can_buy_funded_message ].
  unfold pdiv. destruct (Qeq_bool (total_value s) 0); unfold_M; cbn; congruence.
Qed.

(** C6.  In every portfolio state (whatever its cash) and for every
    instrument, [can_buy] rejects a target weight strictly below
    [min_position_size] (as a percentage).  A target weight above
    [max_position_size] that passed the floor is clamped, not rejected:
    sizing proceeds with the ceiling [max_position_size * 100] in its
    place, so the answer is that of [can_buy] at the ceiling whenever the
    ceiling is not itself below the floor, and it is never the rejection
    for size.  Such a request is allowed with the whole value of the
    ceiling, [int(max_position_size * 100 / 100 * total_value)], for an
    instrument not held when cash covers that value with commission; for
    a held instrument it is allowed with the value missing to the
    ceiling when that increment reaches the floor and cash covers it. *)
Theorem can_buy_floor_rejects_ceiling_clamps
    (s : Portfolio) (tkr : string) (target_pct : Q) :
  (target_pct < min_position_size s * 100 ->
     can_buy tkr target_pct s =
       Ok (false, 0%Z, MsgBelowMin target_pct (min_position_size s * 100)) s)
  /\
  (min_position_size s * 100 <= target_pct ->
   max_position_size s * 100 < target_pct ->
     can_buy tkr target_pct s =
       can_buy_sized tkr (max_position_size s * 100) s
     /\ (min_position_size s <= max_position_size s ->
          can_buy tkr target_pct s =
            can_buy tkr (max_position_size s * 100) s)
     /\ (forall can v a b s',
          can_buy tkr target_pct s <> Ok (can, v, MsgBelowMin a b) s')
     /\ (let ceiling_value :=
            max_position_size s * 100 / 100 * total_value s in
         dget tkr (positions s) = None ->
         ceiling_value * (1 + commission_pct s) <= cash s ->
         can_buy tkr target_pct s = Ok (true, trunc ceiling_value, MsgOK) s)
     /\ (forall pos,
          let increment :=
            max_position_size s * 100 / 100 * total_value s
            - market_value pos in
          dget tkr (positions s) = Some pos ->
          total_value s * min_position_size s <= increment ->
          increment * (1 + commission_pct s) <= cash s ->
          can_buy tkr target_pct s = Ok (true, trunc increment, MsgOK) s)).
Proof.
  split.
  - intros Hlt. unfold can_buy. unfold_M. cbn.
    apply Qltb_true in Hlt. rewrite Hlt. reflexivity.
  - intros Hge Hgt.
    assert (Hsized : can_buy tkr target_pct s =
                     can_buy_sized tkr (max_position_size s * 100) s).
    { unfold can_buy. unfold_M. cbn.
      apply Qltb_false in Hge. rewrite Hge.
      apply Qgtb_true in Hgt. rewrite Hgt. reflexivity. }
    splits; [ exact Hsized | | | | ].
    + intros Hmm. rewrite Hsized.
      unfold can_buy. unfold_M. cbn.
      assert (Hfl : Qltb (max_position_size s * 100)
                         (min_position_size s * 100) = false)
        by (apply Qltb_false; lra).
      assert (Hcl : Qgtb (max_position_size s * 100)
                         (max_position_size s * 100) = false)
        by (apply Qgtb_false; lra).
      rewrite Hfl, Hcl. reflexivity.
    + intros can v a b s'. rewrite Hsized. apply can_buy_sized_message.
    + intros ceiling_value Hfree Hcash. rewrite Hsized.
      unfold can_buy_sized. unfold_M. cbn. rewrite Hfree.
      unfold can_buy_funded. unfold_M. cbn.
      apply Qgtb_false in Hcash. fold ceiling_value. rewrite Hcash.
      reflexivity.
    + intros pos increment Hget Hfloor Hcash. rewrite Hsized.
      unfold can_buy_sized. unfold_M. cbn. rewrite Hget.
      apply Qltb_false in Hfloor. fold increment. rewrite Hfloor.
      unfold can_buy_funded. unfold_M. cbn.
      apply Qgtb_false in Hcash. rewrite Hcash. reflexivity.
Qed.

(** On a default portfolio of 1000: a target of 0.5 percent is rejected
    for its size; a target of 40 percent is answered as the ceiling of 15
    percent is, and is allowed with the value 150. *)
Lemma can_buy_floor_rejects_ceiling_clamps_witness :
  can_buy "PETR4.SA" (1 # 2) (Portfolio_default 1000) =
    Ok (false, 0%Z, MsgBelowMin (1 # 2) (default_min_position_size * 100))
       (Portfolio_default 1000)
  /\ can_buy "PETR4.SA" 40 (Portfolio_default 1000) =
     can_buy "PETR4.SA" (default_max_position_size * 100) (Portfolio_default 1000)
  /\ can_buy "PETR4.SA" 40 (Portfolio_default 1000) =
     Ok (true, 150%Z, MsgOK) (Portfolio_default 1000).
Proof.
  splits.
  - apply (can_buy_floor_rejects_ceiling_clamps
             (Portfolio_default 1000) "PETR4.SA" (1 # 2)).
    reflexivity.
  - apply (can_buy_floor_rejects_ceiling_clamps
             (Portfolio_default 1000) "PETR4.SA" 40);
      vm_compute; congruence.
  - refine (proj1 (proj2 (proj2 (proj2
              (proj2 (can_buy_floor_rejects_ceiling_clamps
                        (Portfolio_default 1000) "PETR4.SA" 40) _ _))))
              _ _);
      vm_compute; congruence.
Defined.

Lemma can_buy_times_same (n : nat) (tkr : string) (target_pct : Q)
    (s : Portfolio) (r : bool * Z * BuyMsg) :
  can_buy tkr target_pct s = Ok r s ->
  can_buy_times n tkr target_pct s = Ok (repeat r n) s.
Proof.
  intros H. induction n as [|n IH]; [ reflexivity | ].
  cbn [can_buy_times repeat]. unfold_M. rewrite H. rewrite IH. reflexivity.
Qed.

(** C10.  [can_buy] is a query: whether it answers or raises, the
    portfolio (cash, positions, trade ledger, history) is exactly the one
    it was called on, and any number of consecutive calls give the same
    answer each time. *)
Theorem can_buy_is_pure_query (tkr : string) (target_pct : Q) (s : Portfolio) :
  (exists r,
      can_buy tkr target_pct s = Ok r s
      /\ forall n, can_buy_times n tkr target_pct s = Ok (repeat r n) s)
  \/ (exists e,
      can_buy tkr target_pct s = Raise e s
      /\ forall n, can_buy_times (S n) tkr target_pct s = Raise e s).
Proof.
  destruct (can_buy_frame tkr target_pct s) as [[r H] | [e H]].
  - left. exists r. split; [ exact H | ].
    intros n. apply can_buy_times_same, H.
  - right. exists e. split; [ exact H | ].
    intros n. cbn [can_buy_times]. unfold_M. rewrite H. reflexivity.
Qed.

(** ** Truncation *)

Lemma trunc_nonneg (q : Q) :
  0 <= q -> (0 <= trunc q)%Z /\ inject_Z (trunc q) <= q.
Proof.
  intros H. unfold trunc.
  apply Qle_bool_iff in H as Hb. rewrite Hb. split.
  - change 0%Z with (Qfloor 0). apply Qfloor_resp_le, H.
  - apply Qfloor_le.
Qed.

Lemma trunc_nonpos (q : Q) :
  q <= 0 -> (trunc q <= 0)%Z /\ q <= inject_Z (trunc q).
Proof.
  intros H. unfold trunc. qcase.
  - assert (Hq : q == 0) by lra.
    rewrite (Qfloor_comp _ _ Hq).
    change (Qfloor 0) with 0%Z. split; [ lia | exact H ].
  - split.
    + change 0%Z with (Qceiling 0). apply Qceiling_resp_le, H.
    + apply Qle_ceiling.
Qed.

Lemma inject_Z_eq_bool_0 (z : Z) : Qeq_bool (inject_Z z) 0 = (z =? 0)%Z.
Proof.
  unfold Qeq_bool, inject_Z. cbn. rewrite Z.mul_1_r.
  destruct z; reflexivity.
Qed.

Lemma inject_Z_pos (z : Z) : (0 < z)%Z -> 0 < inject_Z z.
Proof. intros H. change 0 with (inject_Z 0). rewrite <- Zlt_Qlt. exact H. Qed.

Lemma inject_Z_nonneg (z : Z) : (0 <= z)%Z -> 0 <= inject_Z z.
Proof. intros H. change 0 with (inject_Z 0). rewrite <- Zle_Qle. exact H. Qed.

Lemma inject_Z_nonpos (z : Z) : (z <= 0)%Z -> inject_Z z <= 0.
Proof. intros H. change 0 with (inject_Z 0). rewrite <- Zle_Qle. exact H. Qed.

(** The share count recomputed from cash never costs more than the cash. *)
Lemma trunc_cost_le_cash (c d : Q) :
  0 <= c -> ~ d == 0 -> inject_Z (trunc (c / d)) * d <= c.
Proof.
  intros Hc Hd.
  assert (Hcd : c / d * d == c) by (field; exact Hd).
  destruct (Qlt_le_dec 0 d) as [Hpos | Hneg].
  - assert (0 <= c / d).
    { apply Qle_shift_div_l; [ exact Hpos | lra ]. }
    destruct (trunc_nonneg (c / d)) as [_ Hle]; [ assumption | ].
    apply Qle_trans with (c / d * d); [ | lra ].
    apply Qmult_le_compat_r; lra.
  - assert (Hd' : d < 0) by (destruct (Qeq_dec d 0); [ contradiction | lra ]).
    assert (Hq : c / d <= 0).
    { assert (0 <= c / (- d)).
      { apply Qle_shift_div_l; lra. }
      assert (c / - d == - (c / d)) by (field; exact Hd).
      lra. }
    destruct (trunc_nonpos (c / d)) as [_ Hle]; [ assumption | ].
    assert (0 <= (inject_Z (trunc (c / d)) - c / d) * (- d)).
    { apply Qmult_le_0_compat; lra. }
    lra.
Qed.

(** ** What a call to buy or sell does *)

Lemma buy_settle_spec (tkr : string) (price : Q) (date : string)
    (sl tp : option Q) (rsn : string) (n : Z) (com tc : Q) (s : Portfolio) :
  let tr := {| trade_date := date; trade_ticker := tkr; action := BUY;
               trade_shares := n; trade_price := price; commission := com;
               total_cost := tc; reason := rsn |} in
  (exists s' pos',
      buy_settle tkr price date sl tp rsn n com tc s = Ok (Some tr) s'
      /\ cash s' = cash s - tc
      /\ trades s' = trades s ++ [tr]
      /\ history s' = history s
      /\ initial_capital s' = initial_capital s
      /\ commission_pct s' = commission_pct s
      /\ min_position_size s' = min_position_size s
      /\ max_position_size s' = max_position_size s
      /\ positions s' = dset tkr pos' (positions s)
      /\ current_price pos' = price
      /\ shares pos' = match dget tkr (positions s) with
                       | Some pos => (shares pos + n)%Z
                       | None => n
                       end
      /\ (n <> 0%Z -> shares pos' <> 0%Z))
  \/ (exists s' pos,
      buy_settle tkr price date sl tp rsn n com tc s = Raise ZeroDivisionError s'
      /\ cash s' = cash s - tc
      /\ dget tkr (positions s) = Some pos
      /\ (shares pos + n = 0)%Z).
Proof.
  intros tr. unfold buy_settle, append_trade. unfold_M. cbn.
  destruct (dget tkr (positions s)) as [pos|] eqn:Hget; cbn.
  - unfold pdiv. rewrite inject_Z_eq_bool_0.
    destruct (shares pos + n =? 0)%Z eqn:Hz; unfold_M; cbn.
    + right. eexists _, pos. repeat split. apply Z.eqb_eq, Hz.
    + left. eexists _, _. splits; try reflexivity.
      intros _. cbn. apply Z.eqb_neq, Hz.
  - left. eexists _, _. splits; try reflexivity. intros H. exact H.
Qed.

Lemma buy_outcome (tkr : string) (price target_pct : Q) (date : string)
    (sl tp : option Q) (rsn : string) (s : Portfolio) :
  buy tkr price target_pct date sl tp rsn s = Ok None s
  \/ (buy tkr price target_pct date sl tp rsn s = Raise ZeroDivisionError s
      /\ ((exists e, can_buy tkr target_pct s = Raise e s)
          \/ price == 0 \/ price * (1 + commission_pct s) == 0))
  \/ (exists n,
        n <> 0%Z /\ ~ price == 0
        /\ buy tkr price target_pct date sl tp rsn s =
           buy_settle tkr price date sl tp rsn n
             (inject_Z n * price * commission_pct s)
             (inject_Z n * price + inject_Z n * price * commission_pct s) s
        /\ ((exists v m,
               can_buy tkr target_pct s = Ok (true, v, m) s
               /\ n = trunc (inject_Z v / price)
               /\ inject_Z n * price + inject_Z n * price * commission_pct s
                  <= cash s)
            \/ (n = trunc (cash s / (price * (1 + commission_pct s)))
                /\ ~ price * (1 + commission_pct s) == 0))).
Proof.
  unfold buy, pdiv. unfold_M.
  destruct (can_buy_frame tkr target_pct s) as [[[[can v] m] H] | [e H]];
    [ | pose proof (can_buy_exn _ _ _ _ _ H); subst e ]; rewrite H.
  2: { right; left. split; [ reflexivity | left; eauto ]. }
  destruct can; cbn; [ | left; reflexivity ].
  qcase; cbn; [ right; left; split; [ reflexivity | right; left; assumption ] | ].
  destruct (trunc (inject_Z v / price) =? 0)%Z eqn:Hn; [ left; reflexivity | ].
  apply Z.eqb_neq in Hn.
  qcase; cbn.
  - qcase; cbn;
      [ right; left; split; [ reflexivity | right; right; assumption ] | ].
    destruct (trunc (cash s / (price * (1 + commission_pct s))) =? 0)%Z eqn:Hn2;
      [ left; reflexivity | ].
    apply Z.eqb_neq in Hn2.
    right; right. eexists. splits; [ exact Hn2 | assumption | reflexivity | ].
    right. split; [ reflexivity | assumption ].
  - right; right. eexists. splits; [ exact Hn | assumption | reflexivity | ].
    left. exists v, m. splits; [ reflexivity | reflexivity | assumption ].
Qed.

Lemma sell_outcome (tkr : string) (price : Q) (date : string)
    (nshares : option Z) (rsn : string) (s : Portfolio) :
  match dget tkr (positions s) with
  | None => sell tkr price date nshares rsn s = Ok None s
  | Some pos =>
      let n := Z.min (match nshares with Some k => k | None => shares pos end)
                     (shares pos) in
      if (n =? 0)%Z then sell tkr price date nshares rsn s = Ok None s
      else
        let net := inject_Z n * price
                   - inject_Z n * price * commission_pct s in
        let tr := {| trade_date := date; trade_ticker := tkr;
                     action := SELL; trade_shares := n;
                     trade_price := price;
                     commission := inject_Z n * price * commission_pct s;
                     total_cost := - net; reason := rsn |} in
        exists s',
          sell tkr price date nshares rsn s = Ok (Some tr) s'
          /\ cash s' = cash s + net
          /\ trades s' = trades s ++ [tr]
          /\ history s' = history s
          /\ initial_capital s' = initial_capital s
          /\ commission_pct s' = commission_pct s
          /\ min_position_size s' = min_position_size s
          /\ max_position_size s' = max_position_size s
          /\ positions s' =
             if (shares pos - n =? 0)%Z then ddel tkr (positions s)
             else dset tkr {| ticker := ticker pos;
                              shares := shares pos - n;
                              avg_price := avg_price pos;
                              current_price := current_price pos;
                              entry_date := entry_date pos;
                              stop_loss := stop_loss pos;
                              take_profit := take_profit pos |}
                       (positions s)
  end.
Proof.
  unfold sell, append_trade. unfold_M. cbn.
  destruct (dget tkr (positions s)) as [pos|] eqn:Hget; [ | reflexivity ].
  cbn zeta.
  destruct (Z.min _ _ =? 0)%Z eqn:Hn; [ reflexivity | ].
  cbn. eexists. repeat split.
Qed.

(** ** Dictionary facts *)

Section DictFacts.
Context {V : Type}.
Implicit Types (d : dict V) (k : string) (v : V).

Lemma dget_dset_eq k v d : dget k (dset k v d) = Some v.
Proof.
  induction d as [|[k' v'] d IH]; cbn.
  - rewrite String.eqb_refl. reflexivity.
  - destruct (String.eqb k k') eqn:E; cbn; rewrite E; [ reflexivity | exact IH ].
Qed.

Lemma ddel_dset_fresh k v d : dget k d = None -> ddel k (dset k v d) = d.
Proof.
  induction d as [|[k' v'] d IH]; cbn.
  - rewrite String.eqb_refl. reflexivity.
  - destruct (String.eqb k k') eqn:E; [ discriminate | ].
    intros H. cbn. rewrite E, IH by exact H. reflexivity.
Qed.

Lemma Forall_dset (P : string * V -> Prop) k v d :
  (forall k', P (k', v)) -> Forall P d -> Forall P (dset k v d).
Proof.
  intros Hv. induction 1 as [|[k' v'] d Hx Hd IH]; cbn.
  - repeat constructor. apply Hv.
  - destruct (String.eqb k k'); constructor; auto.
Qed.

Lemma Forall_ddel (P : string * V -> Prop) k d :
  Forall P d -> Forall P (ddel k d).
Proof.
  induction 1 as [|[k' v'] d Hx Hd IH]; cbn; [ constructor | ].
  destruct (String.eqb k k'); [ exact Hd | constructor; auto ].
Qed.

Lemma dget_Forall (P : string * V -> Prop) k v d :
  Forall P d -> dget k d = Some v -> exists k', P (k', v).
Proof.
  induction 1 as [|[k' v'] d Hx Hd IH]; cbn; [ discriminate | ].
  destruct (String.eqb k k'); [ | exact IH ].
  intros [= <-]. eauto.
Qed.
End DictFacts.

(** ** The ledger's sign convention *)

(** The recorded [total_cost] of a BUY is positive for a cash outflow and
    that of a SELL is the negated net proceeds: on a default portfolio of
    1000, buying 10 percent at price 10 takes cash down and records
    [+100.1]; selling the ten shares at the same price brings cash up and
    records [-99.9]. *)
Lemma total_cost_sign_counterexample :
  exists tb s1 ts s2,
    buy "PETR4.SA" 10 10 "2024-01-02" None None "SIGNAL"
        (Portfolio_default 1000) = Ok (Some tb) s1
    /\ sell "PETR4.SA" 10 "2024-01-03" None "SIGNAL" s1 = Ok (Some ts) s2
    /\ trades s2 = [tb; ts]
    /\ action tb = BUY /\ cash s1 < 1000 /\ 0 < total_cost tb
    /\ action ts = SELL /\ cash s1 < cash s2 /\ total_cost ts < 0
    /\ ~ total_cost ts ==
         inject_Z (trade_shares ts) * trade_price ts - commission ts.
Proof.
  eexists _, _, _, _.
  split; [ vm_compute; reflexivity | ].
  split; [ vm_compute; reflexivity | ].
  splits; vm_compute; congruence.
Qed.

(** C2 (amended).  For every executed trade the recorded [total_cost] is
    the cash that left the account: a BUY appends a trade whose
    [total_cost] is [+(shares * price + commission)], the amount deducted
    from cash; a SELL appends a trade whose [total_cost] is
    [-(shares * price - commission)], the negated net proceeds credited to
    cash. *)
Theorem total_cost_is_cash_paid_out :
  (forall tkr price target_pct date sl tp rsn s tr s',
      buy tkr price target_pct date sl tp rsn s = Ok (Some tr) s' ->
      action tr = BUY
      /\ trades s' = trades s ++ [tr]
      /\ total_cost tr ==
         inject_Z (trade_shares tr) * trade_price tr + commission tr
      /\ total_cost tr == cash s - cash s')
  /\
  (forall tkr price date nshares rsn s tr s',
      sell tkr price date nshares rsn s = Ok (Some tr) s' ->
      action tr = SELL
      /\ trades s' = trades s ++ [tr]
      /\ total_cost tr ==
         - (inject_Z (trade_shares tr) * trade_price tr - commission tr)
      /\ total_cost tr == cash s - cash s').
Proof.
  split.
  - intros tkr price target_pct date sl tp rsn s tr s' H.
    destruct (buy_outcome tkr price target_pct date sl tp rsn s)
      as [Hn | [[He _] | (n & _ & _ & Hs & _)]]; [ congruence | congruence | ].
    rewrite Hs in H.
    destruct (buy_settle_spec tkr price date sl tp rsn n
                (inject_Z n * price * commission_pct s)
                (inject_Z n * price + inject_Z n * price * commission_pct s) s)
      as [(s1 & p & Hb & Hc & Ht & _) | (s1 & p & Hb & _)];
      rewrite Hb in H; [ | discriminate ].
    injection H as <- <-. cbn. rewrite Hc.
    splits; [ reflexivity | exact Ht | reflexivity | ring ].
  - intros tkr price date nshares rsn s tr s' H.
    pose proof (sell_outcome tkr price date nshares rsn s) as Ho.
    destruct (dget tkr (positions s)) as [pos|]; [ | congruence ].
    cbn zeta in Ho.
    destruct (Z.min _ _ =? 0)%Z; [ congruence | ].
    destruct Ho as (s1 & Hb & Hc & Ht & _).
    rewrite Hb in H. injection H as <- <-. cbn. rewrite Hc.
    splits; [ reflexivity | exact Ht | reflexivity | ring ].
Qed.

Lemma total_cost_is_cash_paid_out_witness :
  (exists tb s1,
      buy "PETR4.SA" 10 10 "2024-01-02" None None "SIGNAL"
          (Portfolio_default 1000) = Ok (Some tb) s1
      /\ total_cost tb == cash (Portfolio_default 1000) - cash s1)
  /\
  (exists ts s2,
      sell "PETR4.SA" 10 "2024-01-03" None "SIGNAL" example_holding
        = Ok (Some ts) s2
      /\ total_cost ts == cash example_holding - cash s2).
Proof.
  split; eexists _, _; (split; [ vm_compute; reflexivity | ]).
  - refine (proj2 (proj2 (proj2
              (proj1 total_cost_is_cash_paid_out
                 "PETR4.SA" 10 10 "2024-01-02" None None "SIGNAL"
                 (Portfolio_default 1000) _ _ _)))).
    vm_compute. reflexivity.
  - refine (proj2 (proj2 (proj2
              (proj2 total_cost_is_cash_paid_out
                 "PETR4.SA" 10 "2024-01-03" None "SIGNAL"
                 example_holding _ _ _)))).
    vm_compute. reflexivity.
Defined.

(** ** Round trip *)

(** C7.  Buying an instrument that is not yet held and selling the whole
    position straight away at the same price charges the same commission
    on both legs and leaves cash at the starting cash minus twice that
    commission; with a non-zero commission rate this is not the starting
    cash. *)
Theorem buy_then_sell_all_costs_two_commissions
    (tkr : string) (price target_pct : Q) (date : string)
    (sl tp : option Q) (rsn : string) (date' rsn' : string)
    (s s1 : Portfolio) (tr : Trade) :
  dget tkr (positions s) = None ->
  buy tkr price target_pct date sl tp rsn s = Ok (Some tr) s1 ->
  exists tr' s2,
    sell tkr price date' None rsn' s1 = Ok (Some tr') s2
    /\ trade_shares tr' = trade_shares tr
    /\ commission tr' = commission tr
    /\ cash s2 == cash s - 2 * commission tr
    /\ positions s2 = positions s
    /\ (~ commission_pct s == 0 -> ~ cash s2 == cash s).
Proof.
  intros Hfree H.
  destruct (buy_outcome tkr price target_pct date sl tp rsn s)
    as [Hn | [[He _] | (n & Hn0 & Hp0 & Hs & _)]]; [ congruence | congruence | ].
  rewrite Hs in H.
  destruct (buy_settle_spec tkr price date sl tp rsn n
              (inject_Z n * price * commission_pct s)
              (inject_Z n * price + inject_Z n * price * commission_pct s) s)
    as [(s1' & p & Hb & Hc & _ & _ & _ & Hcp & _ & _ & Hps & _ & Hsh & _)
       | (s1' & p & Hb & _)];
    rewrite Hb in H; [ | discriminate ].
  injection H as <- <-. rewrite Hfree in Hsh.
  pose proof (sell_outcome tkr price date' None rsn' s1') as Ho.
  rewrite Hps, dget_dset_eq in Ho. cbn zeta in Ho.
  rewrite Z.min_id, Hsh in Ho.
  apply Z.eqb_neq in Hn0 as Hn0'. rewrite Hn0' in Ho.
  destruct Ho as (s2 & Hsell & Hc2 & _ & _ & _ & _ & _ & _ & Hps2).
  rewrite Z.sub_diag in Hps2. cbn in Hps2.
  rewrite ddel_dset_fresh in Hps2 by exact Hfree.
  eexists _, s2. split; [ exact Hsell | ]. cbn.
  rewrite Hc2, Hc, Hcp.
  splits; [ reflexivity | reflexivity | ring | exact Hps2 | ].
  intros Hcp0 Heq.
  assert (Hz : inject_Z n * price * commission_pct s == 0) by lra.
  assert (Hn' : ~ inject_Z n == 0).
  { intros E. apply Hn0. apply (proj1 (Z.eqb_eq n 0)).
    rewrite <- inject_Z_eq_bool_0. apply Qeq_bool_iff, E. }
  apply Qmult_integral in Hz as [Hz | Hz]; [ | contradiction ].
  apply Qmult_integral in Hz as [Hz | Hz]; contradiction.
Qed.

Lemma buy_then_sell_all_costs_two_commissions_witness :
  exists tr s1,
    buy "PETR4.SA" 10 10 "2024-01-02" None None "SIGNAL"
        (Portfolio_default 1000) = Ok (Some tr) s1
    /\ exists tr' s2,
         sell "PETR4.SA" 10 "2024-01-03" None "SIGNAL" s1 = Ok (Some tr') s2
         /\ cash s2 == cash (Portfolio_default 1000) - 2 * commission tr.
Proof.
  eexists _, _. split; [ vm_compute; reflexivity | ].
  match goal with
  | |- exists tr' s2, sell _ _ _ _ _ ?s1 = _ /\ _ == _ - 2 * commission ?tr =>
      destruct (buy_then_sell_all_costs_two_commissions
                  "PETR4.SA" 10 10 "2024-01-02" None None "SIGNAL"
                  "2024-01-03" "SIGNAL" (Portfolio_default 1000) s1 tr)
        as (tr' & s2 & Hs & _ & _ & Hc & _)
  end.
  - vm_compute. reflexivity.
  - vm_compute. reflexivity.
  - exists tr', s2. split; assumption.
Defined.

(** ** Invariants of valid runs *)

Lemma fold_left_Qplus_ge (l : list Q) (a : Q) :
  Forall (fun x => 0 <= x) l -> a <= fold_left Qplus l a.
Proof.
  intros H. revert a. induction H as [|x l Hx Hl IH]; intros a; cbn.
  - lra.
  - specialize (IH (a + x)). lra.
Qed.

Lemma fold_left_Qplus_ge_elem (l : list Q) (a x : Q) :
  Forall (fun x => 0 <= x) l -> In x l -> a + x <= fold_left Qplus l a.
Proof.
  intros H. revert a. induction H as [|y l Hy Hl IH]; intros a Hin; cbn.
  - destruct Hin.
  - destruct Hin as [-> | Hin].
    + apply fold_left_Qplus_ge, Hl.
    + specialize (IH (a + y) Hin). lra.
Qed.

Lemma market_value_nonneg (kv : string * Position) :
  wf_position kv -> 0 <= market_value (snd kv).
Proof.
  intros [Hs Hp]. unfold market_value.
  apply Qmult_le_0_compat; [ apply inject_Z_nonneg; lia | exact Hp ].
Qed.

Lemma market_values_nonneg (ps : dict Position) :
  Forall wf_position ps ->
  Forall (fun x => 0 <= x) (map market_value (dvalues ps)).
Proof.
  induction 1 as [|kv ps Hkv Hps IH]; cbn; constructor;
    [ apply market_value_nonneg, Hkv | exact IH ].
Qed.

Lemma positions_value_nonneg (s : Portfolio) :
  Forall wf_position (positions s) -> 0 <= positions_value s.
Proof.
  intros H. unfold positions_value, Qsum.
  apply fold_left_Qplus_ge, market_values_nonneg, H.
Qed.

Lemma dget_In {V : Type} (k : string) (v : V) (d : dict V) :
  dget k d = Some v -> In v (dvalues d).
Proof.
  induction d as [|[k' v'] d IH]; cbn; [ discriminate | ].
  destruct (String.eqb k k'); [ intros [= ->]; left; reflexivity | ].
  intros H. right. apply IH, H.
Qed.

Lemma market_value_le_positions_value (s : Portfolio) (tkr : string) (pos : Position) :
  Forall wf_position (positions s) ->
  dget tkr (positions s) = Some pos ->
  market_value pos <= positions_value s.
Proof.
  intros H Hget. unfold positions_value, Qsum.
  assert (0 + market_value pos <=
          fold_left Qplus (map market_value (dvalues (positions s))) 0).
  { apply fold_left_Qplus_ge_elem; [ apply market_values_nonneg, H | ].
    apply in_map, (dget_In tkr), Hget. }
  lra.
Qed.

Lemma total_value_nonneg (s : Portfolio) : wf s -> 0 <= total_value s.
Proof.
  intros [Hc Hp]. unfold total_value.
  pose proof (positions_value_nonneg s Hp). lra.
Qed.

Lemma Qdiv_nonneg (a b : Q) : 0 <= a -> 0 < b -> 0 <= a / b.
Proof. intros Ha Hb. apply Qle_shift_div_l; [ exact Hb | lra ]. Qed.

Lemma can_buy_funded_valid (target_value : Q) (s : Portfolio) :
  valid_params s -> wf s -> 0 <= target_value ->
  exists r, can_buy_funded target_value s = Ok r s /\ (0 <= snd (fst r))%Z.
Proof.
  intros (Hc1 & _) [Hcash _] Htv.
  unfold can_buy_funded, pdiv. unfold_M. cbn.
  qcase; cbn.
  - qcase; [ lra | ]. cbn. qcase; cbn.
    + eexists. split; [ reflexivity | cbn; lia ].
    + eexists. split; [ reflexivity | ]. cbn.
      apply trunc_nonneg, Qdiv_nonneg; lra.
  - eexists. split; [ reflexivity | ]. cbn. apply trunc_nonneg, Htv.
Qed.

Lemma can_buy_sized_valid (tkr : string) (target_pct : Q) (s : Portfolio) :
  valid_params s -> wf s -> 0 <= target_pct ->
  exists r, can_buy_sized tkr target_pct s = Ok r s /\ (0 <= snd (fst r))%Z.
Proof.
  intros Hv Hwf Hpct.
  pose proof (total_value_nonneg s Hwf) as Htv.
  assert (Htgt : 0 <= target_pct / 100 * total_value s).
  { apply Qmult_le_0_compat; [ apply Qdiv_nonneg; lra | exact Htv ]. }
  unfold can_buy_sized. unfold_M. cbn.
  destruct (dget tkr (positions s)) as [pos|] eqn:Hget; cbn.
  - destruct Hv as (Hc1 & Hc2 & Hmn & Hmx).
    assert (Hfloor : 0 <= total_value s * min_position_size s)
      by (apply Qmult_le_0_compat; assumption).
    qcase; cbn.
    + unfold pdiv. unfold_M. qcase; cbn.
      * exfalso.
        destruct Hwf as [Hcash Hps].
        pose proof (market_value_le_positions_value s tkr pos Hps Hget) as Hle.
        unfold total_value in *.
        assert (Hz : target_pct / 100 * (cash s + positions_value s) == 0).
        { rewrite E0. ring. }
        assert (Hz' : (cash s + positions_value s) * min_position_size s == 0).
        { rewrite E0. ring. }
        lra.
      * eexists. split; [ reflexivity | cbn; lia ].
    + apply can_buy_funded_valid; [ repeat split; assumption | exact Hwf | lra ].
  - apply can_buy_funded_valid; assumption.
Qed.

Lemma can_buy_valid (tkr : string) (target_pct : Q) (s : Portfolio) :
  valid_params s -> wf s ->
  exists r, can_buy tkr target_pct s = Ok r s /\ (0 <= snd (fst r))%Z.
Proof.
  intros Hv Hwf. pose proof Hv as (Hc1 & Hc2 & Hmn & Hmx).
  unfold can_buy. unfold_M. cbn.
  qcase; cbn.
  - eexists. split; [ reflexivity | cbn; lia ].
  - apply can_buy_sized_valid; [ assumption | assumption | ].
    qcase; lra.
Qed.

Lemma valid_params_same (s s' : Portfolio) :
  same_params s s' -> valid_params s -> valid_params s'.
Proof.
  intros (H1 & H2 & H3). unfold valid_params. rewrite H1, H2, H3. tauto.
Qed.

(** Whatever the inputs, a buy that finds non-negative cash deducts no
    more than that cash. *)
Lemma buy_cost_le_cash (tkr : string) (price target_pct : Q) (date : string)
    (sl tp : option Q) (rsn : string) (s s' : Portfolio) (tr : Trade) :
  0 <= cash s ->
  buy tkr price target_pct date sl tp rsn s = Ok (Some tr) s' ->
  total_cost tr <= cash s /\ cash s' == cash s - total_cost tr.
Proof.
  intros Hcash H.
  destruct (buy_outcome tkr price target_pct date sl tp rsn s)
    as [Hn | [[He _] | (n & Hn0 & Hp0 & Hs & Hcase)]]; [ congruence | congruence | ].
  rewrite Hs in H.
  destruct (buy_settle_spec tkr price date sl tp rsn n
              (inject_Z n * price * commission_pct s)
              (inject_Z n * price + inject_Z n * price * commission_pct s) s)
    as [(s1 & p & Hb & Hc & _) | (s1 & p & Hb & _)];
    rewrite Hb in H; [ | discriminate ].
  injection H as <- <-. cbn. rewrite Hc. split; [ | reflexivity ].
  destruct Hcase as [(v & m & _ & _ & Hle) | [Hn Hd]]; [ exact Hle | ].
  pose proof (trunc_cost_le_cash (cash s) _ Hcash Hd) as Hle.
  rewrite <- Hn in Hle. lra.
Qed.

Lemma wf_position_lookup (tkr : string) (pos : Position) (ps : dict Position) :
  Forall wf_position ps -> dget tkr ps = Some pos ->
  (0 < shares pos)%Z /\ 0 <= current_price pos.
Proof.
  intros H Hget.
  destruct (dget_Forall wf_position tkr pos ps H Hget) as [k Hk]. exact Hk.
Qed.

Lemma buy_valid (tkr : string) (price target_pct : Q) (date : string)
    (sl tp : option Q) (rsn : string) (s : Portfolio) :
  valid_params s -> wf s -> 0 < price ->
  exists r s',
    buy tkr price target_pct date sl tp rsn s = Ok r s'
    /\ same_params s s' /\ wf s'.
Proof.
  intros Hv Hwf Hprice.
  pose proof Hv as (Hc1 & Hc2 & Hmn & Hmx). pose proof Hwf as [Hcash Hps].
  destruct (buy_outcome tkr price target_pct date sl tp rsn s)
    as [Hn | [[He Hwhy] | (n & Hn0 & Hp0 & Hs & Hcase)]].
  - exists None, s. repeat split; assumption.
  - exfalso. destruct Hwhy as [[e Hr] | [Hz | Hz]].
    + destruct (can_buy_valid tkr target_pct s Hv Hwf) as (r & Hr' & _).
      congruence.
    + lra.
    + apply Qmult_integral in Hz. lra.
  - assert (Hn : (0 < n)%Z /\
                 inject_Z n * price + inject_Z n * price * commission_pct s
                 <= cash s).
    { destruct Hcase as [(v & m & Hcb & -> & Hle) | [-> Hd]].
      - split; [ | exact Hle ].
        destruct (can_buy_valid tkr target_pct s Hv Hwf) as (r & Hr & Hv0).
        rewrite Hcb in Hr. injection Hr as <-. cbn in Hv0.
        assert (Hq : 0 <= inject_Z v / price)
          by (apply Qdiv_nonneg; [ apply inject_Z_nonneg, Hv0 | exact Hprice ]).
        apply trunc_nonneg in Hq. lia.
      - pose proof (trunc_cost_le_cash (cash s) _ Hcash Hd) as Hle.
        split; [ | lra ].
        assert (Hq : 0 <= cash s / (price * (1 + commission_pct s))).
        { apply Qdiv_nonneg; [ exact Hcash | ].
          apply Qmult_lt_0_compat; lra. }
        apply trunc_nonneg in Hq. lia. }
    destruct Hn as [Hnpos Hle]. rewrite Hs.
    destruct (buy_settle_spec tkr price date sl tp rsn n
                (inject_Z n * price * commission_pct s)
                (inject_Z n * price + inject_Z n * price * commission_pct s) s)
      as [(s1 & p & Hb & Hc & _ & _ & _ & Hp1 & Hp2 & Hp3 & Hpos & Hcur & Hsh & _)
         | (s1 & p & Hb & _ & Hget & Hz)].
    + eexists _, s1. split; [ exact Hb | ].
      split; [ repeat split; assumption | ].
      split; [ rewrite Hc; lra | ].
      rewrite Hpos. apply Forall_dset; [ | exact Hps ].
      intros k. split; cbn; [ | rewrite Hcur; lra ].
      rewrite Hsh. destruct (dget tkr (positions s)) as [pos|] eqn:Hget;
        [ | exact Hnpos ].
      destruct (wf_position_lookup tkr pos _ Hps Hget). lia.
    + exfalso. destruct (wf_position_lookup tkr p _ Hps Hget). lia.
Qed.

Lemma sell_valid (tkr : string) (price : Q) (date : string)
    (nshares : option Z) (rsn : string) (s : Portfolio) :
  valid_params s -> wf s -> 0 <= price ->
  match nshares with Some k => (0 <= k)%Z | None => True end ->
  exists r s',
    sell tkr price date nshares rsn s = Ok r s'
    /\ same_params s s' /\ wf s'.
Proof.
  intros Hv [Hcash Hps] Hprice Hreq.
  pose proof Hv as (Hc1 & Hc2 & Hmn & Hmx).
  pose proof (sell_outcome tkr price date nshares rsn s) as Ho.
  destruct (dget tkr (positions s)) as [pos|] eqn:Hget.
  2: { exists None, s. repeat split; assumption. }
  cbn zeta in Ho.
  destruct (wf_position_lookup tkr pos _ Hps Hget) as [Hsh Hcur].
  set (n := Z.min _ _) in *.
  assert (Hn : (0 <= n <= shares pos)%Z).
  { subst n. destruct nshares; lia. }
  destruct (n =? 0)%Z eqn:Hn0.
  { exists None, s. repeat split; assumption. }
  apply Z.eqb_neq in Hn0.
  destruct Ho as (s' & Hsell & Hc & _ & _ & _ & Hp1 & Hp2 & Hp3 & Hpos).
  eexists _, s'. split; [ exact Hsell | ].
  split; [ repeat split; assumption | ]. split.
  - rewrite Hc.
    assert (0 <= inject_Z n) by (apply inject_Z_nonneg; lia).
    assert (0 <= inject_Z n * price) by (apply Qmult_le_0_compat; assumption).
    assert (0 <= inject_Z n * price * (1 - commission_pct s))
      by (apply Qmult_le_0_compat; [ assumption | lra ]).
    lra.
  - rewrite Hpos. destruct (shares pos - n =? 0)%Z eqn:Hz.
    + apply Forall_ddel, Hps.
    + apply Z.eqb_neq in Hz. apply Forall_dset; [ | exact Hps ].
      intros k. split; cbn; [ lia | exact Hcur ].
Qed.

Lemma tickers_to_close_prices (ps : dict Position) :
  Forall wf_position ps ->
  Forall (fun c : string * Q * string => 0 <= snd (fst c)) (tickers_to_close ps).
Proof.
  induction 1 as [|[k pos] ps [_ Hcur] Hps IH]; cbn; [ constructor | ].
  destruct (should_stop_loss pos); [ constructor; [ exact Hcur | exact IH ] | ].
  destruct (should_take_profit pos); [ constructor; [ exact Hcur | exact IH ] | ].
  exact IH.
Qed.

Lemma execute_closes_valid (date : string) (l : list (string * Q * string))
    (acc : list Trade) (s : Portfolio) :
  Forall (fun c : string * Q * string => 0 <= snd (fst c)) l ->
  valid_params s -> wf s ->
  exists r s',
    execute_closes date l acc s = Ok r s' /\ same_params s s' /\ wf s'.
Proof.
  intros Hl. revert acc s.
  induction Hl as [|[[k price] rsn] l Hp Hl IH]; intros acc s Hv Hwf; cbn.
  - exists acc, s. repeat split; apply Hwf.
  - unfold_M.
    destruct (sell_valid k price date None rsn s Hv Hwf Hp I)
      as (r & s1 & -> & Hsame & Hwf1).
    destruct (IH (match r with Some t => acc ++ [t] | None => acc end) s1
                 (valid_params_same _ _ Hsame Hv) Hwf1)
      as (r' & s' & Hrun & Hsame' & Hwf').
    exists r', s'. split; [ exact Hrun | ]. split; [ | exact Hwf' ].
    destruct Hsame as (? & ? & ?), Hsame' as (? & ? & ?).
    repeat split; congruence.
Qed.

Lemma check_stops_valid (date : string) (s : Portfolio) :
  valid_params s -> wf s ->
  exists r s', check_stops date s = Ok r s' /\ same_params s s' /\ wf s'.
Proof.
  intros Hv Hwf. unfold check_stops. unfold_M. cbn.
  apply execute_closes_valid; [ apply tickers_to_close_prices, Hwf | | ];
    assumption.
Qed.

Lemma update_prices_valid (prices : gmap string Q) (s : Portfolio) :
  (forall (tkr : string) (p : Q), prices !! tkr = Some p -> 0 <= p) ->
  wf s ->
  exists s', update_prices prices s = Ok tt s' /\ same_params s s' /\ wf s'.
Proof.
  intros Hp [Hcash Hps]. eexists. split; [ reflexivity | ].
  split; [ repeat split | ]. split; [ exact Hcash | ]. cbn.
  induction Hps as [|[k pos] ps [Hsh Hcur] Hps IH]; cbn; constructor;
    [ | exact IH ].
  destruct (prices !! k) as [p|] eqn:E; split; cbn;
    solve [ assumption | eapply Hp; eassumption ].
Qed.

Lemma apply_selic_valid (date : string) (rate : Q) (s : Portfolio) :
  -1 <= rate -> wf s ->
  exists s',
    apply_selic_to_cash date rate s = Ok tt s' /\ same_params s s' /\ wf s'.
Proof.
  intros Hr [Hcash Hps]. unfold apply_selic_to_cash, append_trade. unfold_M.
  cbn. qcase; cbn; eexists; (split; [ reflexivity | ]);
    (split; [ repeat split | ]); (split; [ | exact Hps ]); cbn;
    [ | exact Hcash ].
  assert (0 <= cash s * (1 + rate)) by (apply Qmult_le_0_compat; lra).
  lra.
Qed.

Lemma record_state_valid (date : string) (s : Portfolio) :
  wf s ->
  exists s', record_state date s = Ok tt s' /\ same_params s s' /\ wf s'.
Proof.
  intros Hwf. unfold record_state. unfold_M. cbn.
  eexists. split; [ reflexivity | ].
  split; [ repeat split | exact Hwf ].
Qed.

Lemma step_valid (o : op) (s : Portfolio) :
  valid_params s -> wf s -> valid_op o ->
  exists s', step o s = Ok tt s' /\ valid_params s' /\ wf s'.
Proof.
  intros Hv Hwf Ho.
  destruct o as [tkr price target_pct date sl tp rsn | tkr price date nshares rsn
                 | date | prices | date rate | date];
    cbn in Ho; cbn [step]; unfold_M.
  - destruct (buy_valid tkr price target_pct date sl tp rsn s Hv Hwf Ho)
      as (r & s' & -> & Hs & H).
    eauto using valid_params_same.
  - destruct Ho as [Hp Hn].
    destruct (sell_valid tkr price date nshares rsn s Hv Hwf Hp Hn)
      as (r & s' & -> & Hs & H).
    eauto using valid_params_same.
  - destruct (check_stops_valid date s Hv Hwf) as (r & s' & -> & Hs & H).
    eauto using valid_params_same.
  - destruct (update_prices_valid prices s Ho Hwf) as (s' & -> & Hs & H).
    eauto using valid_params_same.
  - destruct (apply_selic_valid date rate s Ho Hwf)
      as (s' & -> & Hs & H).
    eauto using valid_params_same.
  - destruct (record_state_valid date s Hwf) as (s' & -> & Hs & H).
    eauto using valid_params_same.
Qed.

Lemma run_valid (ops : list op) (s : Portfolio) :
  valid_params s -> wf s -> Forall valid_op ops ->
  exists s', run ops s = Ok tt s' /\ valid_params s' /\ wf s'.
Proof.
  intros Hv Hwf Hops. revert s Hv Hwf.
  induction Hops as [|o ops Ho Hops IH]; intros s Hv Hwf; cbn [run].
  - exists s. repeat split; solve [ assumption | apply Hv | apply Hwf ].
  - unfold_M.
    destruct (step_valid o s Hv Hwf Ho) as (s1 & -> & Hv1 & Hwf1).
    apply IH; assumption.
Qed.

(** ** Zero-share positions are never retained *)

Lemma buy_nonzero (tkr : string) (price target_pct : Q) (date : string)
    (sl tp : option Q) (rsn : string) (s s' : Portfolio) (r : option Trade) :
  buy tkr price target_pct date sl tp rsn s = Ok r s' ->
  Forall nonzero_position (positions s) ->
  Forall nonzero_position (positions s').
Proof.
  intros H Hps.
  destruct (buy_outcome tkr price target_pct date sl tp rsn s)
    as [Hn | [[He _] | (n & Hn0 & _ & Hs & _)]]; [ | congruence | ].
  - rewrite Hn in H. injection H as <- <-. exact Hps.
  - rewrite Hs in H.
    destruct (buy_settle_spec tkr price date sl tp rsn n
                (inject_Z n * price * commission_pct s)
                (inject_Z n * price + inject_Z n * price * commission_pct s) s)
      as [(s1 & p & Hb & _ & _ & _ & _ & _ & _ & _ & Hpos & _ & _ & Hnz)
         | (s1 & p & Hb & _)];
      rewrite Hb in H; [ | discriminate ].
    injection H as <- <-. rewrite Hpos.
    apply Forall_dset; [ | exact Hps ].
    intros k. apply Hnz, Hn0.
Qed.

Lemma sell_nonzero (tkr : string) (price : Q) (date : string)
    (nshares : option Z) (rsn : string) (s s' : Portfolio) (r : option Trade) :
  sell tkr price date nshares rsn s = Ok r s' ->
  Forall nonzero_position (positions s) ->
  Forall nonzero_position (positions s').
Proof.
  intros H Hps.
  pose proof (sell_outcome tkr price date nshares rsn s) as Ho.
  destruct (dget tkr (positions s)) as [pos|].
  2: { rewrite Ho in H. injection H as <- <-. exact Hps. }
  cbn zeta in Ho. destruct (Z.min _ _ =? 0)%Z.
  { rewrite Ho in H. injection H as <- <-. exact Hps. }
  destruct Ho as (s1 & Hsell & _ & _ & _ & _ & _ & _ & _ & Hpos).
  rewrite Hsell in H. injection H as <- <-. rewrite Hpos.
  destruct (_ =? 0)%Z eqn:Hz.
  - apply Forall_ddel, Hps.
  - apply Forall_dset; [ | exact Hps ].
    intros k. apply Z.eqb_neq, Hz.
Qed.

Lemma execute_closes_nonzero (date : string) (l : list (string * Q * string))
    (acc r : list Trade) (s s' : Portfolio) :
  execute_closes date l acc s = Ok r s' ->
  Forall nonzero_position (positions s) ->
  Forall nonzero_position (positions s').
Proof.
  revert acc s. induction l as [|[[k price] rsn] l IH]; intros acc s; cbn.
  - unfold_M. intros [= <- <-]. exact id.
  - unfold_M.
    destruct (sell k price date None rsn s) as [t s1 | e s1] eqn:Hs;
      [ | discriminate ].
    intros H Hps. eapply IH; [ exact H | ].
    eapply sell_nonzero; eassumption.
Qed.

Lemma step_nonzero (o : op) (s s' : Portfolio) :
  step o s = Ok tt s' ->
  Forall nonzero_position (positions s) ->
  Forall nonzero_position (positions s').
Proof.
  destruct o as [tkr price target_pct date sl tp rsn | tkr price date nshares rsn
                 | date | prices | date rate | date];
    cbn [step]; unfold_M.
  - destruct (buy _ _ _ _ _ _ _ s) as [r s1 | e s1] eqn:H; [ | discriminate ].
    intros [= <-]. eapply buy_nonzero, H.
  - destruct (sell _ _ _ _ _ s) as [r s1 | e s1] eqn:H; [ | discriminate ].
    intros [= <-]. eapply sell_nonzero, H.
  - destruct (check_stops date s) as [r s1 | e s1] eqn:H; [ | discriminate ].
    intros [= <-]. revert H. unfold check_stops. unfold_M. cbn.
    apply execute_closes_nonzero.
  - unfold update_prices. unfold_M. intros [= <-]. cbn.
    induction 1 as [|[k pos] ps Hx Hps IH]; cbn; constructor; [ | exact IH ].
    destruct (prices !! k); exact Hx.
  - unfold apply_selic_to_cash, append_trade. unfold_M. cbn.
    qcase; cbn; intros [= <-]; exact id.
  - unfold record_state. unfold_M. cbn. intros [= <-]. exact id.
Qed.

Lemma Forall_valid_firstn (ops : list op) (n : nat) :
  Forall valid_op ops -> Forall valid_op (firstn n ops).
Proof.
  intros H. revert n. induction H as [|o ops Ho H IH]; intros [|n]; cbn;
    constructor; auto.
Qed.

(** ** Share counts of retained positions *)

(** A buy at a negative price is accepted and leaves a position with a
    negative share count: on a default portfolio of 1000, buying 10
    percent at price -10 creates a position of -10 shares. *)
Lemma negative_shares_counterexample :
  exists s pos,
    run [OpBuy "PETR4.SA" (-10) 10 "2024-01-02" None None "SIGNAL"]
        (Portfolio_default 1000) = Ok tt s
    /\ dget "PETR4.SA" (positions s) = Some pos
    /\ ~ (0 < shares pos)%Z.
Proof.
  eexists _, _. split; [ vm_compute; reflexivity | ].
  split; [ vm_compute; reflexivity | ]. vm_compute. congruence.
Qed.

(** C5 (amended).  On a valid run (as in C1: positive buy prices,
    non-negative sell prices, share counts and marks, daily rates of at
    least -1, commission rate in (-1, 1], non-negative size bounds,
    starting from non-negative cash and positive holdings) every
    position retained after every buy, sell, stop check, mark, interest
    accrual or record has [shares > 0].  Whatever the inputs, an
    operation that returns normally never inserts or retains a
    zero-share position: a position sold down to zero is removed. *)
Theorem retained_positions_have_shares :
  (forall (ops : list op) (s : Portfolio),
      valid_params s -> wf s -> Forall valid_op ops ->
      forall n : nat,
        exists s',
          run (firstn n ops) s = Ok tt s'
          /\ Forall (fun kv => (0 < shares (snd kv))%Z) (positions s'))
  /\
  (forall (o : op) (s s' : Portfolio),
      Forall nonzero_position (positions s) ->
      step o s = Ok tt s' ->
      Forall nonzero_position (positions s')).
Proof.
  split.
  - intros ops s Hv Hwf Hops n.
    destruct (run_valid (firstn n ops) s Hv Hwf (Forall_valid_firstn _ n Hops))
      as (s' & Hrun & _ & _ & Hps).
    exists s'. split; [ exact Hrun | ].
    eapply List.Forall_impl; [ | exact Hps ]. intros kv [H _]. exact H.
  - intros o s s' Hps Hstep. eapply step_nonzero; eassumption.
Qed.

Lemma retained_positions_have_shares_witness :
  (exists s',
      run (firstn 4
             [OpBuy "PETR4.SA" (305 # 10) 8 "2024-01-02" None (Some 33) "INITIAL";
              OpUpdatePrices {[ "PETR4.SA"%string := 34 ]};
              OpCheckStops "2024-01-03";
              OpBuy "VALE3.SA" (652 # 10) 8 "2024-01-03" None None "INITIAL"])
          (Portfolio_default 50000000) = Ok tt s'
      /\ Forall (fun kv => (0 < shares (snd kv))%Z) (positions s'))
  /\ (exists s',
         step (OpSell "PETR4.SA" 10 "2024-01-03" (Some 4%Z) "SIGNAL")
              example_holding = Ok tt s'
         /\ Forall nonzero_position (positions s')).
Proof.
  split.
  - apply (proj1 retained_positions_have_shares).
    + repeat split; vm_compute; congruence.
    + split; [ vm_compute; congruence | constructor ].
    + repeat constructor; cbn.
      intros tkr p Hp.
      apply lookup_singleton_Some in Hp as [_ <-]. vm_compute; congruence.
  - eexists. split; [ vm_compute; reflexivity | ].
    refine (proj2 retained_positions_have_shares
              (OpSell "PETR4.SA" 10 "2024-01-03" (Some 4%Z) "SIGNAL")
              example_holding _ _ _).
    + repeat constructor. vm_compute. congruence.
    + vm_compute. reflexivity.
Defined.

(** ** Negative prices and share counts are not rejected *)

Lemma trunc_le_minus_one (q : Q) : q <= -1 -> (trunc q <= -1)%Z.
Proof.
  intros H. unfold trunc. qcase; [ lra | ].
  change (-1)%Z with (Qceiling (-1)). apply Qceiling_resp_le, H.
Qed.

(** Neither call fails on such input.  On a default portfolio of 1000 a
    buy at price -10 executes a BUY of -10 shares and takes 100.1 out of
    cash; on a portfolio holding ten shares a sell of -5 shares executes
    a SELL of -5 shares, takes 49.95 out of cash and leaves fifteen
    shares. *)
Lemma negative_input_counterexample :
  (exists tr s' pos,
      buy "PETR4.SA" (-10) 10 "2024-01-02" None None "SIGNAL"
          (Portfolio_default 1000) = Ok (Some tr) s'
      /\ trade_shares tr = (-10)%Z
      /\ trades s' = [tr]
      /\ cash s' == 1000 - (1001 # 10)
      /\ dget "PETR4.SA" (positions s') = Some pos
      /\ shares pos = (-10)%Z)
  /\
  (exists s1 tr s' pos,
      run [OpBuy "PETR4.SA" 10 10 "2024-01-02" None None "SIGNAL"]
          (Portfolio_default 1000) = Ok tt s1
      /\ sell "PETR4.SA" 10 "2024-01-03" (Some (-5)%Z) "SIGNAL" s1
         = Ok (Some tr) s'
      /\ trade_shares tr = (-5)%Z
      /\ cash s' == cash s1 - (4995 # 100)
      /\ dget "PETR4.SA" (positions s') = Some pos
      /\ shares pos = 15%Z).
Proof.
  split.
  - eexists _, _, _. splits; vm_compute; reflexivity.
  - eexists _, _, _, _. splits; vm_compute; reflexivity.
Qed.

(** C3 (amended).  [buy] and [sell] do not validate the sign of their
    inputs; a negative price or share count is processed like any other
    value.  A sell with a negative share count on a held instrument is
    always executed: it appends a SELL for [min(count, held)] shares, a
    negative number, and adds [shares * price * (1 - commission)] to
    cash.  A buy at a negative price of an instrument not yet held is
    executed whenever [can_buy] allows a value of at least [|price|] and
    cash covers the cost of the truncated share count: it appends a BUY
    with a negative share count, deducts its total cost and opens a
    position with that negative share count. *)
Theorem negative_inputs_are_executed :
  (forall tkr price date (n : Z) rsn (s : Portfolio) (pos : Position),
      dget tkr (positions s) = Some pos ->
      (n < 0)%Z ->
      exists tr s',
        sell tkr price date (Some n) rsn s = Ok (Some tr) s'
        /\ trade_shares tr = Z.min n (shares pos)
        /\ (trade_shares tr < 0)%Z
        /\ trades s' = trades s ++ [tr]
        /\ cash s' ==
           cash s + inject_Z (trade_shares tr) * price * (1 - commission_pct s))
  /\
  (forall tkr price target_pct date sl tp rsn (s : Portfolio) (v : Z) (m : BuyMsg),
      price < 0 ->
      dget tkr (positions s) = None ->
      can_buy tkr target_pct s = Ok (true, v, m) s ->
      - price <= inject_Z v ->
      inject_Z (trunc (inject_Z v / price)) * price * (1 + commission_pct s)
        <= cash s ->
      exists tr s' pos',
        buy tkr price target_pct date sl tp rsn s = Ok (Some tr) s'
        /\ trade_shares tr = trunc (inject_Z v / price)
        /\ (trade_shares tr < 0)%Z
        /\ trades s' = trades s ++ [tr]
        /\ cash s' == cash s - total_cost tr
        /\ dget tkr (positions s') = Some pos'
        /\ shares pos' = trade_shares tr).
Proof.
  split.
  - intros tkr price date n rsn s pos Hget Hn.
    pose proof (sell_outcome tkr price date (Some n) rsn s) as Ho.
    rewrite Hget in Ho. cbn zeta in Ho.
    assert (Hmin : (Z.min n (shares pos) < 0)%Z) by lia.
    destruct (Z.min n (shares pos) =? 0)%Z eqn:Hz;
      [ apply Z.eqb_eq in Hz; lia | ].
    destruct Ho as (s' & Hsell & Hc & Ht & _).
    eexists _, s'. split; [ exact Hsell | ]. cbn.
    splits; [ reflexivity | exact Hmin | exact Ht | rewrite Hc; ring ].
  - intros tkr price target_pct date sl tp rsn s v m Hp Hfree Hcb Hv Hcost.
    assert (Hq : inject_Z v / price <= -1).
    { assert (Hq' : 1 <= inject_Z v / (- price))
        by (apply Qle_shift_div_l; lra).
      assert (inject_Z v / - price == - (inject_Z v / price))
        by (field; lra).
      lra. }
    apply trunc_le_minus_one in Hq.
    set (n := trunc (inject_Z v / price)) in *.
    assert (Hbuy : buy tkr price target_pct date sl tp rsn s =
                   buy_settle tkr price date sl tp rsn n
                     (inject_Z n * price * commission_pct s)
                     (inject_Z n * price + inject_Z n * price * commission_pct s)
                     s).
    { unfold buy, pdiv. unfold_M. rewrite Hcb. cbn.
      qcase; [ lra | ]. cbn. fold n.
      destruct (n =? 0)%Z eqn:Hz; [ apply Z.eqb_eq in Hz; lia | ].
      qcase; [ lra | ]. reflexivity. }
    destruct (buy_settle_spec tkr price date sl tp rsn n
                (inject_Z n * price * commission_pct s)
                (inject_Z n * price + inject_Z n * price * commission_pct s) s)
      as [(s' & p & Hb & Hc & Ht & _ & _ & _ & _ & _ & Hpos & _ & Hsh & _)
         | (s' & p & Hb & _ & Hget & _)]; [ | congruence ].
    rewrite Hfree in Hsh.
    eexists _, s', p. split; [ rewrite Hbuy; exact Hb | ]. cbn.
    splits; [ reflexivity | lia | exact Ht | rewrite Hc; reflexivity
            | rewrite Hpos; apply dget_dset_eq | exact Hsh ].
Qed.

Lemma negative_inputs_are_executed_witness :
  (exists tr s',
      sell "PETR4.SA" 10 "2024-01-03" (Some (-5)%Z) "SIGNAL"
           example_holding = Ok (Some tr) s'
      /\ (trade_shares tr < 0)%Z)
  /\ (exists tr s',
         buy "PETR4.SA" (-10) 10 "2024-01-02" None None "SIGNAL"
             (Portfolio_default 1000) = Ok (Some tr) s'
         /\ (trade_shares tr < 0)%Z).
Proof.
  split.
  - destruct (proj1 negative_inputs_are_executed
                "PETR4.SA" 10 "2024-01-03" (-5)%Z "SIGNAL"
                example_holding _ eq_refl)
      as (tr & s' & H & _ & Hn & _); [ lia | ].
    exists tr, s'. split; assumption.
  - destruct (proj2 negative_inputs_are_executed
                "PETR4.SA" (-10) 10 "2024-01-02" None None "SIGNAL"
                (Portfolio_default 1000) 100%Z MsgOK)
      as (tr & s' & pos & H & _ & Hn & _);
      try (vm_compute; congruence).
    exists tr, s'. split; assumption.
Defined.

(** ** Benchmark aligner *)

Lemma ffill_from_length (prev : option Q) (l : list (option Q)) :
  length (ffill_from prev l) = length l.
Proof.
  revert prev. induction l as [|c l IH]; intros prev; cbn;
    [ reflexivity | rewrite IH; reflexivity ].
Qed.

Lemma ffill_from_present (prev : option Q) (l : list (option Q)) (i : nat) (v : Q) :
  l !! i = Some (Some v) -> ffill_from prev l !! i = Some (Some v).
Proof.
  revert prev i. induction l as [|c l IH]; intros prev [|i]; cbn;
    try discriminate.
  - intros [= ->]. reflexivity.
  - apply IH.
Qed.

Lemma ffill_from_head (prev : option Q) (l : list (option Q)) :
  l !! 0%nat = Some None -> ffill_from prev l !! 0%nat = Some prev.
Proof. destruct l as [|c l]; cbn; [ discriminate | ]. intros [= ->]. reflexivity. Qed.

Lemma ffill_from_gap (prev : option Q) (l : list (option Q)) (i : nat) :
  l !! S i = Some None ->
  ffill_from prev l !! S i = ffill_from prev l !! i.
Proof.
  revert prev i. induction l as [|c l IH]; intros prev i; cbn;
    [ discriminate | ].
  destruct i as [|i].
  - intros H. rewrite (ffill_from_head _ l H). reflexivity.
  - intros H. apply IH, H.
Qed.

(** Filling with an actual value leaves no cell missing. *)
Lemma fillna_complete (m : Q) (l : list (option Q)) :
  Forall (fun cell => cell <> None) (fillna (Some m) l).
Proof.
  induction l as [|c l IH]; cbn; constructor; [ | exact IH ].
  destruct c; discriminate.
Qed.

Lemma fillna_id (value : option Q) (l : list (option Q)) :
  isna_any l = false -> fillna value l = l.
Proof.
  induction l as [|c l IH]; cbn; [ reflexivity | ].
  destruct c; cbn; [ | discriminate ].
  intros H. f_equal. apply IH, H.
Qed.

Lemma align_cdi_unfold (dates : list Z) (cdi : gmap Z (option Q)) :
  align_cdi_to_portfolio dates cdi =
  fillna (series_mean cdi) (ffill (reindex dates cdi)).
Proof.
  unfold align_cdi_to_portfolio.
  destruct (isna_any (ffill (reindex dates cdi))) eqn:E;
    [ reflexivity | symmetry; apply fillna_id, E ].
Qed.

Lemma series_mean_defined (cdi : gmap Z (option Q)) (d : Z) (v : Q) :
  cdi !! d = Some (Some v) -> exists m, series_mean cdi = Some m.
Proof.
  intros H. unfold series_mean.
  assert (Hin : v ∈ valid_cells cdi).
  { unfold valid_cells. apply list_elem_of_omap.
    exists (d, Some v). split; [ | reflexivity ].
    apply elem_of_map_to_list, H. }
  destruct (valid_cells cdi) as [|x vs]; [ inversion Hin | eauto ].
Qed.

Lemma fillna_lookup (value : option Q) (l : list (option Q)) (i : nat) :
  fillna value l !! i =
  (fun cell => match cell with Some v => Some v | None => value end) <$> l !! i.
Proof. unfold fillna. apply list_lookup_fmap. Qed.

Lemma reindex_lookup (dates : list Z) (cdi : gmap Z (option Q)) (i : nat) :
  reindex dates cdi !! i = cdi_cell cdi <$> dates !! i.
Proof. unfold reindex. apply list_lookup_fmap. Qed.

(** With an empty source series the aligner neither fails nor fills: it
    returns a series made of missing values only. *)
Lemma aligner_empty_source_counterexample :
  align_cdi_to_portfolio [1; 2; 3]%Z ∅ = [None; None; None].
Proof. reflexivity. Qed.

(** C4 (amended).  For every target date axis and every source series
    holding at least one valid rate, the aligner returns one cell per
    target date and none of them is missing: a date with a valid rate in
    the source gets that rate, any other date gets the aligned value of
    the date before it on the axis, and when the axis starts on such a
    date it gets the mean of the source's valid rates. *)
Theorem align_cdi_complete (portfolio_dates : list Z) (cdi : gmap Z (option Q)) :
  (exists d v, cdi !! d = Some (Some v)) ->
  let aligned := align_cdi_to_portfolio portfolio_dates cdi in
  length aligned = length portfolio_dates
  /\ Forall (fun cell => cell <> None) aligned
  /\ (forall i d v,
        portfolio_dates !! i = Some d -> cdi !! d = Some (Some v) ->
        aligned !! i = Some (Some v))
  /\ (forall i d,
        portfolio_dates !! S i = Some d -> cdi_cell cdi d = None ->
        aligned !! S i = aligned !! i)
  /\ (forall d,
        portfolio_dates !! 0%nat = Some d -> cdi_cell cdi d = None ->
        aligned !! 0%nat = Some (series_mean cdi)).
Proof.
  intros (d0 & v0 & H0). cbn zeta. rewrite align_cdi_unfold.
  destruct (series_mean_defined cdi d0 v0 H0) as [m Hm]. rewrite Hm.
  splits.
  - unfold fillna, ffill, reindex.
    rewrite length_map, ffill_from_length, length_map. reflexivity.
  - apply fillna_complete.
  - intros i d v Hd Hv. rewrite fillna_lookup. unfold ffill.
    rewrite (ffill_from_present None _ i v); [ reflexivity | ].
    rewrite reindex_lookup, Hd. cbn. unfold cdi_cell. rewrite Hv. reflexivity.
  - intros i d Hd Hc. rewrite !fillna_lookup. unfold ffill.
    rewrite ffill_from_gap; [ reflexivity | ].
    rewrite reindex_lookup, Hd. cbn. rewrite Hc. reflexivity.
  - intros d Hd Hc. rewrite fillna_lookup. unfold ffill.
    rewrite ffill_from_head; [ reflexivity | ].
    rewrite reindex_lookup, Hd. cbn. rewrite Hc. reflexivity.
Qed.

(** A source with rates on days 2 and 4 only, aligned on days 1 to 4:
    day 1 gets the mean, day 3 is forward-filled from day 2. *)
Lemma align_cdi_complete_witness :
  let cdi : gmap Z (option Q) :=
    {[ 2%Z := Some (1 # 10); 4%Z := Some (3 # 10) ]} in
  Forall (fun cell => cell <> None)
         (align_cdi_to_portfolio [1; 2; 3; 4]%Z cdi)
  /\ align_cdi_to_portfolio [1; 2; 3; 4]%Z cdi !! 2%nat =
     align_cdi_to_portfolio [1; 2; 3; 4]%Z cdi !! 1%nat
  /\ align_cdi_to_portfolio [1; 2; 3; 4]%Z cdi !! 1%nat = Some (Some (1 # 10)).
Proof.
  intros cdi.
  destruct (align_cdi_complete [1; 2; 3; 4]%Z cdi) as (_ & Hall & Hcopy & Hfill & _).
  - exists 2%Z, (1 # 10). reflexivity.
  - splits.
    + exact Hall.
    + apply (Hfill 1%nat 3%Z); reflexivity.
    + apply (Hcopy 1%nat 2%Z); reflexivity.
Defined.

(** ** Maximum drawdown *)

Lemma cumprod_from_length (l : list Q) (acc : Q) :
  length (cumprod_from acc l) = length l.
Proof.
  revert acc. induction l as [|x l IH]; intros acc; cbn;
    [ reflexivity | rewrite IH; reflexivity ].
Qed.

Lemma cumprod_length (l : list Q) : length (cumprod l) = length l.
Proof. destruct l; cbn; [ | rewrite cumprod_from_length ]; reflexivity. Qed.

Lemma expanding_max_from_length (l : list Q) (acc : Q) :
  length (expanding_max_from acc l) = length l.
Proof.
  revert acc. induction l as [|x l IH]; intros acc; cbn;
    [ reflexivity | rewrite IH; reflexivity ].
Qed.

Lemma expanding_max_length (l : list Q) : length (expanding_max l) = length l.
Proof. destruct l; cbn; [ | rewrite expanding_max_from_length ]; reflexivity. Qed.

Lemma cumprod_from_nth (l : list Q) (acc : Q) (i : nat) :
  (i < length l)%nat ->
  nth i (cumprod_from acc l) 0 == acc * fold_right Qmult 1 (firstn (S i) l).
Proof.
  revert acc i. induction l as [|x l IH]; intros acc i Hi; cbn in Hi; [ lia | ].
  destruct i as [|i].
  - change (firstn 1 (x :: l)) with [x]. cbn [nth cumprod cumprod_from fold_right]. ring.
  - change (nth (S i) (cumprod_from acc (x :: l)) 0)
      with (nth i (cumprod_from (acc * x) l) 0).
    change (firstn (S (S i)) (x :: l)) with (x :: firstn (S i) l).
    rewrite IH by lia. cbn [fold_right]. ring.
Qed.

Lemma cumprod_nth (l : list Q) (i : nat) :
  (i < length l)%nat ->
  nth i (cumprod l) 0 == fold_right Qmult 1 (firstn (S i) l).
Proof.
  destruct l as [|x l]; cbn [length]; intros Hi; [ lia | ].
  destruct i as [|i].
  - change (firstn 1 (x :: l)) with [x]. cbn [nth cumprod cumprod_from fold_right]. ring.
  - change (nth (S i) (cumprod (x :: l)) 0)
      with (nth i (cumprod_from x l) 0).
    change (firstn (S (S i)) (x :: l)) with (x :: firstn (S i) l).
    rewrite cumprod_from_nth by lia. reflexivity.
Qed.

Lemma cumulative_nth (returns : list Q) (i : nat) :
  (i < length returns)%nat ->
  nth i (cumprod (map (fun r => 1 + r) returns)) 0 == cumulative_at returns i.
Proof.
  intros Hi. rewrite cumprod_nth by (rewrite length_map; exact Hi).
  unfold cumulative_at. rewrite firstn_map. reflexivity.
Qed.

Lemma expanding_max_from_step (l : list Q) (acc : Q) (i : nat) :
  (S i < length l)%nat ->
  nth (S i) (expanding_max_from acc l) 0 =
  Qmax (nth i (expanding_max_from acc l) 0) (nth (S i) l 0).
Proof.
  revert acc i. induction l as [|x l IH]; intros acc i Hi; cbn in Hi; [ lia | ].
  destruct l as [|y l]; cbn in Hi; [ lia | ].
  destruct i as [|i]; [ reflexivity | ].
  change (nth (S (S i)) (expanding_max_from acc (x :: y :: l)) 0)
    with (nth (S i) (expanding_max_from (Qmax acc x) (y :: l)) 0).
  rewrite IH by (cbn; lia). reflexivity.
Qed.

Lemma expanding_max_step (l : list Q) (i : nat) :
  (S i < length l)%nat ->
  nth (S i) (expanding_max l) 0 =
  Qmax (nth i (expanding_max l) 0) (nth (S i) l 0).
Proof.
  destruct l as [|x l]; cbn [length]; intros Hi; [ lia | ].
  destruct l as [|y l]; cbn in Hi; [ lia | ].
  destruct i as [|i]; [ reflexivity | ].
  change (nth (S (S i)) (expanding_max (x :: y :: l)) 0)
    with (nth (S i) (expanding_max_from x (y :: l)) 0).
  rewrite expanding_max_from_step by (cbn; lia). reflexivity.
Qed.

Lemma Qmax_compat (a a' b b' : Q) : a == a' -> b == b' -> Qmax a b == Qmax a' b'.
Proof. intros Ha Hb. rewrite Ha, Hb. reflexivity. Qed.

Lemma running_max_nth (returns : list Q) (i : nat) :
  (i < length returns)%nat ->
  nth i (expanding_max (cumprod (map (fun r => 1 + r) returns))) 0
  == running_max_at returns i.
Proof.
  induction i as [|i IH]; intros Hi.
  - cbn [running_max_at]. rewrite <- cumulative_nth by exact Hi.
    destruct returns; [ cbn in Hi; lia | reflexivity ].
  - rewrite expanding_max_step
      by (rewrite cumprod_length, length_map; exact Hi).
    cbn [running_max_at].
    apply Qmax_compat; [ apply IH; lia | apply cumulative_nth, Hi ].
Qed.

Lemma drawdown_series_length (cs ms : list Q) :
  length cs = length ms -> length (drawdown_series cs ms) = length cs.
Proof.
  revert ms. induction cs as [|c cs IH]; intros [|m ms] Hlen;
    try discriminate; [ reflexivity | ].
  cbn. rewrite IH; [ reflexivity | ]. cbn in Hlen. lia.
Qed.

Lemma drawdown_series_nth (cs ms : list Q) (i : nat) :
  length cs = length ms -> (i < length cs)%nat ->
  nth i (drawdown_series cs ms) None
  = np_div (nth i cs 0 - nth i ms 0) (nth i ms 0).
Proof.
  revert ms i. induction cs as [|c cs IH]; intros [|m ms] i Hlen Hi;
    try discriminate; cbn in Hi; [ lia | ].
  destruct i as [|i]; [ reflexivity | ].
  cbn [drawdown_series nth]. apply IH; [ cbn in Hlen | ]; lia.
Qed.

Lemma In_omap_id {A : Type} (l : list (option A)) (y : A) :
  In y (omap id l) <-> In (Some y) l.
Proof.
  induction l as [|[x|] l IH]; cbn.
  - tauto.
  - rewrite IH. split; (intros [H | H]; [ left; congruence | right; exact H ]).
  - rewrite IH. split; [ intros H; right; exact H | ].
    intros [H | H]; [ discriminate | exact H ].
Qed.

Lemma fold_left_Qmin_le_acc (l : list Q) (a : Q) : fold_left Qmin l a <= a.
Proof.
  revert a. induction l as [|y l IH]; intros a; cbn; [ lra | ].
  apply Qle_trans with (Qmin a y); [ apply IH | apply Q.le_min_l ].
Qed.

Lemma fold_left_Qmin_le_elem (l : list Q) (a y : Q) :
  In y l -> fold_left Qmin l a <= y.
Proof.
  revert a. induction l as [|z l IH]; intros a Hin; cbn; [ destruct Hin | ].
  destruct Hin as [-> | Hin]; [ | apply IH, Hin ].
  apply Qle_trans with (Qmin a y);
    [ apply fold_left_Qmin_le_acc | apply Q.le_min_r ].
Qed.

Lemma fold_left_Qmin_attained (l : list Q) (a : Q) :
  exists y, In y (a :: l) /\ fold_left Qmin l a == y.
Proof.
  revert a. induction l as [|z l IH]; intros a; cbn [fold_left].
  - exists a. split; [ left; reflexivity | reflexivity ].
  - destruct (IH (Qmin a z)) as (y & [<- | Hin] & Hy).
    + destruct (Q.min_dec a z) as [E | E].
      * exists a. split; [ left; reflexivity | rewrite Hy; exact E ].
      * exists z. split; [ right; left; reflexivity | rewrite Hy; exact E ].
    + exists y. split; [ right; right; exact Hin | exact Hy ].
Qed.

Lemma series_min_bounds (l : list Q) :
  l <> [] ->
  exists m,
    series_min l = Some m
    /\ (exists y, In y l /\ m == y)
    /\ (forall y, In y l -> m <= y).
Proof.
  destruct l as [|x l]; [ congruence | intros _ ].
  exists (fold_left Qmin l x). splits; [ reflexivity | | ].
  - apply fold_left_Qmin_attained.
  - intros y [<- | Hin];
      [ apply fold_left_Qmin_le_acc | apply fold_left_Qmin_le_elem, Hin ].
Qed.

Lemma metrics_returns_length (h : list HistoryRow) :
  length (metrics_returns h) = (length h - 1)%nat.
Proof.
  unfold metrics_returns. destruct h as [|r h]; cbn; [ reflexivity | ].
  rewrite length_map. lia.
Qed.

Lemma drawdown_nth (returns : list Q) (i : nat) :
  (i < length returns)%nat ->
  let cumulative := cumprod (map (fun r => 1 + r) returns) in
  (nth i cumulative 0 - nth i (expanding_max cumulative) 0)
    / nth i (expanding_max cumulative) 0
  == drawdown_at returns i.
Proof.
  intros Hi. cbn zeta. unfold drawdown_at.
  rewrite (running_max_nth returns i Hi), (cumulative_nth returns i Hi).
  reflexivity.
Qed.

Lemma zero_peak_zero_value (returns : list Q) (i : nat) :
  running_max_at returns i == 0 -> cumulative_at returns i == 0.
Proof.
  assert (Hzero : forall j k,
             (j <= k)%nat -> cumulative_at returns j == 0 ->
             cumulative_at returns k == 0).
  { intros j k Hjk. unfold cumulative_at.
    replace (S k) with (S j + (k - j))%nat by lia.
    generalize (k - j)%nat as d. clear Hjk k. intros d.
    revert returns. induction (S j) as [|n IH]; intros returns; cbn [firstn map fold_right].
    - intros H. exfalso. revert H. cbn. discriminate.
    - destruct returns as [|r returns]; cbn [Nat.add firstn map fold_right].
      + intros H. exfalso. revert H. cbn. discriminate.
      + intros H. destruct (Qmult_integral _ _ H) as [Hr | Hrest].
        * rewrite Hr. ring.
        * rewrite (IH returns Hrest). ring. }
  assert (Hle : forall j, cumulative_at returns j <= running_max_at returns j).
  { intros [|j]; cbn [running_max_at]; [ lra | apply Q.le_max_r ]. }
  assert (Hatt : forall k, exists j, (j <= k)%nat
                  /\ running_max_at returns k == cumulative_at returns j).
  { induction k as [|k (j & Hj & IHk)]; cbn [running_max_at].
    - exists 0%nat. split; [ lia | reflexivity ].
    - destruct (Q.max_dec (running_max_at returns k)
                          (cumulative_at returns (S k))) as [E | E].
      + exists j. split; [ lia | rewrite E; exact IHk ].
      + exists (S k). split; [ lia | exact E ]. }
  intros Hm. destruct (Hatt i) as (j & Hj & Hrj).
  apply (Hzero j i Hj). rewrite <- Hrj. exact Hm.
Qed.

Lemma max_drawdown_values (returns : list Q) :
  match max_drawdown returns with
  | Some m =>
      (exists i, (i < length returns)%nat
                 /\ ~ running_max_at returns i == 0
                 /\ m == drawdown_at returns i * 100)
      /\ (forall i, (i < length returns)%nat ->
                    ~ running_max_at returns i == 0 ->
                    m <= drawdown_at returns i * 100)
  | None =>
      forall i, (i < length returns)%nat -> running_max_at returns i == 0
  end.
Proof.
  unfold max_drawdown, min_skipna.
  set (cumulative := cumprod (map (fun r => 1 + r) returns)).
  set (ds := drawdown_series cumulative (expanding_max cumulative)).
  assert (Hcl : length cumulative = length returns).
  { unfold cumulative. rewrite cumprod_length, length_map. reflexivity. }
  assert (Hel : length cumulative = length (expanding_max cumulative))
    by (rewrite expanding_max_length; reflexivity).
  assert (Hdl : length ds = length returns).
  { unfold ds. rewrite drawdown_series_length; assumption. }
  assert (Hcell : forall i, (i < length returns)%nat ->
             (running_max_at returns i == 0 /\ nth i ds None = None)
             \/ (~ running_max_at returns i == 0
                 /\ exists y, nth i ds None = Some y
                              /\ y == drawdown_at returns i)).
  { intros i Hi. unfold ds.
    rewrite drawdown_series_nth by first [ exact Hel | rewrite Hcl; exact Hi ].
    unfold np_div.
    destruct (Qeq_bool (nth i (expanding_max cumulative) 0) 0) eqn:E.
    - left. apply Qeq_bool_iff in E. unfold cumulative in E.
      rewrite (running_max_nth returns i Hi) in E. split; [ exact E | reflexivity ].
    - right. apply Qeq_bool_false in E. unfold cumulative in E.
      rewrite (running_max_nth returns i Hi) in E. split; [ exact E | ].
      eexists. split; [ reflexivity | ].
      unfold cumulative. apply (drawdown_nth returns i Hi). }
  destruct (omap id ds) as [|x xs] eqn:Hvalid.
  - cbn. intros i Hi.
    destruct (Hcell i Hi) as [[Hz _] | (_ & y & Hy & _)]; [ exact Hz | ].
    exfalso.
    assert (Hin : In y (omap id ds)).
    { apply In_omap_id. rewrite <- Hy. apply nth_In. lia. }
    rewrite Hvalid in Hin. exact Hin.
  - rewrite <- Hvalid.
    destruct (series_min_bounds (omap id ds))
      as (m & -> & (y & Hin & Hy) & Hlow);
      [ rewrite Hvalid; discriminate | ].
    cbn [fmap option_fmap option_map]. split.
    + apply In_omap_id in Hin.
      destruct (In_nth _ _ None Hin) as (i & Hi & Hnth).
      rewrite Hdl in Hi. exists i. split; [ exact Hi | ].
      destruct (Hcell i Hi) as [[_ Hn] | (Hnz & y' & Hy' & Hd)];
        [ congruence | ].
      split; [ exact Hnz | ].
      rewrite Hy' in Hnth. injection Hnth as ->. rewrite Hy, Hd. reflexivity.
    + intros i Hi Hnz.
      destruct (Hcell i Hi) as [[Hz _] | (_ & y' & Hy' & Hd)];
        [ contradiction | ].
      assert (Hin' : In y' (omap id ds)).
      { apply In_omap_id. rewrite <- Hy'. apply nth_In. lia. }
      specialize (Hlow y' Hin'). rewrite <- Hd. lra.
Qed.

(** C8.  For a history of at least two records, take the fractional
    daily returns (the recorded percentages divided by 100) of every
    record but the first, let [cumulative] be the running product of
    [1 + return] and [runningMax] its running maximum.  The reported
    maximum drawdown (a percentage) is the most negative value of
    [(cumulative - runningMax) / runningMax] over the points where this
    quotient is a number: it is attained at one of them and is below the
    value at every one.  The quotient fails to be a number only where the
    running maximum is zero, and there the cumulative value is zero too
    (0/0); the report is NaN only when that is so at every point. *)
Theorem max_drawdown_is_trough_to_peak (portfolio_history : list HistoryRow) :
  (2 <= length portfolio_history)%nat ->
  let returns :=
    map (fun row => h_returns row / 100) (tail portfolio_history) in
  exists md,
    max_drawdown_pct portfolio_history = Some md
    /\ match md with
       | Some m =>
           (exists i, (i < length returns)%nat
                      /\ ~ running_max_at returns i == 0
                      /\ m == drawdown_at returns i * 100)
           /\ (forall i, (i < length returns)%nat ->
                         ~ running_max_at returns i == 0 ->
                         m <= drawdown_at returns i * 100)
       | None =>
           forall i, (i < length returns)%nat ->
                     running_max_at returns i == 0
       end
    /\ (forall i, running_max_at returns i == 0 ->
                  cumulative_at returns i == 0).
Proof.
  intros Hlen returns.
  assert (Hret : metrics_returns portfolio_history = returns).
  { unfold metrics_returns, returns. destruct portfolio_history; reflexivity. }
  assert (Hrl : (0 < length returns)%nat).
  { unfold returns. rewrite length_map.
    destruct portfolio_history as [|r [|r' h]]; cbn in *; lia. }
  unfold max_drawdown_pct.
  destruct (length portfolio_history <? 2)%nat eqn:Hlt;
    [ apply Nat.ltb_lt in Hlt; lia | ].
  rewrite Hret.
  destruct returns as [|r0 rs] eqn:Hr; [ cbn in Hrl; lia | ].
  rewrite <- Hr in *.
  eexists. splits; [ reflexivity | apply max_drawdown_values | ].
  intros i. apply zero_peak_zero_value.
Qed.

(** Recorded returns of 0, -10, 5 and -2 percent: the maximum drawdown
    is -2 percent, the fall from the peak reached after the third
    record.  It is neither the worst single return (-10) nor the fall
    from the starting value, which the dropped first record stands for. *)
Lemma max_drawdown_is_trough_to_peak_witness :
  exists m,
    max_drawdown_pct (history_of_returns [0; -10; 5; -2]) = Some (Some m)
    /\ m == -2
    /\ m == drawdown_at [-10 / 100; 5 / 100; -2 / 100] 2 * 100.
Proof.
  destruct (max_drawdown_is_trough_to_peak (history_of_returns [0; -10; 5; -2]))
    as (md & Hm & Hval & _).
  - cbn. lia.
  - vm_compute in Hm. injection Hm as <-.
    eexists. splits; [ vm_compute; reflexivity | reflexivity | reflexivity ].
Defined.

(** A loss of 200 percent followed by one of 100 percent: the running
    maximum falls to zero at the second point, whose cell is NaN and is
    skipped; the report is the value at the first point, 0. *)
Example max_drawdown_skips_nan :
  exists m,
    max_drawdown_pct (history_of_returns [0; -200; -100]) = Some (Some m)
    /\ m == 0.
Proof. eexists. split; [ vm_compute; reflexivity | reflexivity ]. Qed.

(** Three consecutive losses of one percent: the drawdown is the
    cumulated fall from the first point, not the worst single return. *)
Example max_drawdown_not_min_return :
  exists m,
    max_drawdown_pct (history_of_returns [0; -1; -1; -1]) = Some (Some m)
    /\ m == - (199 # 100).
Proof. eexists. split; [ vm_compute; reflexivity | reflexivity ]. Qed.

(** ** Scaling *)

#[global] Instance trunc_comp : Proper (Qeq ==> eq) trunc.
Proof.
  intros q q' H. unfold trunc.
  rewrite (Qleb_comp 0 0 (Qeq_refl 0) q q' H).
  destruct (Qle_bool 0 q');
    [ apply Qfloor_comp, H | apply Qceiling_comp, H ].
Qed.

#[global] Instance Qltb_comp : Proper (Qeq ==> Qeq ==> eq) Qltb.
Proof. intros a a' Ha b b' Hb. unfold Qltb. rewrite Ha, Hb. reflexivity. Qed.

#[global] Instance Qgtb_comp : Proper (Qeq ==> Qeq ==> eq) Qgtb.
Proof. intros a a' Ha b b' Hb. unfold Qgtb. rewrite Ha, Hb. reflexivity. Qed.

#[global] Instance Qgeb_comp : Proper (Qeq ==> Qeq ==> eq) Qgeb.
Proof. intros a a' Ha b b' Hb. unfold Qgeb. rewrite Ha, Hb. reflexivity. Qed.

Section ScalingFacts.
Variable k : Q.
Hypothesis k_pos : 0 < k.

Lemma Qle_bool_scaled (a b a' b' : Q) :
  a' == k * a -> b' == k * b -> Qle_bool a' b' = Qle_bool a b.
Proof.
  intros Ha Hb. rewrite Ha, Hb.
  apply eq_true_iff_eq. rewrite !Qle_bool_iff.
  apply Qmult_le_l, k_pos.
Qed.

Lemma Qltb_scaled (a b a' b' : Q) :
  a' == k * a -> b' == k * b -> Qltb a' b' = Qltb a b.
Proof.
  intros Ha Hb. unfold Qltb. f_equal. apply Qle_bool_scaled; assumption.
Qed.

Lemma Qgtb_scaled (a b a' b' : Q) :
  a' == k * a -> b' == k * b -> Qgtb a' b' = Qgtb a b.
Proof. intros Ha Hb. apply Qltb_scaled; assumption. Qed.

Lemma Qeq_bool_scaled_0 (a a' : Q) :
  a' == k * a -> Qeq_bool a' 0 = Qeq_bool a 0.
Proof.
  intros Ha. rewrite Ha.
  apply eq_true_iff_eq. rewrite !Qeq_bool_iff. split.
  - intros H. apply Qmult_integral in H as [H | H]; [ lra | exact H ].
  - intros ->. ring.
Qed.

Lemma scaled_market_value (p p' : Position) :
  scaled_position k p p' -> market_value p' == k * market_value p.
Proof.
  intros (_ & Hs & _ & Hc & _). unfold market_value. rewrite Hs, Hc. ring.
Qed.

Lemma scaled_fold_sum (ps ps' : dict Position) (a a' : Q) :
  Forall2 (scaled_entry k) ps ps' -> a' == k * a ->
  fold_left Qplus (map market_value (dvalues ps')) a'
  == k * fold_left Qplus (map market_value (dvalues ps)) a.
Proof.
  intros H. revert a a'.
  induction H as [|kv kv' ps ps' [_ Hp] _ IH]; intros a a' Ha; cbn.
  - exact Ha.
  - apply IH. rewrite Ha, (scaled_market_value _ _ Hp). ring.
Qed.

Lemma scaled_positions_value (s s' : Portfolio) :
  scaled k s s' -> positions_value s' == k * positions_value s.
Proof.
  intros (_ & _ & _ & _ & _ & Hp & _). unfold positions_value, Qsum.
  apply scaled_fold_sum; [ exact Hp | ring ].
Qed.

Lemma scaled_total_value (s s' : Portfolio) :
  scaled k s s' -> total_value s' == k * total_value s.
Proof.
  intros H. unfold total_value.
  rewrite (scaled_positions_value _ _ H).
  destruct H as (_ & -> & _). ring.
Qed.

Lemma scaled_dget (tkr : string) (ps ps' : dict Position) :
  Forall2 (scaled_entry k) ps ps' ->
  match dget tkr ps, dget tkr ps' with
  | Some p, Some p' => scaled_position k p p'
  | None, None => True
  | _, _ => False
  end.
Proof.
  induction 1 as [|[t p] [t' p'] ps ps' [Ht Hp] _ IH]; cbn; [ exact I | ].
  cbn in Ht. subst t'. destruct (String.eqb tkr t); [ exact Hp | exact IH ].
Qed.

Lemma scaled_dset (tkr : string) (p p' : Position) (ps ps' : dict Position) :
  scaled_position k p p' ->
  Forall2 (scaled_entry k) ps ps' ->
  Forall2 (scaled_entry k) (dset tkr p ps) (dset tkr p' ps').
Proof.
  intros Hp. induction 1 as [|[t q] [t' q'] ps ps' [Ht Hq] Hrest IH]; cbn.
  - constructor; [ split; [ reflexivity | exact Hp ] | constructor ].
  - cbn in Ht. subst t'. destruct (String.eqb tkr t).
    + constructor; [ split; [ reflexivity | exact Hp ] | exact Hrest ].
    + constructor; [ split; [ reflexivity | exact Hq ] | exact IH ].
Qed.

Lemma scaled_ddel (tkr : string) (ps ps' : dict Position) :
  Forall2 (scaled_entry k) ps ps' ->
  Forall2 (scaled_entry k) (ddel tkr ps) (ddel tkr ps').
Proof.
  induction 1 as [|[t q] [t' q'] ps ps' [Ht Hq] Hrest IH]; cbn;
    [ constructor | ].
  cbn in Ht. subst t'. destruct (String.eqb tkr t); [ exact Hrest | ].
  constructor; [ split; [ reflexivity | exact Hq ] | exact IH ].
Qed.

Lemma can_buy_funded_scaled (tv tv' : Q) (s s' : Portfolio) :
  scaled k s s' -> tv' == k * tv ->
  can_buy_agree s s' (can_buy_funded tv s) (can_buy_funded tv' s').
Proof.
  intros Hs Htv. pose proof (scaled_total_value _ _ Hs) as Htot.
  destruct Hs as (Hic & Hcash & Hcp & Hmn & Hmx & Hps & Htr & Hh).
  unfold can_buy_funded, pdiv. unfold_M. cbn.
  assert (E1 : Qgtb (tv' * (1 + commission_pct s')) (cash s') =
               Qgtb (tv * (1 + commission_pct s)) (cash s)).
  { apply Qgtb_scaled; [ rewrite Htv, Hcp; ring | exact Hcash ]. }
  rewrite E1.
  destruct (Qgtb (tv * (1 + commission_pct s)) (cash s)); cbn;
    [ | repeat split ].
  assert (E2 : Qeq_bool (1 + commission_pct s') 0 =
               Qeq_bool (1 + commission_pct s) 0) by (rewrite Hcp; reflexivity).
  rewrite E2. destruct (Qeq_bool (1 + commission_pct s) 0) eqn:Ez; cbn;
    [ repeat split | ].
  apply Qeq_bool_false in Ez.
  assert (E3 : Qltb (cash s' / (1 + commission_pct s'))
                    (total_value s' * min_position_size s') =
               Qltb (cash s / (1 + commission_pct s))
                    (total_value s * min_position_size s)).
  { apply Qltb_scaled.
    - rewrite Hcash, Hcp. field. exact Ez.
    - rewrite Htot, Hmn. ring. }
  rewrite E3.
  destruct (Qltb (cash s / (1 + commission_pct s))
                 (total_value s * min_position_size s)); cbn; repeat split.
Qed.

Lemma can_buy_sized_scaled (tkr : string) (pct pct' : Q) (s s' : Portfolio) :
  scaled k s s' -> pct' == pct ->
  can_buy_agree s s' (can_buy_sized tkr pct s) (can_buy_sized tkr pct' s').
Proof.
  intros Hs Hpct. pose proof (scaled_total_value _ _ Hs) as Htot.
  pose proof Hs as (Hic & Hcash & Hcp & Hmn & Hmx & Hps & Htr & Hh).
  unfold can_buy_sized. unfold_M. cbn.
  pose proof (scaled_dget tkr _ _ Hps) as Hget.
  destruct (dget tkr (positions s)) as [p|], (dget tkr (positions s')) as [p'|];
    try contradiction; cbn.
  - pose proof (scaled_market_value _ _ Hget) as Hmv.
    assert (Hadd : pct' / 100 * total_value s' - market_value p' ==
                   k * (pct / 100 * total_value s - market_value p)).
    { rewrite Hpct, Htot, Hmv. field. }
    assert (E1 : Qltb (pct' / 100 * total_value s' - market_value p')
                      (total_value s' * min_position_size s') =
                 Qltb (pct / 100 * total_value s - market_value p)
                      (total_value s * min_position_size s)).
    { apply Qltb_scaled; [ exact Hadd | rewrite Htot, Hmn; ring ]. }
    rewrite E1.
    destruct (Qltb (pct / 100 * total_value s - market_value p)
                   (total_value s * min_position_size s)); cbn.
    + unfold pdiv. unfold_M.
      rewrite (Qeq_bool_scaled_0 _ _ Htot).
      destruct (Qeq_bool (total_value s) 0); cbn; repeat split.
    + apply can_buy_funded_scaled; assumption.
  - apply can_buy_funded_scaled; [ exact Hs | ].
    rewrite Hpct, Htot. field.
Qed.

Lemma can_buy_scaled (tkr : string) (pct : Q) (s s' : Portfolio) :
  scaled k s s' ->
  can_buy_agree s s' (can_buy tkr pct s) (can_buy tkr pct s').
Proof.
  intros Hs.
  pose proof Hs as (Hic & Hcash & Hcp & Hmn & Hmx & Hps & Htr & Hh).
  unfold can_buy. unfold_M. cbn.
  assert (E1 : Qltb pct (min_position_size s' * 100) =
               Qltb pct (min_position_size s * 100))
    by (rewrite Hmn; reflexivity).
  rewrite E1. destruct (Qltb pct (min_position_size s * 100)); cbn;
    [ repeat split | ].
  apply can_buy_sized_scaled; [ exact Hs | ].
  assert (E2 : Qgtb pct (max_position_size s' * 100) =
               Qgtb pct (max_position_size s * 100))
    by (rewrite Hmx; reflexivity).
  rewrite E2. destruct (Qgtb pct (max_position_size s * 100));
    [ rewrite Hmx | ]; reflexivity.
Qed.

Lemma scaled_opt_map (o : option Q) : scaled_opt k o (option_map (Qmult k) o).
Proof. destruct o; cbn; [ reflexivity | exact I ]. Qed.

Lemma truthy_scaled (o o' : option Q) :
  scaled_opt k o o' -> truthy o' = truthy o.
Proof.
  destruct o as [v|], o' as [v'|]; cbn; try contradiction; [ | reflexivity ].
  intros H. f_equal. apply Qeq_bool_scaled_0, H.
Qed.

Lemma scaled_append_trade (t t' : Trade) (s s' : Portfolio) :
  scaled k s s' -> scaled_trade k t t' ->
  scaled k (set_trades (trades s ++ [t]) s) (set_trades (trades s' ++ [t']) s').
Proof.
  intros (Hic & Hcash & Hcp & Hmn & Hmx & Hps & Htr & Hh) Ht.
  unfold scaled. cbn. splits; try assumption.
  apply Forall2_app; [ exact Htr | constructor; [ exact Ht | constructor ] ].
Qed.

Lemma scaled_set_cash (c c' : Q) (s s' : Portfolio) :
  scaled k s s' -> c' == k * c -> scaled k (set_cash c s) (set_cash c' s').
Proof.
  intros (Hic & Hcash & Hcp & Hmn & Hmx & Hps & Htr & Hh) Hc.
  unfold scaled. cbn. splits; assumption.
Qed.

Lemma scaled_set_positions (ps ps' : dict Position) (s s' : Portfolio) :
  scaled k s s' -> Forall2 (scaled_entry k) ps ps' ->
  scaled k (set_positions ps s) (set_positions ps' s').
Proof.
  intros (Hic & Hcash & Hcp & Hmn & Hmx & Hps & Htr & Hh) Hc.
  unfold scaled. cbn. splits; assumption.
Qed.

Lemma buy_settle_scaled (tkr : string) (price price' : Q) (date : string)
    (sl tp sl' tp' : option Q) (rsn : string) (n : Z) (com com' tc tc' : Q)
    (s s' : Portfolio) :
  scaled k s s' ->
  price' == k * price -> com' == k * com -> tc' == k * tc ->
  scaled_opt k sl sl' -> scaled_opt k tp tp' ->
  res_scaled k (scaled_otrade k)
    (buy_settle tkr price date sl tp rsn n com tc s)
    (buy_settle tkr price' date sl' tp' rsn n com' tc' s').
Proof.
  intros Hs Hprice Hcom Htc Hsl Htp.
  pose proof Hs as (Hic & Hcash & Hcp & Hmn & Hmx & Hps & Htr & Hh).
  assert (Hc1 : cash s' - tc' == k * (cash s - tc))
    by (rewrite Hcash, Htc; ring).
  assert (Htrade : scaled_trade k
            {| trade_date := date; trade_ticker := tkr; action := BUY;
               trade_shares := n; trade_price := price; commission := com;
               total_cost := tc; reason := rsn |}
            {| trade_date := date; trade_ticker := tkr; action := BUY;
               trade_shares := n; trade_price := price'; commission := com';
               total_cost := tc'; reason := rsn |}).
  { unfold scaled_trade. cbn. splits; solve [ reflexivity | assumption ]. }
  assert (Htrs : Forall2 (scaled_trade k)
            (trades s ++
             [{| trade_date := date; trade_ticker := tkr; action := BUY;
                 trade_shares := n; trade_price := price; commission := com;
                 total_cost := tc; reason := rsn |}])
            (trades s' ++
             [{| trade_date := date; trade_ticker := tkr; action := BUY;
                 trade_shares := n; trade_price := price'; commission := com';
                 total_cost := tc'; reason := rsn |}])).
  { apply Forall2_app; [ exact Htr | constructor; [ exact Htrade | constructor ] ]. }
  unfold buy_settle, append_trade. unfold_M. cbn.
  pose proof (scaled_dget tkr _ _ Hps) as Hget.
  destruct (dget tkr (positions s)) as [p|], (dget tkr (positions s')) as [p'|];
    try contradiction; cbn.
  - destruct Hget as (Hpt & Hpsh & Hpavg & Hpcur & Hpdate & Hpsl & Hptp).
    unfold pdiv. rewrite !inject_Z_eq_bool_0, Hpsh.
    destruct (shares p + n =? 0)%Z eqn:Hz; unfold_M; cbn.
    + unfold scaled. cbn. splits; try assumption.
      apply scaled_dset; [ | exact Hps ].
      unfold scaled_position. cbn. splits; solve [ assumption | lia ].
    + split; [ exact Htrade | ].
      unfold scaled. cbn. splits; try assumption.
      apply scaled_dset; [ | exact Hps ].
      unfold scaled_position. cbn.
      rewrite (truthy_scaled _ _ Hsl), (truthy_scaled _ _ Htp).
      splits; try solve [ assumption | reflexivity ].
      * rewrite Hpavg, Hprice. field.
        intros E. apply Qeq_bool_iff in E.
        rewrite inject_Z_eq_bool_0 in E. congruence.
      * destruct (truthy sl); assumption.
      * destruct (truthy tp); assumption.
  - split; [ exact Htrade | ].
    unfold scaled. cbn. splits; try assumption.
    apply scaled_dset; [ | exact Hps ].
    unfold scaled_position. cbn.
    splits; solve [ assumption | reflexivity ].
Qed.

Lemma buy_scaled (tkr : string) (price pct : Q) (date : string)
    (sl tp : option Q) (rsn : string) (s s' : Portfolio) :
  scaled k s s' ->
  buy_shares_agree k (OpBuy tkr price pct date sl tp rsn) s s' ->
  res_scaled k (scaled_otrade k)
    (buy tkr price pct date sl tp rsn s)
    (buy tkr (k * price) pct date
         (option_map (Qmult k) sl) (option_map (Qmult k) tp) rsn s').
Proof.
  intros Hs Hagree. cbn in Hagree.
  pose proof Hs as (Hic & Hcash & Hcp & Hmn & Hmx & Hps & Htr & Hh).
  pose proof (can_buy_scaled tkr pct s s' Hs) as Hcb.
  unfold buy, pdiv. unfold_M.
  destruct (can_buy tkr pct s) as [[[can v] m] s1 | e s1],
           (can_buy tkr pct s') as [[[can' v'] m'] s1' | e' s1'];
    cbn in Hcb; try contradiction.
  2: { destruct Hcb as [-> ->]. exact Hs. }
  destruct Hcb as (-> & -> & ->).
  destruct can; cbn; [ | split; [ exact I | exact Hs ] ].
  specialize (Hagree v v' m m' eq_refl eq_refl).
  rewrite (Qeq_bool_scaled_0 price (k * price)) by reflexivity.
  destruct (Qeq_bool price 0) eqn:Ep; cbn; [ exact Hs | ].
  apply Qeq_bool_false in Ep.
  rewrite <- Hagree.
  set (n := trunc (inject_Z v / price)).
  destruct (n =? 0)%Z; [ split; [ exact I | exact Hs ] | ].
  assert (Htc : inject_Z n * (k * price)
                + inject_Z n * (k * price) * commission_pct s'
                == k * (inject_Z n * price
                        + inject_Z n * price * commission_pct s))
    by (rewrite Hcp; ring).
  rewrite (Qgtb_scaled _ _ _ _ Htc Hcash).
  destruct (Qgtb (inject_Z n * price + inject_Z n * price * commission_pct s)
                 (cash s)); cbn.
  - assert (Hd : k * price * (1 + commission_pct s')
                 == k * (price * (1 + commission_pct s)))
      by (rewrite Hcp; ring).
    rewrite (Qeq_bool_scaled_0 _ _ Hd).
    destruct (Qeq_bool (price * (1 + commission_pct s)) 0) eqn:Ed; cbn;
      [ exact Hs | ].
    apply Qeq_bool_false in Ed.
    assert (Hq : cash s' / (k * price * (1 + commission_pct s'))
                 == cash s / (price * (1 + commission_pct s))).
    { rewrite Hcash, Hcp. field. split; [ | lra ].
      intros E. apply Ed. rewrite E. ring. }
    assert (Hn2 : trunc (cash s' / (k * price * (1 + commission_pct s')))
                  = trunc (cash s / (price * (1 + commission_pct s))))
      by (rewrite Hq; reflexivity).
    rewrite Hn2.
    set (n2 := trunc (cash s / (price * (1 + commission_pct s)))).
    destruct (n2 =? 0)%Z; [ split; [ exact I | exact Hs ] | ].
    apply buy_settle_scaled; try assumption;
      solve [ reflexivity | rewrite Hcp; ring | apply scaled_opt_map ].
  - apply buy_settle_scaled; try assumption;
      solve [ reflexivity | rewrite Hcp; ring | apply scaled_opt_map ].
Qed.

Lemma sell_scaled (tkr : string) (price price' : Q) (date : string)
    (nshares : option Z) (rsn : string) (s s' : Portfolio) :
  scaled k s s' -> price' == k * price ->
  res_scaled k (scaled_otrade k)
    (sell tkr price date nshares rsn s)
    (sell tkr price' date nshares rsn s').
Proof.
  intros Hs Hprice.
  pose proof Hs as (Hic & Hcash & Hcp & Hmn & Hmx & Hps & Htr & Hh).
  unfold sell, append_trade. unfold_M. cbn.
  pose proof (scaled_dget tkr _ _ Hps) as Hget.
  destruct (dget tkr (positions s)) as [p|], (dget tkr (positions s')) as [p'|];
    try contradiction; cbn; [ | split; [ exact I | exact Hs ] ].
  destruct Hget as (Hpt & Hpsh & Hpavg & Hpcur & Hpdate & Hpsl & Hptp).
  rewrite Hpsh.
  set (n := Z.min (match nshares with Some n0 => n0 | None => shares p end)
                  (shares p)).
  destruct (n =? 0)%Z; cbn; [ split; [ exact I | exact Hs ] | ].
  assert (Htrade : scaled_trade k
            {| trade_date := date; trade_ticker := tkr; action := SELL;
               trade_shares := n; trade_price := price;
               commission := inject_Z n * price * commission_pct s;
               total_cost := - (inject_Z n * price
                                - inject_Z n * price * commission_pct s);
               reason := rsn |}
            {| trade_date := date; trade_ticker := tkr; action := SELL;
               trade_shares := n; trade_price := price';
               commission := inject_Z n * price' * commission_pct s';
               total_cost := - (inject_Z n * price'
                                - inject_Z n * price' * commission_pct s');
               reason := rsn |}).
  { unfold scaled_trade. cbn.
    splits; try reflexivity; try exact Hprice; rewrite Hcp, Hprice; ring. }
  split; [ exact Htrade | ].
  unfold scaled. cbn. splits; try assumption.
  - rewrite Hcash, Hcp, Hprice. ring.
  - destruct (shares p - n =? 0)%Z.
    + apply scaled_ddel, Hps.
    + apply scaled_dset; [ | exact Hps ].
      unfold scaled_position. cbn. splits; solve [ assumption | reflexivity ].
  - apply Forall2_app; [ exact Htr | ].
    constructor; [ exact Htrade | constructor ].
Qed.

Lemma should_stop_loss_scaled (p p' : Position) :
  scaled_position k p p' -> should_stop_loss p' = should_stop_loss p.
Proof.
  intros (_ & _ & _ & Hcur & _ & Hsl & _). unfold should_stop_loss.
  destruct (stop_loss p), (stop_loss p'); cbn in Hsl; try contradiction;
    [ | reflexivity ].
  apply Qle_bool_scaled; assumption.
Qed.

Lemma should_take_profit_scaled (p p' : Position) :
  scaled_position k p p' -> should_take_profit p' = should_take_profit p.
Proof.
  intros (_ & _ & _ & Hcur & _ & _ & Htp). unfold should_take_profit, Qgeb.
  destruct (take_profit p), (take_profit p'); cbn in Htp; try contradiction;
    [ | reflexivity ].
  apply Qle_bool_scaled; assumption.
Qed.

Lemma tickers_to_close_scaled (ps ps' : dict Position) :
  Forall2 (scaled_entry k) ps ps' ->
  Forall2 (scaled_close k) (tickers_to_close ps) (tickers_to_close ps').
Proof.
  induction 1 as [|[t p] [t' p'] ps ps' [Ht Hp] _ IH]; cbn; [ constructor | ].
  cbn in Ht, Hp. subst t'.
  rewrite (should_stop_loss_scaled _ _ Hp), (should_take_profit_scaled _ _ Hp).
  pose proof Hp as (_ & _ & _ & Hcur & _).
  destruct (should_stop_loss p);
    [ constructor; [ repeat split; assumption | exact IH ] | ].
  destruct (should_take_profit p);
    [ constructor; [ repeat split; assumption | exact IH ] | exact IH ].
Qed.

Lemma execute_closes_scaled (date : string) (l l' : list (string * Q * string))
    (acc acc' : list Trade) (s s' : Portfolio) :
  Forall2 (scaled_close k) l l' ->
  Forall2 (scaled_trade k) acc acc' ->
  scaled k s s' ->
  res_scaled k (Forall2 (scaled_trade k))
    (execute_closes date l acc s) (execute_closes date l' acc' s').
Proof.
  intros Hl. revert acc acc' s s'.
  induction Hl as [|[[t price] rsn] [[t' price'] rsn'] l l' (Ht & Hp & Hr) _ IH];
    intros acc acc' s s' Hacc Hs; cbn [execute_closes].
  - unfold_M. split; assumption.
  - cbn in Ht, Hp, Hr. subst t' rsn'. unfold_M.
    pose proof (sell_scaled t price price' date None rsn s s' Hs Hp) as Hsell.
    destruct (sell t price date None rsn s) as [r s1 | e s1],
             (sell t price' date None rsn s') as [r' s1' | e' s1'];
      cbn in Hsell; try contradiction; [ | exact Hsell ].
    destruct Hsell as [Hr Hs1]. apply IH; [ | exact Hs1 ].
    destruct r as [tr|], r' as [tr'|]; cbn in Hr; try contradiction;
      [ | exact Hacc ].
    apply Forall2_app; [ exact Hacc | constructor; [ exact Hr | constructor ] ].
Qed.

Lemma check_stops_scaled (date : string) (s s' : Portfolio) :
  scaled k s s' ->
  res_scaled k (Forall2 (scaled_trade k))
    (check_stops date s) (check_stops date s').
Proof.
  intros Hs. unfold check_stops. unfold_M. cbn.
  apply execute_closes_scaled; [ | constructor | exact Hs ].
  apply tickers_to_close_scaled, Hs.
Qed.

Lemma update_prices_scaled (prices : gmap string Q) (s s' : Portfolio) :
  scaled k s s' ->
  res_scaled k (fun _ _ => True)
    (update_prices prices s) (update_prices (Qmult k <$> prices) s').
Proof.
  intros Hs.
  pose proof Hs as (Hic & Hcash & Hcp & Hmn & Hmx & Hps & Htr & Hh).
  unfold update_prices. unfold_M. split; [ exact I | ].
  unfold scaled. cbn. splits; try assumption.
  clear -Hps. induction Hps as [|[t p] [t' p'] ps ps' [Ht Hp] _ IH]; cbn;
    constructor; [ | exact IH ].
  cbn in Ht, Hp. subst t'. rewrite lookup_fmap.
  destruct (prices !! t) as [v|]; cbn; [ | split; [ reflexivity | exact Hp ] ].
  destruct Hp as (? & ? & ? & ? & ? & ? & ?).
  split; [ reflexivity | ]. unfold scaled_position. cbn.
  splits; solve [ assumption | reflexivity ].
Qed.

Lemma apply_selic_scaled (date : string) (rate : Q) (s s' : Portfolio) :
  scaled k s s' ->
  res_scaled k (fun _ _ => True)
    (apply_selic_to_cash date rate s) (apply_selic_to_cash date rate s').
Proof.
  intros Hs.
  pose proof Hs as (Hic & Hcash & Hcp & Hmn & Hmx & Hps & Htr & Hh).
  unfold apply_selic_to_cash, append_trade. unfold_M. cbn.
  assert (E : Qgtb (cash s') 0 = Qgtb (cash s) 0)
    by (apply Qgtb_scaled; [ exact Hcash | ring ]).
  rewrite E. destruct (Qgtb (cash s) 0); cbn; [ | split; [ exact I | exact Hs ] ].
  split; [ exact I | ]. unfold scaled. cbn. splits; try assumption.
  - rewrite Hcash. ring.
  - apply Forall2_app; [ exact Htr | ].
    constructor; [ | constructor ].
    unfold scaled_trade. cbn. splits; try reflexivity; try ring.
    rewrite Hcash. ring.
Qed.

Lemma Forall2_last_scaled_row (h h' : list HistoryRow) :
  Forall2 (scaled_row k) h h' ->
  match last h, last h' with
  | Some r, Some r' => scaled_row k r r'
  | None, None => True
  | _, _ => False
  end.
Proof.
  induction 1 as [|r r' h h' Hr Hh IH]; [ exact I | ].
  destruct Hh as [|r2 r2' h h' Hr2 Hh]; [ exact Hr | exact IH ].
Qed.

Lemma record_state_scaled (date : string) (s s' : Portfolio) :
  scaled k s s' ->
  res_scaled k (fun _ _ => True) (record_state date s) (record_state date s').
Proof.
  intros Hs. pose proof (scaled_total_value _ _ Hs) as Htot.
  pose proof (scaled_positions_value _ _ Hs) as Hpv.
  pose proof Hs as (Hic & Hcash & Hcp & Hmn & Hmx & Hps & Htr & Hh).
  unfold record_state. unfold_M. cbn. split; [ exact I | ].
  unfold scaled. cbn. splits; try assumption.
  apply Forall2_app; [ exact Hh | ].
  constructor; [ | constructor ].
  unfold scaled_row. cbn. splits; try assumption; try reflexivity.
  - unfold num_positions. symmetry. eapply Forall2_length, Hps.
  - pose proof (Forall2_last_scaled_row _ _ Hh) as Hlast.
    destruct (last (history s)) as [r|], (last (history s')) as [r'|];
      try contradiction; [ | reflexivity ].
    destruct Hlast as (_ & Hv & _).
    assert (E : Qgtb (h_total_value r') 0 = Qgtb (h_total_value r) 0)
      by (apply Qgtb_scaled; [ exact Hv | ring ]).
    rewrite E. destruct (Qgtb (h_total_value r) 0) eqn:Eg; [ | reflexivity ].
    apply Qgtb_true in Eg. rewrite Htot, Hv. field. lra.
Qed.

Lemma step_scaled (o : op) (s s' : Portfolio) :
  scaled k s s' -> buy_shares_agree k o s s' ->
  res_scaled k (fun _ _ => True) (step o s) (step (scale_op k o) s').
Proof.
  intros Hs Hagree.
  destruct o as [tkr price target_pct date sl tp rsn | tkr price date nshares rsn
                 | date | prices | date rate | date];
    cbn [step scale_op]; unfold_M.
  - pose proof (buy_scaled tkr price target_pct date sl tp rsn s s' Hs Hagree)
      as H.
    destruct (buy _ _ _ _ _ _ _ s), (buy _ _ _ _ _ _ _ s'); cbn in H |- *;
      try contradiction; [ split; [ exact I | apply H ] | exact H ].
  - pose proof (sell_scaled tkr price (k * price) date nshares rsn s s' Hs
                  (Qeq_refl _)) as H.
    destruct (sell _ _ _ _ _ s), (sell _ _ _ _ _ s'); cbn in H |- *;
      try contradiction; [ split; [ exact I | apply H ] | exact H ].
  - pose proof (check_stops_scaled date s s' Hs) as H.
    destruct (check_stops date s), (check_stops date s'); cbn in H |- *;
      try contradiction; [ split; [ exact I | apply H ] | exact H ].
  - apply update_prices_scaled, Hs.
  - apply apply_selic_scaled, Hs.
  - apply record_state_scaled, Hs.
Qed.

Lemma run_scaled (ops : list op) (s s' : Portfolio) :
  scaled k s s' -> buys_agree k ops s s' ->
  res_scaled k (fun _ _ => True) (run ops s) (run (map (scale_op k) ops) s').
Proof.
  revert s s'. induction ops as [|o ops IH]; intros s s' Hs Hagree;
    cbn [run map].
  - unfold_M. split; [ exact I | exact Hs ].
  - destruct Hagree as [Ho Hrest]. unfold_M.
    pose proof (step_scaled o s s' Hs Ho) as H.
    destruct (step o s) as [[] s1 | e s1] eqn:E1,
             (step (scale_op k o) s') as [[] s1' | e' s1'] eqn:E1';
      cbn in H; try contradiction; [ | exact H ].
    apply IH; [ apply H | apply Hrest; reflexivity ].
Qed.

Lemma exposure_scaled (s s' : Portfolio) :
  scaled k s s' -> exposure s' == exposure s.
Proof.
  intros Hs. pose proof (scaled_total_value _ _ Hs) as Htot.
  pose proof (scaled_positions_value _ _ Hs) as Hpv.
  unfold exposure.
  assert (E : Qgtb (total_value s') 0 = Qgtb (total_value s) 0)
    by (apply Qgtb_scaled; [ exact Htot | ring ]).
  rewrite E. destruct (Qgtb (total_value s) 0) eqn:Eg; [ | reflexivity ].
  apply Qgtb_true in Eg. rewrite Htot, Hpv. field. lra.
Qed.

Lemma summary_scaled (s s' : Portfolio) :
  scaled k s s' -> summary_pct_agree (summary s) (summary s').
Proof.
  intros Hs. pose proof (scaled_total_value _ _ Hs) as Htot.
  pose proof (exposure_scaled _ _ Hs) as Hexp.
  pose proof Hs as (Hic & _).
  unfold summary, pdiv. unfold_M. cbn.
  rewrite (Qeq_bool_scaled_0 _ _ Hic).
  destruct (Qeq_bool (initial_capital s) 0) eqn:E; cbn; [ exact I | ].
  apply Qeq_bool_false in E. split; [ | exact Hexp ].
  rewrite Htot, Hic. field. split; [ exact E | lra ].
Qed.

End ScalingFacts.

(** ** Metrics of equal return series *)

Lemma fold_left_Qplus_compat (l l' : list Q) (a a' : Q) :
  Forall2 Qeq l l' -> a == a' ->
  fold_left Qplus l a == fold_left Qplus l' a'.
Proof.
  intros H. revert a a'. induction H as [|x x' l l' Hx _ IH]; intros a a' Ha;
    cbn; [ exact Ha | ].
  apply IH. rewrite Ha, Hx. reflexivity.
Qed.

Lemma Qsum_compat (l l' : list Q) : Forall2 Qeq l l' -> Qsum l == Qsum l'.
Proof. intros H. apply fold_left_Qplus_compat; [ exact H | reflexivity ]. Qed.

Lemma opt_Qeq_refl (a : option Q) : opt_Qeq a a.
Proof. destruct a; cbn; [ reflexivity | exact I ]. Qed.

Lemma opt_Qeq_sym (a a' : option Q) : opt_Qeq a a' -> opt_Qeq a' a.
Proof. destruct a, a'; cbn; try tauto. intros H. symmetry. exact H. Qed.

Lemma mean_compat (l l' : list Q) :
  Forall2 Qeq l l' -> opt_Qeq (mean l') (mean l).
Proof.
  intros H. pose proof (Forall2_length _ _ _ H) as Hlen.
  pose proof (Qsum_compat _ _ H) as Hsum.
  unfold mean. destruct H; [ exact I | ].
  cbn [opt_Qeq]. rewrite Hsum, Hlen. reflexivity.
Qed.

Lemma map_sqdev_compat (l l' : list Q) (mu mu' : Q) :
  Forall2 Qeq l l' -> mu == mu' ->
  Forall2 Qeq (map (fun x => (x - mu) * (x - mu)) l)
              (map (fun x => (x - mu') * (x - mu')) l').
Proof.
  intros H Hmu. induction H as [|x x' l l' Hx _ IH]; cbn; constructor;
    [ rewrite Hx, Hmu; reflexivity | exact IH ].
Qed.

Lemma sample_variance_compat (l l' : list Q) :
  Forall2 Qeq l l' -> opt_Qeq (sample_variance l') (sample_variance l).
Proof.
  intros H. pose proof (Forall2_length _ _ _ H) as Hlen.
  pose proof (mean_compat _ _ H) as Hmean.
  unfold sample_variance.
  destruct H as [|x x' l l' Hx H]; [ exact I | ].
  destruct H as [|y y' l l' Hy H]; [ exact I | ].
  set (L := x :: y :: l) in *. set (L' := x' :: y' :: l') in *.
  assert (HL : Forall2 Qeq L L') by (repeat constructor; assumption).
  destruct (mean L) as [mu|], (mean L') as [mu'|]; cbn in Hmean;
    try contradiction; [ | exact I ].
  cbn [opt_Qeq].
  rewrite (Qsum_compat _ _ (map_sqdev_compat L L' mu mu' HL Hmean)), Hlen.
  reflexivity.
Qed.

Lemma zip_with_Qminus_compat (l l' c : list Q) :
  Forall2 Qeq l l' ->
  Forall2 Qeq (zip_with Qminus l c) (zip_with Qminus l' c).
Proof.
  intros H. revert c. induction H as [|x x' l l' Hx _ IH]; intros [|y c]; cbn;
    constructor; [ rewrite Hx; reflexivity | apply IH ].
Qed.

Lemma map_Qminus_compat (l l' : list Q) (d d' : Q) :
  Forall2 Qeq l l' -> d == d' ->
  Forall2 Qeq (map (fun r => r - d) l) (map (fun r => r - d') l').
Proof.
  intros H Hd. induction H as [|x x' l l' Hx _ IH]; cbn; constructor;
    [ rewrite Hx, Hd; reflexivity | exact IH ].
Qed.

Lemma cumprod_from_compat (l l' : list Q) (a a' : Q) :
  Forall2 Qeq l l' -> a == a' ->
  Forall2 Qeq (cumprod_from a l) (cumprod_from a' l').
Proof.
  intros H. revert a a'. induction H as [|x x' l l' Hx _ IH]; intros a a' Ha;
    cbn; constructor; [ | apply IH ]; rewrite Ha, Hx; reflexivity.
Qed.

Lemma cumprod_compat (l l' : list Q) :
  Forall2 Qeq l l' -> Forall2 Qeq (cumprod l) (cumprod l').
Proof.
  destruct 1 as [|x x' l l' Hx H]; cbn; constructor;
    [ exact Hx | apply cumprod_from_compat; assumption ].
Qed.

Lemma expanding_max_from_compat (l l' : list Q) (a a' : Q) :
  Forall2 Qeq l l' -> a == a' ->
  Forall2 Qeq (expanding_max_from a l) (expanding_max_from a' l').
Proof.
  intros H. revert a a'. induction H as [|x x' l l' Hx _ IH]; intros a a' Ha;
    cbn; constructor; [ | apply IH ]; apply Qmax_compat; assumption.
Qed.

Lemma expanding_max_compat (l l' : list Q) :
  Forall2 Qeq l l' -> Forall2 Qeq (expanding_max l) (expanding_max l').
Proof.
  destruct 1 as [|x x' l l' Hx H]; cbn; constructor;
    [ exact Hx | apply expanding_max_from_compat; assumption ].
Qed.

Lemma drawdown_series_compat (cs cs' ms ms' : list Q) :
  Forall2 Qeq cs cs' -> Forall2 Qeq ms ms' ->
  Forall2 Qeq (omap id (drawdown_series cs ms))
              (omap id (drawdown_series cs' ms')).
Proof.
  intros Hc. revert ms ms'.
  induction Hc as [|c c' cs cs' Hc _ IH]; intros ms ms' Hm; cbn.
  - constructor.
  - destruct Hm as [|m m' ms ms' Hm Hms]; [ constructor | ].
    unfold np_div. rewrite <- (Qeqb_comp m m' Hm 0 0 (Qeq_refl 0)).
    specialize (IH ms ms' Hms).
    destruct (Qeq_bool m 0); cbn; [ exact IH | ].
    constructor; [ rewrite Hc, Hm; reflexivity | exact IH ].
Qed.

Lemma Qmin_compat (a a' b b' : Q) : a == a' -> b == b' -> Qmin a b == Qmin a' b'.
Proof. intros Ha Hb. rewrite Ha, Hb. reflexivity. Qed.

Lemma fold_left_Qmin_compat (l l' : list Q) (a a' : Q) :
  Forall2 Qeq l l' -> a == a' ->
  fold_left Qmin l a == fold_left Qmin l' a'.
Proof.
  intros H. revert a a'. induction H as [|x x' l l' Hx _ IH]; intros a a' Ha;
    cbn; [ exact Ha | ].
  apply IH, Qmin_compat; assumption.
Qed.

Lemma max_drawdown_compat (l l' : list Q) :
  Forall2 Qeq l l' -> opt_Qeq (max_drawdown l') (max_drawdown l).
Proof.
  intros H. unfold max_drawdown, min_skipna.
  assert (Hx : Forall2 Qeq (map (fun r => 1 + r) l) (map (fun r => 1 + r) l')).
  { induction H as [|x x' l l' Hx _ IH]; cbn; constructor;
      [ rewrite Hx; reflexivity | exact IH ]. }
  pose proof (cumprod_compat _ _ Hx) as Hc.
  pose proof (drawdown_series_compat _ _ _ _ Hc (expanding_max_compat _ _ Hc))
    as Hd.
  destruct Hd as [|d d' ds ds' Hd0 Hd]; cbn; [ exact I | ].
  rewrite (fold_left_Qmin_compat _ _ _ _ Hd Hd0). reflexivity.
Qed.

Section MetricsFacts.
Variable fsqrt : Q -> Q.
Variable fpow : Q -> Q -> option Q.
Hypothesis fsqrt_compat : forall a a', a == a' -> fsqrt a == fsqrt a'.
Hypothesis fpow_compat :
  forall a a' b b', a == a' -> b == b' -> opt_Qeq (fpow a' b') (fpow a b).

Lemma std_compat (l l' : list Q) :
  Forall2 Qeq l l' -> opt_Qeq (std fsqrt l') (std fsqrt l).
Proof.
  intros H. pose proof (sample_variance_compat _ _ H) as Hv. unfold std.
  destruct (sample_variance l), (sample_variance l'); cbn in Hv |- *;
    try contradiction; [ | exact I ].
  apply fsqrt_compat, Hv.
Qed.

Lemma sharpe_of_compat (l l' : list Q) :
  Forall2 Qeq l l' -> sharpe_of fsqrt l == sharpe_of fsqrt l'.
Proof.
  intros H. pose proof (std_compat _ _ H) as Hsd.
  pose proof (mean_compat _ _ H) as Hmu. unfold sharpe_of.
  destruct (std fsqrt l) as [sd|], (std fsqrt l') as [sd'|]; cbn in Hsd;
    try contradiction; [ | reflexivity ].
  destruct (mean l) as [mu|], (mean l') as [mu'|]; cbn in Hmu;
    try contradiction; [ | reflexivity ].
  rewrite <- (Qgtb_comp sd sd' Hsd 0 0 (Qeq_refl 0)).
  destruct (Qgtb sd 0); [ rewrite Hsd, Hmu | ]; reflexivity.
Qed.

Lemma metrics_returns_scaled (k : Q) (h h' : list HistoryRow) :
  Forall2 (scaled_row k) h h' ->
  Forall2 Qeq (metrics_returns h) (metrics_returns h').
Proof.
  intros H. unfold metrics_returns.
  destruct H as [|r r' h h' _ H]; cbn; [ constructor | ].
  induction H as [|x x' h h' (_ & _ & _ & _ & _ & Hx) _ IH]; cbn; constructor;
    [ rewrite Hx; reflexivity | exact IH ].
Qed.

Lemma calculate_metrics_scaled (k : Q) (h h' : list HistoryRow)
    (cdi_series : option (list Q)) (risk_free_rate : Q) :
  0 < k ->
  Forall2 (scaled_row k) h h' ->
  metrics_agree (calculate_metrics fsqrt fpow h cdi_series risk_free_rate)
                (calculate_metrics fsqrt fpow h' cdi_series risk_free_rate).
Proof.
  intros Hk H. pose proof (Forall2_length _ _ _ H) as Hlen.
  pose proof (metrics_returns_scaled k _ _ H) as Hret.
  pose proof (Forall2_last_scaled_row k _ _ H) as Hlast.
  unfold calculate_metrics. rewrite <- Hlen.
  destruct (length h <? 2)%nat; [ exact I | ].
  destruct Hret as [|x x' rs rs' Hx Hrs]; [ exact I | ].
  assert (Hret : Forall2 Qeq (x :: rs) (x' :: rs')) by (constructor; assumption).
  destruct H as [|r0 r0' h h' Hr0 H]; [ exact I | ].
  cbn [head].
  destruct (last (r0 :: h)) as [rl|], (last (r0' :: h')) as [rl'|];
    try contradiction; [ | exact I ].
  destruct Hr0 as (_ & Hv0 & _), Hlast as (_ & Hvl & _).
  cbn zeta.
  assert (Hratio : opt_Qeq (np_div (h_total_value rl) (h_total_value r0))
                           (np_div (h_total_value rl') (h_total_value r0'))).
  { unfold np_div. rewrite (Qeq_bool_scaled_0 k Hk _ _ Hv0).
    destruct (Qeq_bool (h_total_value r0) 0) eqn:E; [ exact I | ].
    apply Qeq_bool_false in E. cbn. rewrite Hvl, Hv0. field.
    split; [ exact E | lra ]. }
  set (years := inject_Z (Z.of_nat (length (r0 :: h))) / 252).
  assert (Hann : opt_Qeq
            (if Qgtb years 0
             then match np_div (h_total_value rl) (h_total_value r0) with
                  | Some r => (fun p => (p - 1) * 100) <$> fpow r (1 / years)
                  | None => None
                  end
             else Some 0)
            (if Qgtb years 0
             then match np_div (h_total_value rl') (h_total_value r0') with
                  | Some r => (fun p => (p - 1) * 100) <$> fpow r (1 / years)
                  | None => None
                  end
             else Some 0)).
  { destruct (Qgtb years 0); [ | reflexivity ].
    destruct (np_div (h_total_value rl) (h_total_value r0)) as [q|],
             (np_div (h_total_value rl') (h_total_value r0')) as [q'|];
      cbn in Hratio; try contradiction; [ | exact I ].
    pose proof (fpow_compat q q' (1 / years) (1 / years)
                  ltac:(symmetry; exact Hratio) (Qeq_refl _)) as Hp.
    destruct (fpow q (1 / years)), (fpow q' (1 / years)); cbn in Hp |- *;
      try contradiction; [ rewrite Hp; reflexivity | exact I ]. }
  pose proof (opt_Qeq_sym _ _ (max_drawdown_compat _ _ Hret)) as Hdd.
  cbn [metrics_agree m_total_return_pct m_annualized_return_pct
       m_sharpe_ratio m_max_drawdown_pct m_calmar_ratio m_num_days].
  splits.
  - destruct (np_div (h_total_value rl) (h_total_value r0)),
             (np_div (h_total_value rl') (h_total_value r0'));
      cbn in Hratio |- *; try contradiction; [ rewrite Hratio; reflexivity | exact I ].
  - exact Hann.
  - destruct cdi_series as [cdi|].
    + cbn [opt_Qeq]. symmetry.
      apply sharpe_of_compat, zip_with_Qminus_compat, Hret.
    + destruct (fpow (1 + risk_free_rate) (1 / 252)) as [p|];
        [ | exact I ].
      change (sharpe_of fsqrt (map (fun r => r - (p - 1)) (x' :: rs'))
              == sharpe_of fsqrt (map (fun r => r - (p - 1)) (x :: rs))).
      symmetry. apply sharpe_of_compat, map_Qminus_compat;
        [ exact Hret | reflexivity ].
  - exact Hdd.
  - destruct (max_drawdown (x :: rs)) as [dd|],
             (max_drawdown (x' :: rs')) as [dd'|];
      cbn in Hdd; try contradiction; [ | exact I ].
    rewrite (Qeqb_comp dd' dd Hdd 0 0 (Qeq_refl 0)).
    destruct (Qeq_bool dd 0); [ reflexivity | ].
    match type of Hann with
    | opt_Qeq ?a ?a' => destruct a as [an|], a' as [an'|]
    end; cbn [opt_Qeq] in Hann; try contradiction; [ | exact I ].
    change (Qabs (an' / dd') == Qabs (an / dd)).
    rewrite Hann, Hdd. reflexivity.
  - reflexivity.
Qed.

End MetricsFacts.

(** ** Scaling prices and capital *)

Lemma buys_agree_no_buy (k : Q) (ops : list op) (s s' : Portfolio) :
  forallb (fun o => negb (is_buy o)) ops = true -> buys_agree k ops s s'.
Proof.
  revert s s'. induction ops as [|o ops IH]; intros s s' H; cbn; [ exact I | ].
  cbn in H. apply andb_true_iff in H as [Ho H].
  split; [ destruct o; solve [ exact I | discriminate ] | ].
  intros s1 s1' _ _. apply IH, H.
Qed.

Example example_run_returns :
  exists s1,
    run example_run (Portfolio_default 1000) = Ok tt s1
    /\ length (history s1) = 3%nat
    /\ map action (trades s1) = [BUY; INTEREST; SELL]
    /\ positions s1 = [].
Proof. eexists. splits; vm_compute; reflexivity. Qed.

Lemma buys_agree_cons (k : Q) (o : op) (ops : list op) (s s' : Portfolio) :
  buy_shares_agree k o s s' ->
  (forall s1 s1', buys_agree k ops s1 s1') ->
  buys_agree k (o :: ops) s s'.
Proof. intros Ho H. split; [ exact Ho | intros s1 s1' _ _; apply H ]. Qed.

(** [can_buy] truncates the affordable value to an integer before [buy]
    divides it by the price.  With capital 100 and price 3 a target of 8
    percent buys 2 shares; with both divided by ten (capital 10, price
    0.3) the affordable value 0.8 truncates to 0 and nothing is bought:
    total return and exposure differ. *)
Lemma scaling_counterexample :
  exists s1 s1' a a',
    scaled (1 # 10) (Portfolio_default 100) (Portfolio_default ((1 # 10) * 100))
    /\ run [OpBuy "PETR4.SA" 3 8 "2024-01-02" None None "SIGNAL"]
           (Portfolio_default 100) = Ok tt s1
    /\ run (map (scale_op (1 # 10))
                [OpBuy "PETR4.SA" 3 8 "2024-01-02" None None "SIGNAL"])
           (Portfolio_default ((1 # 10) * 100)) = Ok tt s1'
    /\ summary s1 = Ok a s1
    /\ summary s1' = Ok a' s1'
    /\ ~ sm_total_return_pct a' == sm_total_return_pct a
    /\ ~ sm_exposure_pct a' == sm_exposure_pct a.
Proof.
  eexists _, _, _, _.
  split.
  { unfold scaled. cbn. splits; solve [ reflexivity | constructor ]. }
  split; [ vm_compute; reflexivity | ].
  split; [ vm_compute; reflexivity | ].
  split; [ vm_compute; reflexivity | ].
  split; [ vm_compute; reflexivity | ].
  split; vm_compute; congruence.
Qed.

(** C9 (amended).  For every positive constant [k], running the same
    sequence of operations with all prices and all amounts of the
    starting portfolio multiplied by [k] ends alike (normally or with an
    exception) and yields the same percentage outputs ([total_return_pct]
    and [exposure_pct] of the summary; total and annualized return,
    Sharpe, maximum drawdown and Calmar of the metrics) as the unscaled
    run, provided that at every buy the share count computed from
    [can_buy]'s integer-truncated value is the same in both runs.  Square
    root and power are any functions that respect equality. *)
Theorem scaling_preserves_percentages
    (k : Q) (fsqrt : Q -> Q) (fpow : Q -> Q -> option Q)
    (ops : list op) (s s' : Portfolio)
    (cdi_series : option (list Q)) (risk_free_rate : Q) :
  0 < k ->
  (forall a a', a == a' -> fsqrt a == fsqrt a') ->
  (forall a a' b b', a == a' -> b == b' -> opt_Qeq (fpow a' b') (fpow a b)) ->
  scaled k s s' ->
  buys_agree k ops s s' ->
  match run ops s, run (map (scale_op k) ops) s' with
  | Ok _ s1, Ok _ s1' =>
      summary_pct_agree (summary s1) (summary s1')
      /\ metrics_agree
           (calculate_metrics fsqrt fpow (history s1) cdi_series risk_free_rate)
           (calculate_metrics fsqrt fpow (history s1') cdi_series risk_free_rate)
      /\ scaled k s1 s1'
  | Raise _ _, Raise _ _ => True
  | _, _ => False
  end.
Proof.
  intros Hk Hsqrt Hpow Hs Hagree.
  pose proof (run_scaled k Hk ops s s' Hs Hagree) as H.
  destruct (run ops s) as [[] s1 | e s1],
           (run (map (scale_op k) ops) s') as [[] s1' | e' s1'];
    cbn in H; try contradiction; [ | exact I ].
  destruct H as [_ Hs1]. splits.
  - apply (summary_scaled k Hk), Hs1.
  - apply (calculate_metrics_scaled fsqrt fpow Hsqrt Hpow k); [ exact Hk | ].
    apply Hs1.
  - exact Hs1.
Qed.

Lemma scaling_preserves_percentages_witness :
  match run example_run (Portfolio_default 1000),
        run (map (scale_op 2) example_run) (Portfolio_default 2000) with
  | Ok _ s1, Ok _ s1' =>
      summary_pct_agree (summary s1) (summary s1')
      /\ metrics_agree
           (calculate_metrics (fun x => x) (fun a _ => Some a)
                              (history s1) None (135 # 1000))
           (calculate_metrics (fun x => x) (fun a _ => Some a)
                              (history s1') None (135 # 1000))
      /\ scaled 2 s1 s1'
  | Raise _ _, Raise _ _ => True
  | _, _ => False
  end.
Proof.
  apply scaling_preserves_percentages.
  - reflexivity.
  - intros a a' H. exact H.
  - intros a a' b b' H _. exact H.
  - unfold scaled. cbn. splits; solve [ reflexivity | constructor ].
  - unfold example_run. apply buys_agree_cons.
    + cbn. intros v v' m m' H H'.
      vm_compute in H. vm_compute in H'.
      injection H as <- _. injection H' as <- _. reflexivity.
    + intros s1 s1'. apply buys_agree_no_buy. reflexivity.
Defined.

(** * Further properties of the ledger *)

(** ** Calls that make no trade *)

(** X1.  A buy or a sell that returns no trade has had no effect: the
    portfolio is exactly the one it was called on. *)
Theorem no_trade_no_effect :
  (forall tkr price target_pct date sl tp rsn (s s' : Portfolio),
      buy tkr price target_pct date sl tp rsn s = Ok None s' -> s' = s)
  /\
  (forall tkr price date nshares rsn (s s' : Portfolio),
      sell tkr price date nshares rsn s = Ok None s' -> s' = s).
Proof.
  split.
  - intros tkr price target_pct date sl tp rsn s s' H.
    destruct (buy_outcome tkr price target_pct date sl tp rsn s)
      as [Hn | [[He _] | (n & _ & _ & Hs & _)]]; [ congruence | congruence | ].
    rewrite Hs in H.
    destruct (buy_settle_spec tkr price date sl tp rsn n
                (inject_Z n * price * commission_pct s)
                (inject_Z n * price + inject_Z n * price * commission_pct s) s)
      as [(s1 & p & Hb & _) | (s1 & p & Hb & _)]; congruence.
  - intros tkr price date nshares rsn s s' H.
    pose proof (sell_outcome tkr price date nshares rsn s) as Ho.
    destruct (dget tkr (positions s)) as [pos|]; [ | congruence ].
    cbn zeta in Ho. destruct (Z.min _ _ =? 0)%Z; [ congruence | ].
    destruct Ho as (s1 & Hsell & _). congruence.
Qed.

Lemma no_trade_no_effect_witness :
  (exists s',
      buy "PETR4.SA" 10 (1 # 2) "2024-01-02" None None "SIGNAL"
          example_holding = Ok None s'
      /\ s' = example_holding)
  /\ (exists s',
         sell "VALE3.SA" 10 "2024-01-02" None "SIGNAL" example_holding
           = Ok None s'
         /\ s' = example_holding).
Proof.
  split; eexists; (split; [ vm_compute; reflexivity | ]).
  - refine (proj1 no_trade_no_effect
              "PETR4.SA" 10 (1 # 2) "2024-01-02" None None "SIGNAL"
              example_holding _ _).
    vm_compute. reflexivity.
  - refine (proj2 no_trade_no_effect
              "VALE3.SA" 10 "2024-01-02" None "SIGNAL" example_holding _ _).
    vm_compute. reflexivity.
Defined.

(** ** Selling never oversells and never fails *)

(** X2.  [sell] never raises.  When it trades, the instrument was held, the
    number of shares sold is the requested number capped at the holding,
    cash receives the proceeds net of commission, and the position is
    either removed (everything sold) or kept with the remaining shares
    and its average cost, mark, entry date and thresholds untouched. *)
Theorem sell_caps_at_holding (tkr : string) (price : Q) (date : string)
    (nshares : option Z) (rsn : string) (s : Portfolio) :
  (exists r s', sell tkr price date nshares rsn s = Ok r s')
  /\
  (forall tr s',
      sell tkr price date nshares rsn s = Ok (Some tr) s' ->
      exists pos,
        dget tkr (positions s) = Some pos
        /\ trade_shares tr =
           Z.min (match nshares with Some n => n | None => shares pos end)
                 (shares pos)
        /\ (trade_shares tr <= shares pos)%Z
        /\ cash s' ==
           cash s + inject_Z (trade_shares tr) * price * (1 - commission_pct s)
        /\ (trade_shares tr = shares pos ->
            positions s' = ddel tkr (positions s))
        /\ (trade_shares tr <> shares pos ->
            exists pos',
              dget tkr (positions s') = Some pos'
              /\ shares pos' = (shares pos - trade_shares tr)%Z
              /\ avg_price pos' = avg_price pos
              /\ current_price pos' = current_price pos
              /\ entry_date pos' = entry_date pos
              /\ stop_loss pos' = stop_loss pos
              /\ take_profit pos' = take_profit pos
              /\ length (positions s') = length (positions s))).
Proof.
  pose proof (sell_outcome tkr price date nshares rsn s) as Ho.
  destruct (dget tkr (positions s)) as [pos|] eqn:Hget.
  2: { split; [ eauto | intros tr s' H; congruence ]. }
  cbn zeta in Ho.
  destruct (Z.min _ _ =? 0)%Z eqn:Hz.
  { split; [ eauto | intros tr s' H; congruence ]. }
  destruct Ho as (s1 & Hsell & Hc & _ & _ & _ & _ & _ & _ & Hpos).
  split; [ eauto | ].
  intros tr s' H. rewrite Hsell in H. injection H as <- <-.
  exists pos. cbn [trade_shares].
  splits; [ reflexivity | reflexivity | lia | rewrite Hc; ring | | ].
  - intros E. rewrite Hpos, E, Z.sub_diag. reflexivity.
  - intros E. rewrite Hpos.
    assert (Hnz : (shares pos - Z.min (match nshares with
                                         | Some n => n
                                         | None => shares pos
                                         end) (shares pos) =? 0)%Z = false)
      by (apply Z.eqb_neq; lia).
    rewrite Hnz. eexists. rewrite dget_dset_eq.
    splits; try reflexivity.
    clear -Hget. revert Hget.
    induction (positions s) as [|[k v] d IH]; cbn; [ discriminate | ].
    destruct (String.eqb tkr k); [ reflexivity | ].
    intros H. cbn. rewrite IH by exact H. reflexivity.
Qed.

Lemma sell_caps_at_holding_witness :
  exists tr s',
    sell "PETR4.SA" 12 "2024-01-03" (Some 25%Z) "SIGNAL" example_holding
      = Ok (Some tr) s'
    /\ trade_shares tr = 10%Z
    /\ positions s' = [].
Proof.
  eexists _, _. split; [ vm_compute; reflexivity | ].
  destruct (proj2 (sell_caps_at_holding "PETR4.SA" 12 "2024-01-03"
                     (Some 25%Z) "SIGNAL" example_holding) _ _
              ltac:(vm_compute; reflexivity))
    as (pos & Hget & Hn & _ & _ & Hdel & _).
  vm_compute in Hget. injection Hget as <-.
  split; [ exact Hn | ]. apply Hdel. exact Hn.
Defined.

(** ** Opening and topping up a position *)

Lemma buy_settle_position (tkr : string) (price : Q) (date : string)
    (sl tp : option Q) (rsn : string) (n : Z) (com tc : Q)
    (s s' : Portfolio) (r : option Trade) :
  buy_settle tkr price date sl tp rsn n com tc s = Ok r s' ->
  positions s' =
  dset tkr
    match dget tkr (positions s) with
    | Some pos =>
        {| ticker := ticker pos;
           shares := shares pos + n;
           avg_price := (inject_Z (shares pos) * avg_price pos
                         + inject_Z n * price) / inject_Z (shares pos + n);
           current_price := price;
           entry_date := entry_date pos;
           stop_loss := if truthy sl then sl else stop_loss pos;
           take_profit := if truthy tp then tp else take_profit pos |}
    | None =>
        {| ticker := tkr; shares := n; avg_price := price;
           current_price := price; entry_date := date;
           stop_loss := sl; take_profit := tp |}
    end (positions s)
  /\ match dget tkr (positions s) with
     | Some pos => (shares pos + n)%Z <> 0%Z
     | None => True
     end.
Proof.
  unfold buy_settle, append_trade. unfold_M. cbn.
  destruct (dget tkr (positions s)) as [pos|]; cbn.
  - unfold pdiv. rewrite inject_Z_eq_bool_0.
    destruct (shares pos + n =? 0)%Z eqn:Hz; unfold_M; cbn; [ discriminate | ].
    intros [= <- <-]. cbn. split; [ reflexivity | apply Z.eqb_neq, Hz ].
  - intros [= <- <-]. cbn. split; [ reflexivity | exact I ].
Qed.

Lemma dset_length_present {V : Type} (k : string) (v v0 : V) (d : dict V) :
  dget k d = Some v0 -> length (dset k v d) = length d.
Proof.
  induction d as [|[k' v'] d IH]; cbn; [ discriminate | ].
  destruct (String.eqb k k'); [ reflexivity | ].
  intros H. cbn. rewrite IH by exact H. reflexivity.
Qed.

Lemma dset_fresh {V : Type} (k : string) (v : V) (d : dict V) :
  dget k d = None -> dset k v d = d ++ [(k, v)].
Proof.
  induction d as [|[k' v'] d IH]; cbn; [ reflexivity | ].
  destruct (String.eqb k k'); [ discriminate | ].
  intros H. rewrite IH by exact H. reflexivity.
Qed.

(** X3.  A buy that trades either opens a position, appended after the held
    ones with the traded shares, the price as average cost and mark and
    the given thresholds, or tops up the held position in place: the
    share counts add up, the cost basis grows by the trade value (the
    average cost is the volume-weighted one), the mark becomes the
    execution price, the entry date is kept and a threshold is replaced
    only by a given non-zero one. *)
Theorem buy_opens_or_tops_up (tkr : string) (price target_pct : Q)
    (date : string) (sl tp : option Q) (rsn : string)
    (s s' : Portfolio) (tr : Trade) :
  buy tkr price target_pct date sl tp rsn s = Ok (Some tr) s' ->
  match dget tkr (positions s) with
  | None =>
      positions s' =
      positions s ++
      [(tkr, {| ticker := tkr; shares := trade_shares tr; avg_price := price;
                current_price := price; entry_date := date;
                stop_loss := sl; take_profit := tp |})]
  | Some pos =>
      exists pos',
        dget tkr (positions s') = Some pos'
        /\ length (positions s') = length (positions s)
        /\ shares pos' = (shares pos + trade_shares tr)%Z
        /\ cost_basis pos' ==
           cost_basis pos + inject_Z (trade_shares tr) * price
        /\ current_price pos' = price
        /\ entry_date pos' = entry_date pos
        /\ stop_loss pos' = (if truthy sl then sl else stop_loss pos)
        /\ take_profit pos' = (if truthy tp then tp else take_profit pos)
  end.
Proof.
  intros H.
  destruct (buy_outcome tkr price target_pct date sl tp rsn s)
    as [Hn | [[He _] | (n & Hn0 & _ & Hs & _)]]; [ congruence | congruence | ].
  rewrite Hs in H.
  destruct (buy_settle_spec tkr price date sl tp rsn n
              (inject_Z n * price * commission_pct s)
              (inject_Z n * price + inject_Z n * price * commission_pct s) s)
    as [(s1 & p & Hb & _) | (s1 & p & Hb & _)]; [ | congruence ].
  pose proof (buy_settle_position _ _ _ _ _ _ _ _ _ _ _ _ H) as [Hpos Hnz].
  rewrite Hb in H. injection H as <- <-. cbn [trade_shares].
  destruct (dget tkr (positions s)) as [pos|] eqn:Hget.
  - eexists. rewrite Hpos, dget_dset_eq.
    splits; try reflexivity.
    + eapply dset_length_present, Hget.
    + unfold cost_basis. cbn. rewrite inject_Z_plus. field.
      rewrite <- inject_Z_plus. intros E. apply Hnz.
      apply Qeq_bool_iff in E. rewrite inject_Z_eq_bool_0 in E.
      apply Z.eqb_eq, E.
  - rewrite Hpos. apply dset_fresh, Hget.
Qed.

Lemma buy_opens_or_tops_up_witness :
  exists tr s',
    buy "PETR4.SA" 20 15 "2024-01-05" (Some 18) (Some 0) "REBALANCE"
        example_holding = Ok (Some tr) s'
    /\ exists pos',
         dget "PETR4.SA" (positions s') = Some pos'
         /\ shares pos' = (10 + trade_shares tr)%Z
         /\ cost_basis pos' == 100 + inject_Z (trade_shares tr) * 20
         /\ stop_loss pos' = Some 18
         /\ take_profit pos' = None.
Proof.
  eexists _, _. split; [ vm_compute; reflexivity | ].
  match goal with
  | |- exists pos', dget _ (positions ?s') = _
                    /\ shares pos' = (10 + trade_shares ?tr)%Z /\ _ =>
      pose proof (buy_opens_or_tops_up "PETR4.SA" 20 15 "2024-01-05"
                    (Some 18) (Some 0) "REBALANCE" example_holding s' tr
                    ltac:(vm_compute; reflexivity)) as H
  end.
  change (dget "PETR4.SA" (positions example_holding))
    with (Some example_position) in H.
  destruct H as (pos' & Hget & _ & Hsh & Hcb & _ & _ & Hsl & Htp).
  exists pos'. splits; assumption.
Defined.

(** ** What a trade does to total value *)

Lemma fold_left_Qplus_shift (l : list Q) (a : Q) :
  fold_left Qplus l a == a + fold_left Qplus l 0.
Proof.
  revert a. induction l as [|x l IH]; intros a; cbn; [ ring | ].
  rewrite (IH (a + x)), (IH (0 + x)). ring.
Qed.

Lemma Qsum_cons (x : Q) (l : list Q) : Qsum (x :: l) == x + Qsum l.
Proof. unfold Qsum. cbn. rewrite fold_left_Qplus_shift. ring. Qed.

Lemma Qsum_app (l l' : list Q) : Qsum (l ++ l') == Qsum l + Qsum l'.
Proof.
  induction l as [|x l IH]; cbn [app].
  - unfold Qsum at 2. cbn. ring.
  - rewrite !Qsum_cons, IH. ring.
Qed.

Section DictSums.
Context {V : Type}.
Variable f : V -> Q.

Lemma values_sum_dset (k : string) (v : V) (d : dict V) :
  Qsum (map f (dvalues (dset k v d)))
  == Qsum (map f (dvalues d)) - dget_value f k d + f v.
Proof.
  unfold dget_value, dvalues. induction d as [|[k' v'] d IH];
    cbn [dset dget map snd].
  - rewrite Qsum_cons. unfold Qsum. cbn. ring.
  - destruct (String.eqb k k'); cbn [map snd]; rewrite !Qsum_cons;
      [ | rewrite IH ]; ring.
Qed.

Lemma values_sum_ddel (k : string) (d : dict V) :
  Qsum (map f (dvalues (ddel k d)))
  == Qsum (map f (dvalues d)) - dget_value f k d.
Proof.
  unfold dget_value, dvalues. induction d as [|[k' v'] d IH];
    cbn [ddel dget map snd].
  - unfold Qsum. cbn. ring.
  - destruct (String.eqb k k'); cbn [map snd]; rewrite !Qsum_cons;
      [ | rewrite IH ]; ring.
Qed.
End DictSums.

(** X4.  Total value (cash plus marked positions) moves with a trade by the
    commission and by the revaluation the trade implies: a buy marks the
    whole position at the execution price, a sell converts the shares
    sold from their mark to the execution price.  So opening a position,
    or trading at the current mark, costs exactly the commission.
    Accruing interest adds exactly the interest, and only on positive
    cash. *)
Theorem total_value_accounting :
  (forall tkr price target_pct date sl tp rsn (s s' : Portfolio) (tr : Trade),
      buy tkr price target_pct date sl tp rsn s = Ok (Some tr) s' ->
      total_value s' ==
      total_value s - commission tr
      + match dget tkr (positions s) with
        | Some pos => inject_Z (shares pos) * (price - current_price pos)
        | None => 0
        end)
  /\
  (forall tkr price date nshares rsn (s s' : Portfolio) (tr : Trade),
      sell tkr price date nshares rsn s = Ok (Some tr) s' ->
      exists pos,
        dget tkr (positions s) = Some pos
        /\ total_value s' ==
           total_value s - commission tr
           + inject_Z (trade_shares tr) * (price - current_price pos))
  /\
  (forall date rate (s : Portfolio),
      exists s',
        apply_selic_to_cash date rate s = Ok tt s'
        /\ positions s' = positions s
        /\ total_value s' ==
           total_value s + (if Qgtb (cash s) 0 then cash s * rate else 0)).
Proof.
  splits.
  - intros tkr price target_pct date sl tp rsn s s' tr H.
    destruct (buy_outcome tkr price target_pct date sl tp rsn s)
      as [Hn | [[He _] | (n & Hn0 & _ & Hs & _)]]; [ congruence | congruence | ].
    rewrite Hs in H.
    destruct (buy_settle_spec tkr price date sl tp rsn n
                (inject_Z n * price * commission_pct s)
                (inject_Z n * price + inject_Z n * price * commission_pct s) s)
      as [(s1 & p & Hb & Hc & _) | (s1 & p & Hb & _)]; [ | congruence ].
    pose proof (buy_settle_position _ _ _ _ _ _ _ _ _ _ _ _ H) as [Hpos _].
    rewrite Hb in H. injection H as <- <-. cbn [commission].
    unfold total_value, positions_value. rewrite Hc, Hpos.
    rewrite (values_sum_dset market_value). unfold dget_value.
    destruct (dget tkr (positions s)) as [pos|]; unfold market_value; cbn;
      [ rewrite inject_Z_plus | ]; ring.
  - intros tkr price date nshares rsn s s' tr H.
    pose proof (sell_outcome tkr price date nshares rsn s) as Ho.
    destruct (dget tkr (positions s)) as [pos|] eqn:Hget; [ | congruence ].
    cbn zeta in Ho. destruct (Z.min _ _ =? 0)%Z; [ congruence | ].
    destruct Ho as (s1 & Hsell & Hc & _ & _ & _ & _ & _ & _ & Hpos).
    rewrite Hsell in H. injection H as <- <-.
    exists pos. split; [ reflexivity | ]. cbn [commission trade_shares].
    set (n := Z.min _ _) in *.
    unfold total_value, positions_value. rewrite Hc, Hpos.
    destruct (shares pos - n =? 0)%Z eqn:Hz.
    + apply Z.eqb_eq in Hz.
      rewrite (values_sum_ddel market_value). unfold dget_value.
      rewrite Hget. unfold market_value.
      replace (shares pos) with n by lia. ring.
    + rewrite (values_sum_dset market_value). unfold dget_value.
      rewrite Hget. unfold market_value. cbn.
      unfold Z.sub. rewrite inject_Z_plus, inject_Z_opp. ring.
  - intros date rate s.
    unfold apply_selic_to_cash, append_trade. unfold_M. cbn.
    destruct (Qgtb (cash s) 0); cbn; eexists;
      (split; [ reflexivity | ]); (split; [ reflexivity | ]);
      unfold total_value, positions_value;
      cbn [cash positions set_cash set_trades]; ring.
Qed.

Lemma total_value_accounting_witness :
  (exists tr s',
      buy "VALE3.SA" 65 8 "2024-01-02" None None "INITIAL" example_holding
        = Ok (Some tr) s'
      /\ total_value s' == total_value example_holding - commission tr)
  /\ (exists tr s',
         sell "PETR4.SA" 10 "2024-01-03" (Some 4%Z) "SIGNAL" example_holding
           = Ok (Some tr) s'
         /\ total_value s' == total_value example_holding - commission tr).
Proof.
  split.
  - eexists _, _. split; [ vm_compute; reflexivity | ].
    match goal with
    | |- total_value ?s' == _ - commission ?tr =>
        pose proof (proj1 total_value_accounting
                      "VALE3.SA" 65 8 "2024-01-02" None None "INITIAL"
                      example_holding s' tr ltac:(vm_compute; reflexivity)) as H
    end.
    change (dget "VALE3.SA" (positions example_holding)) with (@None Position) in H.
    rewrite H. ring.
  - eexists _, _. split; [ vm_compute; reflexivity | ].
    match goal with
    | |- total_value ?s' == _ - commission ?tr =>
        destruct (proj1 (proj2 total_value_accounting)
                    "PETR4.SA" 10 "2024-01-03" (Some 4%Z) "SIGNAL"
                    example_holding s' tr ltac:(vm_compute; reflexivity))
          as (pos & Hget & H)
    end.
    vm_compute in Hget. injection Hget as <-.
    rewrite H. vm_compute. reflexivity.
Defined.

(** ** Realized profit and loss *)

(** X5.  Opening a position and then selling all of it at another price
    leaves the held positions as they were and changes cash by the price
    move on the shares traded minus the commissions of both legs. *)
Theorem round_trip_realizes_price_move
    (tkr : string) (price target_pct : Q) (date : string)
    (sl tp : option Q) (rsn : string) (price' : Q) (date' rsn' : string)
    (s s1 : Portfolio) (tr : Trade) :
  dget tkr (positions s) = None ->
  buy tkr price target_pct date sl tp rsn s = Ok (Some tr) s1 ->
  exists tr' s2,
    sell tkr price' date' None rsn' s1 = Ok (Some tr') s2
    /\ trade_shares tr' = trade_shares tr
    /\ cash s2 ==
       cash s + inject_Z (trade_shares tr) * (price' - price)
       - commission tr - commission tr'
    /\ positions s2 = positions s.
Proof.
  intros Hfree H.
  destruct (buy_outcome tkr price target_pct date sl tp rsn s)
    as [Hn | [[He _] | (n & Hn0 & Hp0 & Hs & _)]]; [ congruence | congruence | ].
  rewrite Hs in H.
  destruct (buy_settle_spec tkr price date sl tp rsn n
              (inject_Z n * price * commission_pct s)
              (inject_Z n * price + inject_Z n * price * commission_pct s) s)
    as [(s1' & p & Hb & Hc & _ & _ & _ & Hcp & _ & _ & Hps & _ & Hsh & _)
       | (s1' & p & Hb & _)];
    rewrite Hb in H; [ | discriminate ].
  injection H as <- <-. rewrite Hfree in Hsh.
  pose proof (sell_outcome tkr price' date' None rsn' s1') as Ho.
  rewrite Hps, dget_dset_eq in Ho. cbn zeta in Ho.
  rewrite Z.min_id, Hsh in Ho.
  apply Z.eqb_neq in Hn0 as Hn0'. rewrite Hn0' in Ho.
  destruct Ho as (s2 & Hsell & Hc2 & _ & _ & _ & _ & _ & _ & Hps2).
  rewrite Z.sub_diag in Hps2. cbn in Hps2.
  rewrite ddel_dset_fresh in Hps2 by exact Hfree.
  eexists _, s2. split; [ exact Hsell | ].
  cbn [trade_shares commission]. rewrite Hc2, Hc, Hcp.
  splits; [ reflexivity | ring | exact Hps2 ].
Qed.

Lemma round_trip_realizes_price_move_witness :
  exists tr s1,
    buy "PETR4.SA" 10 10 "2024-01-02" None None "SIGNAL"
        (Portfolio_default 1000) = Ok (Some tr) s1
    /\ exists tr' s2,
         sell "PETR4.SA" 12 "2024-01-09" None "SIGNAL" s1 = Ok (Some tr') s2
         /\ cash s2 ==
            cash (Portfolio_default 1000) + inject_Z (trade_shares tr) * (12 - 10)
            - commission tr - commission tr'.
Proof.
  eexists _, _. split; [ vm_compute; reflexivity | ].
  match goal with
  | |- exists tr' s2, sell _ _ _ _ _ ?s1 = _
                      /\ _ == _ + inject_Z (trade_shares ?tr) * _ - _ - _ =>
      destruct (round_trip_realizes_price_move
                  "PETR4.SA" 10 10 "2024-01-02" None None "SIGNAL"
                  12 "2024-01-09" "SIGNAL" (Portfolio_default 1000) s1 tr)
        as (tr' & s2 & Hs & _ & Hc & _)
  end.
  - vm_compute. reflexivity.
  - vm_compute. reflexivity.
  - exists tr', s2. split; assumption.
Defined.

(** ** Sizing: what can_buy allows *)

Lemma can_buy_funded_bounds (target_value : Q) (s s' : Portfolio)
    (v : Z) (m : BuyMsg) :
  -1 < commission_pct s -> 0 <= cash s -> 0 <= target_value ->
  can_buy_funded target_value s = Ok (true, v, m) s' ->
  s' = s /\ m = MsgOK
  /\ (0 <= v)%Z
  /\ inject_Z v <= target_value
  /\ inject_Z v * (1 + commission_pct s) <= cash s.
Proof.
  intros Hc Hcash Htv.
  unfold can_buy_funded, pdiv. unfold_M. cbn.
  qcase; cbn.
  - qcase; [ lra | ]. cbn. qcase; cbn; [ discriminate | ].
    intros [= <- <- <-].
    assert (Hq : 0 <= cash s / (1 + commission_pct s))
      by (apply Qdiv_nonneg; lra).
    destruct (trunc_nonneg _ Hq) as [H0 Hle].
    assert (Hcd : cash s / (1 + commission_pct s) * (1 + commission_pct s)
                  == cash s) by (field; lra).
    assert (Hlt : cash s / (1 + commission_pct s) <= target_value).
    { apply Qle_shift_div_r; lra. }
    splits; [ reflexivity | reflexivity | exact H0 | lra | ].
    apply Qle_trans
      with (cash s / (1 + commission_pct s) * (1 + commission_pct s));
      [ apply Qmult_le_compat_r; lra | lra ].
  - intros [= <- <- <-].
    destruct (trunc_nonneg _ Htv) as [H0 Hle].
    splits; [ reflexivity | reflexivity | exact H0 | exact Hle | ].
    apply Qle_trans with (target_value * (1 + commission_pct s));
      [ apply Qmult_le_compat_r; lra | exact E ].
Qed.

Lemma can_buy_bounds (tkr : string) (target_pct : Q)
    (s s' : Portfolio) (v : Z) (m : BuyMsg) :
  valid_params s -> wf s ->
  can_buy tkr target_pct s = Ok (true, v, m) s' ->
  s' = s /\ m = MsgOK
  /\ min_position_size s * 100 <= target_pct
  /\ (0 <= v)%Z
  /\ inject_Z v * (1 + commission_pct s) <= cash s
  /\ inject_Z v <= (target_pct / 100) * total_value s
  /\ inject_Z v <= max_position_size s * total_value s.
Proof.
  intros Hv Hwf.
  pose proof Hv as (Hc1 & Hc2 & Hmn & Hmx). pose proof Hwf as [Hcash Hps].
  pose proof (total_value_nonneg s Hwf) as Htv.
  unfold can_buy. unfold_M. cbn.
  qcase; cbn; [ discriminate | ].
  set (pct := if Qgtb target_pct (max_position_size s * 100)
              then max_position_size s * 100 else target_pct).
  assert (Hpct : 0 <= pct /\ pct <= target_pct
                 /\ pct <= max_position_size s * 100).
  { unfold pct. qcase; lra. }
  destruct Hpct as (Hp0 & Hp1 & Hp2). clearbody pct.
  assert (Htgt : 0 <= pct / 100 * total_value s
                 /\ pct / 100 * total_value s
                    <= target_pct / 100 * total_value s
                 /\ pct / 100 * total_value s
                    <= max_position_size s * total_value s).
  { splits.
    - apply Qmult_le_0_compat; [ apply Qdiv_nonneg; lra | exact Htv ].
    - apply Qmult_le_compat_r; [ | exact Htv ].
      apply Qle_shift_div_l; [ lra | ].
      assert (pct / 100 * 100 == pct) by field. lra.
    - apply Qmult_le_compat_r; [ | exact Htv ].
      apply Qle_shift_div_r; lra. }
  destruct Htgt as (Ht0 & Ht1 & Ht2).
  unfold can_buy_sized. unfold_M. cbn.
  destruct (dget tkr (positions s)) as [pos|] eqn:Hget; cbn.
  - destruct (wf_position_lookup tkr pos _ Hps Hget) as [Hsh Hcur].
    assert (Hmv : 0 <= market_value pos).
    { unfold market_value. apply Qmult_le_0_compat;
        [ apply inject_Z_nonneg; lia | exact Hcur ]. }
    assert (Hfloor : 0 <= total_value s * min_position_size s)
      by (apply Qmult_le_0_compat; assumption).
    qcase; cbn.
    + unfold pdiv. unfold_M. qcase; cbn; discriminate.
    + intros H.
      assert (Hadd : 0 <= pct / 100 * total_value s - market_value pos) by lra.
      destruct (can_buy_funded_bounds _ _ _ _ _ Hc1 Hcash Hadd H)
        as (-> & -> & Hv0 & Hle & Haff).
      splits; [ reflexivity | reflexivity | exact E | exact Hv0 | exact Haff
              | lra | lra ].
  - intros H.
    destruct (can_buy_funded_bounds _ _ _ _ _ Hc1 Hcash Ht0 H)
      as (-> & -> & Hv0 & Hle & Haff).
    splits; [ reflexivity | reflexivity | exact E | exact Hv0 | exact Haff
            | lra | lra ].
Qed.

(** X6.  On a portfolio with valid parameters, non-negative cash and positive
    holdings at non-negative marks, a value allowed by [can_buy] is a
    non-negative whole amount that cash can pay commission included,
    that does not exceed the requested share of total value nor the
    ceiling [max_position_size] of total value; the request itself was at
    least the floor. *)
Theorem can_buy_allows_affordable_value (tkr : string) (target_pct : Q)
    (s s' : Portfolio) (v : Z) (m : BuyMsg) :
  valid_params s -> wf s ->
  can_buy tkr target_pct s = Ok (true, v, m) s' ->
  s' = s /\ m = MsgOK
  /\ min_position_size s * 100 <= target_pct
  /\ (0 <= v)%Z
  /\ inject_Z v * (1 + commission_pct s) <= cash s
  /\ inject_Z v <= (target_pct / 100) * total_value s
  /\ inject_Z v <= max_position_size s * total_value s.
Proof. apply can_buy_bounds. Qed.

Lemma can_buy_allows_affordable_value_witness :
  exists v,
    can_buy "VALE3.SA" 40 example_holding = Ok (true, v, MsgOK) example_holding
    /\ inject_Z v <= max_position_size example_holding
                     * total_value example_holding.
Proof.
  eexists. split; [ vm_compute; reflexivity | ].
  refine (proj2 (proj2 (proj2 (proj2 (proj2 (proj2
            (can_buy_allows_affordable_value "VALE3.SA" 40 example_holding
               example_holding _ MsgOK _ _ _))))))).
  - repeat split; vm_compute; congruence.
  - split; [ vm_compute; congruence | ].
    repeat constructor; vm_compute; congruence.
  - vm_compute. reflexivity.
Defined.

(** ** Exposure *)

(** X7.  With non-negative cash and positive holdings at non-negative marks
    the exposure is a percentage between 0 and 100; whenever total value
    is positive, exposure and the cash share of total value add up to
    100. *)
Theorem exposure_is_a_percentage (s : Portfolio) :
  (wf s -> 0 <= exposure s /\ exposure s <= 100)
  /\ (0 < total_value s ->
      exposure s + cash s / total_value s * 100 == 100).
Proof.
  split.
  - intros Hwf. pose proof Hwf as [Hcash Hps].
    pose proof (positions_value_nonneg s Hps) as Hpv.
    unfold exposure. qcase; [ | lra ].
    assert (Hq : 0 <= positions_value s / total_value s
                 /\ positions_value s / total_value s <= 1).
    { split.
      - apply Qdiv_nonneg; assumption.
      - apply Qle_shift_div_r; [ exact E | ]. unfold total_value. lra. }
    lra.
  - intros Htv. unfold exposure.
    assert (E : Qgtb (total_value s) 0 = true) by (apply Qgtb_true, Htv).
    rewrite E. unfold total_value in *. field. lra.
Qed.

Lemma exposure_is_a_percentage_witness :
  0 <= exposure example_holding /\ exposure example_holding <= 100.
Proof.
  apply (proj1 (exposure_is_a_percentage example_holding)).
  split; [ vm_compute; congruence | ].
  repeat constructor; vm_compute; congruence.
Defined.

(** ** Summary *)

(** X8.  [summary] raises [ZeroDivisionError] exactly when the initial capital
    is zero, and never changes the portfolio.  Otherwise the reported
    current value is cash plus positions value, the return in currency is
    current value minus initial capital, and the percentage return is
    that amount relative to the initial capital; with a positive initial
    capital both returns have the same sign. *)
Theorem summary_return_identities (s : Portfolio) :
  (initial_capital s == 0 -> summary s = Raise ZeroDivisionError s)
  /\ (~ initial_capital s == 0 ->
      exists sm,
        summary s = Ok sm s
        /\ sm_current_value sm == sm_cash sm + sm_positions_value sm
        /\ sm_total_return_brl sm == sm_current_value sm - sm_initial_capital sm
        /\ sm_total_return_pct sm * sm_initial_capital sm
           == 100 * sm_total_return_brl sm
        /\ sm_num_trades sm = length (trades s)
        /\ (0 < initial_capital s ->
            (0 <= sm_total_return_pct sm <-> 0 <= sm_total_return_brl sm))).
Proof.
  split.
  - intros H. unfold summary, pdiv. unfold_M. cbn.
    apply Qeq_bool_iff in H. rewrite H. reflexivity.
  - intros H. unfold summary, pdiv. unfold_M. cbn.
    apply Qeq_bool_false in H as Hb. rewrite Hb. cbn.
    eexists. split; [ reflexivity | ].
    cbn [sm_current_value sm_cash sm_positions_value sm_total_return_brl
         sm_initial_capital sm_total_return_pct sm_num_trades].
    assert (Hpct : (total_value s / initial_capital s - 1) * 100
                   * initial_capital s
                   == 100 * (total_value s - initial_capital s))
      by (field; exact H).
    splits; [ reflexivity | reflexivity | exact Hpct | reflexivity | ].
    intros Hpos. split; intros Hs.
    + assert (0 <= (total_value s / initial_capital s - 1) * 100
                   * initial_capital s)
        by (apply Qmult_le_0_compat; lra).
      lra.
    + destruct (Qlt_le_dec
                  ((total_value s / initial_capital s - 1) * 100) 0)
        as [Hneg | Hge]; [ | exact Hge ].
      assert ((total_value s / initial_capital s - 1) * 100
              * initial_capital s < 0 * initial_capital s)
        by (apply Qmult_lt_compat_r; assumption).
      lra.
Qed.

Lemma summary_return_identities_witness :
  summary (Portfolio_default 0) = Raise ZeroDivisionError (Portfolio_default 0)
  /\ exists sm,
       summary example_holding = Ok sm example_holding
       /\ sm_total_return_pct sm * sm_initial_capital sm
          == 100 * sm_total_return_brl sm.
Proof.
  split.
  - apply (proj1 (summary_return_identities (Portfolio_default 0))).
    reflexivity.
  - destruct (proj2 (summary_return_identities example_holding))
      as (sm & Hs & _ & _ & Hpct & _).
    + vm_compute. congruence.
    + exists sm. split; assumption.
Defined.

(** ** Marking to market *)

Lemma update_prices_positions (prices : gmap string Q) (s : Portfolio) :
  update_prices prices s =
  Ok tt (set_positions
           (map (fun kv : string * Position =>
                   (fst kv, remark prices (fst kv) (snd kv)))
                (positions s)) s).
Proof.
  unfold update_prices. unfold_M. do 2 f_equal.
  apply map_ext. intros [k pos]. unfold remark. cbn.
  destruct (prices !! k); reflexivity.
Qed.

Lemma remark_idempotent (prices : gmap string Q) (tkr : string) (pos : Position) :
  remark prices tkr (remark prices tkr pos) = remark prices tkr pos.
Proof.
  unfold remark. destruct (prices !! tkr) eqn:E; [ | rewrite ?E; reflexivity ].
  reflexivity.
Qed.

(** X9.  [update_prices] never fails and changes marks only: cash, the trade
    log, the history and the parameters are untouched, the same
    instruments are held in the same order with the same share counts,
    average costs, entry dates and thresholds, a quoted instrument is
    marked at its quote and an unquoted one keeps its mark.  Total value
    moves by the revaluation, shares times the change of mark, summed
    over the positions.  Applying the same quotes again changes nothing. *)
Theorem update_prices_changes_marks_only (prices : gmap string Q) (s : Portfolio) :
  exists s',
    update_prices prices s = Ok tt s'
    /\ cash s' = cash s /\ trades s' = trades s /\ history s' = history s
    /\ initial_capital s' = initial_capital s /\ same_params s s'
    /\ dkeys (positions s') = dkeys (positions s)
    /\ (forall tkr,
          dget tkr (positions s') = remark prices tkr <$> dget tkr (positions s))
    /\ total_value s' ==
       total_value s
       + Qsum (map (fun kv : string * Position =>
                      inject_Z (shares (snd kv))
                      * (current_price (remark prices (fst kv) (snd kv))
                         - current_price (snd kv)))
                   (positions s))
    /\ update_prices prices s' = Ok tt s'.
Proof.
  eexists. split; [ apply update_prices_positions | ].
  cbn [cash trades history initial_capital positions set_positions].
  splits; try reflexivity.
  - repeat split.
  - unfold dkeys. rewrite map_map. reflexivity.
  - intros tkr. induction (positions s) as [|[k pos] d IH]; cbn; [ reflexivity | ].
    destruct (String.eqb tkr k) eqn:E; [ | exact IH ].
    apply String.eqb_eq in E. subst k. reflexivity.
  - unfold total_value, positions_value, dvalues.
    cbn [cash positions set_positions].
    induction (positions s) as [|[k pos] d IH]; cbn [map fst snd].
    + unfold Qsum. cbn. ring.
    + rewrite !Qsum_cons.
      assert (Hsh : shares (remark prices k pos) = shares pos)
        by (unfold remark; destruct (prices !! k); reflexivity).
      change (market_value (remark prices k pos))
        with (inject_Z (shares (remark prices k pos))
              * current_price (remark prices k pos)).
      change (market_value pos)
        with (inject_Z (shares pos) * current_price pos).
      rewrite Hsh. lra.
  - rewrite update_prices_positions.
    cbn [positions set_positions]. rewrite map_map.
    unfold set_positions.
    cbn [initial_capital cash commission_pct min_position_size
         max_position_size positions trades history].
    do 2 f_equal. apply map_ext. intros [k pos]. cbn [fst snd].
    rewrite remark_idempotent. reflexivity.
Qed.

(** ** Unrealized profit and loss of a position *)

(** X10.  The unrealized profit of a position is its share count times the
    distance of the mark from the average cost; for a long position with
    a positive average cost the percentage is the relative move of the
    price, whatever the share count; a position whose cost basis is not
    positive reports 0 percent.  With a stop below the target at most one
    of the two thresholds is hit. *)
Theorem position_pnl_is_price_move (p : Position) :
  pnl p == inject_Z (shares p) * (current_price p - avg_price p)
  /\ ((0 < shares p)%Z -> 0 < avg_price p ->
      pnl_pct p == (current_price p / avg_price p - 1) * 100)
  /\ (cost_basis p <= 0 -> pnl_pct p == 0)
  /\ (forall sl tp,
        stop_loss p = Some sl -> take_profit p = Some tp -> sl < tp ->
        should_stop_loss p && should_take_profit p = false).
Proof.
  splits.
  - unfold pnl, market_value, cost_basis. ring.
  - intros Hs Ha. apply inject_Z_pos in Hs.
    assert (Hcb : 0 < cost_basis p).
    { unfold cost_basis. apply Qmult_lt_0_compat; assumption. }
    unfold pnl_pct. apply Qgtb_true in Hcb as Hb. rewrite Hb.
    unfold pnl, market_value, cost_basis. field. split; lra.
  - intros Hcb. unfold pnl_pct. apply Qgtb_false in Hcb. rewrite Hcb.
    reflexivity.
  - intros sl tp Hsl Htp Hlt. unfold should_stop_loss, should_take_profit.
    rewrite Hsl, Htp. unfold Qgeb.
    destruct (Qle_bool (current_price p) sl) eqn:E1; [ | reflexivity ].
    destruct (Qle_bool tp (current_price p)) eqn:E2; [ | reflexivity ].
    apply Qle_bool_iff in E1, E2. lra.
Qed.

Lemma position_pnl_is_price_move_witness :
  let p := {| ticker := "PETR4.SA"; shares := 10; avg_price := 10;
              current_price := 12; entry_date := "2024-01-02";
              stop_loss := Some 9; take_profit := Some 12 |} in
  pnl_pct p == 20
  /\ should_stop_loss p && should_take_profit p = false.
Proof.
  intros p.
  destruct (position_pnl_is_price_move p) as (_ & Hpct & _ & Hex).
  split.
  - rewrite Hpct; [ reflexivity | reflexivity | reflexivity ].
  - apply (Hex 9 12); reflexivity.
Defined.

(** ** The books are append-only *)

Lemma books_refl (s : Portfolio) : books 0 s s.
Proof.
  unfold books, same_params. splits; try reflexivity.
  - exists []. rewrite app_nil_r. reflexivity.
  - exists []. rewrite app_nil_r. split; reflexivity.
Qed.

Lemma books_trans (n m : nat) (s s1 s2 : Portfolio) :
  books n s s1 -> books m s1 s2 -> books (n + m) s s2.
Proof.
  intros (Hi & (Hc & Hmn & Hmx) & (t & Ht) & (h & Hh & Hn))
         (Hi' & (Hc' & Hmn' & Hmx') & (t' & Ht') & (h' & Hh' & Hm)).
  unfold books, same_params. splits; try congruence.
  - exists (t ++ t'). rewrite Ht', Ht, app_assoc. reflexivity.
  - exists (h ++ h'). rewrite Hh', Hh, app_assoc, length_app.
    split; [ reflexivity | lia ].
Qed.

Ltac books_now :=
  unfold books, same_params;
  cbn [initial_capital cash commission_pct min_position_size
       max_position_size positions trades history
       set_cash set_positions set_trades set_history];
  splits; try reflexivity;
  [ first [ exists []; rewrite app_nil_r; reflexivity
          | eexists; reflexivity ]
  | first [ exists []; rewrite app_nil_r; split; reflexivity
          | eexists; split; reflexivity ] ].

Lemma buy_settle_books (tkr : string) (price : Q) (date : string)
    (sl tp : option Q) (rsn : string) (n : Z) (com tc : Q) (s : Portfolio) :
  books 0 s (outcome_state (buy_settle tkr price date sl tp rsn n com tc s)).
Proof.
  unfold buy_settle, append_trade. unfold_M. cbn.
  destruct (dget tkr (positions s)) as [pos|]; cbn.
  - unfold pdiv. destruct (Qeq_bool _ 0); unfold_M; cbn; books_now.
  - books_now.
Qed.

Lemma buy_books (tkr : string) (price target_pct : Q) (date : string)
    (sl tp : option Q) (rsn : string) (s : Portfolio) :
  books 0 s (outcome_state (buy tkr price target_pct date sl tp rsn s)).
Proof.
  destruct (buy_outcome tkr price target_pct date sl tp rsn s)
    as [-> | [[-> _] | (n & _ & _ & -> & _)]];
    [ apply books_refl | apply books_refl | apply buy_settle_books ].
Qed.

Lemma sell_books (tkr : string) (price : Q) (date : string)
    (nshares : option Z) (rsn : string) (s : Portfolio) :
  books 0 s (outcome_state (sell tkr price date nshares rsn s)).
Proof.
  pose proof (sell_outcome tkr price date nshares rsn s) as Ho.
  destruct (dget tkr (positions s)) as [pos|];
    [ | rewrite Ho; apply books_refl ].
  cbn zeta in Ho. destruct (Z.min _ _ =? 0)%Z;
    [ rewrite Ho; apply books_refl | ].
  destruct Ho as (s' & -> & _ & Ht & Hh & Hi & Hc & Hmn & Hmx & _).
  cbn [outcome_state]. unfold books, same_params.
  splits; try assumption.
  - eexists. exact Ht.
  - exists []. rewrite app_nil_r. split; [ exact Hh | reflexivity ].
Qed.

Lemma execute_closes_books (date : string) (l : list (string * Q * string))
    (acc : list Trade) (s : Portfolio) :
  books 0 s (outcome_state (execute_closes date l acc s)).
Proof.
  revert acc s. induction l as [|[[k price] rsn] l IH]; intros acc s;
    cbn [execute_closes]; unfold_M.
  - apply books_refl.
  - pose proof (sell_books k price date None rsn s) as Hs.
    destruct (sell k price date None rsn s) as [t s1 | e s1];
      cbn [outcome_state] in *; [ | exact Hs ].
    apply (books_trans 0 0 s s1); [ exact Hs | apply IH ].
Qed.

Lemma step_books (o : op) (s : Portfolio) :
  books (recorded_rows o) s (outcome_state (step o s)).
Proof.
  destruct o as [tkr price target_pct date sl tp rsn | tkr price date nshares rsn
                 | date | prices | date rate | date];
    cbn [step recorded_rows]; unfold_M.
  - pose proof (buy_books tkr price target_pct date sl tp rsn s) as H.
    destruct (buy _ _ _ _ _ _ _ s); exact H.
  - pose proof (sell_books tkr price date nshares rsn s) as H.
    destruct (sell _ _ _ _ _ s); exact H.
  - pose proof (execute_closes_books date
                  (tickers_to_close (positions s)) [] s) as H.
    unfold check_stops. unfold_M. cbn.
    destruct (execute_closes _ _ _ s); exact H.
  - rewrite update_prices_positions. cbn [outcome_state]. books_now.
  - unfold apply_selic_to_cash, append_trade. unfold_M. cbn.
    destruct (Qgtb (cash s) 0); cbn; books_now.
  - unfold record_state. unfold_M. cbn. books_now.
Qed.

Lemma step_record_ok (o : op) (s : Portfolio) (e : exn) (s' : Portfolio) :
  step o s = Raise e s' -> recorded_rows o = 0%nat.
Proof.
  destruct o; cbn [step recorded_rows]; try reflexivity.
  unfold record_state. unfold_M. cbn. discriminate.
Qed.

Lemma run_books (ops : list op) (s : Portfolio) :
  exists n,
    books n s (outcome_state (run ops s))
    /\ (n <= rows_recorded ops)%nat
    /\ (forall s', run ops s = Ok tt s' -> n = rows_recorded ops).
Proof.
  revert s. induction ops as [|o ops IH]; intros s; cbn [run rows_recorded].
  - exists 0%nat. splits; [ apply books_refl | lia | reflexivity ].
  - unfold_M. pose proof (step_books o s) as Hs.
    destruct (step o s) as [[] s1 | e s1] eqn:Hstep; cbn [outcome_state] in Hs.
    + destruct (IH s1) as (n & Hb & Hle & Hok).
      exists (recorded_rows o + n)%nat.
      splits; [ eapply books_trans; eassumption | lia | ].
      intros s' Hrun. rewrite (Hok s' Hrun). reflexivity.
    + rewrite (step_record_ok o s e s1 Hstep) in *.
      exists 0%nat. splits; [ exact Hs | lia | discriminate ].
Qed.

(** X11.  Whatever the operations and their inputs, and whether the run ends
    normally or with an exception, the portfolio reached has the initial
    capital and the commission and sizing parameters it started with, and
    its trade log and history are the earlier ones followed by new
    entries: nothing recorded is ever rewritten or removed.  The history
    gains at most one row per [record_state], and exactly one when the
    run ends normally. *)
Theorem books_are_append_only (ops : list op) (s : Portfolio) :
  let s' := outcome_state (run ops s) in
  initial_capital s' = initial_capital s
  /\ commission_pct s' = commission_pct s
  /\ min_position_size s' = min_position_size s
  /\ max_position_size s' = max_position_size s
  /\ (exists new, trades s' = trades s ++ new)
  /\ (exists new,
        history s' = history s ++ new
        /\ (length new <= rows_recorded ops)%nat
        /\ (run ops s = Ok tt s' -> length new = rows_recorded ops)).
Proof.
  cbn zeta.
  destruct (run_books ops s)
    as (n & (Hi & (Hc & Hmn & Hmx) & Ht & (h & Hh & Hn)) & Hle & Hok).
  splits; try assumption.
  exists h. splits; [ exact Hh | lia | ].
  intros Hrun. rewrite <- (Hok _ Hrun). exact Hn.
Qed.

(** ** Recorded histories *)

Lemma recorded_after_snoc (prev : option HistoryRow) (h : list HistoryRow)
    (row : HistoryRow) :
  recorded_after prev h ->
  h_returns row ==
    daily_return_after (match last h with Some r => Some r | None => prev end)
                       (h_total_value row) ->
  h_total_value row == h_cash row + h_positions_value row ->
  recorded_after prev (h ++ [row]).
Proof.
  revert prev. induction h as [|r h IH]; intros prev Hrec Hret Htv;
    cbn [app recorded_after].
  - splits; [ exact Hret | exact Htv | exact I ].
  - destruct Hrec as (Hr & Ht & Hrec). splits; [ exact Hr | exact Ht | ].
    apply IH; [ exact Hrec | | exact Htv ].
    rewrite last_cons in Hret. destruct (last h); exact Hret.
Qed.

Lemma step_recorded (o : op) (s : Portfolio) :
  recorded (history s) -> recorded (history (outcome_state (step o s))).
Proof.
  intros Hrec. pose proof (step_books o s) as Hb.
  destruct o as [tkr price target_pct date sl tp rsn | tkr price date nshares rsn
                 | date | prices | date rate | date];
    cbn [recorded_rows] in Hb.
  1-5: destruct Hb as (_ & _ & _ & (h & -> & Hn));
       destruct h; [ rewrite app_nil_r; exact Hrec | discriminate ].
  clear Hb. cbn [step]. unfold record_state. unfold_M.
  cbn [outcome_state history set_history].
  apply recorded_after_snoc; [ exact Hrec | | ].
  - cbn [h_returns h_total_value]. destruct (last (history s)); reflexivity.
  - reflexivity.
Qed.

(** X12.  Whatever the operations, and whether or not the run ends with an
    exception, the history keeps the form [record_state] gives it: each
    row's total value is its cash plus its positions value, the first
    return is 0 and every later return is the percentage change from the
    total value recorded before (0 when that value was not positive). *)
Theorem history_stays_recorded (ops : list op) (s : Portfolio) :
  recorded (history s) -> recorded (history (outcome_state (run ops s))).
Proof.
  revert s. induction ops as [|o ops IH]; intros s Hrec; cbn [run].
  - exact Hrec.
  - unfold_M. pose proof (step_recorded o s Hrec) as Hs.
    destruct (step o s) as [[] s1 | e s1]; cbn [outcome_state] in *;
      [ apply IH, Hs | exact Hs ].
Qed.

Lemma history_stays_recorded_witness :
  recorded (history (outcome_state (run example_run (Portfolio_default 1000)))).
Proof.
  apply (history_stays_recorded example_run (Portfolio_default 1000)).
  exact I.
Defined.

Lemma compounded_from (prev : HistoryRow) (rows : list HistoryRow) :
  recorded_after (Some prev) rows ->
  0 < h_total_value prev ->
  Forall (fun row => 0 < h_total_value row) rows ->
  forall (i : nat) (row : HistoryRow),
    rows !! i = Some row ->
    fold_right Qmult 1
      (map (fun r => 1 + r)
           (firstn (S i) (map (fun row => h_returns row / 100) rows)))
    == h_total_value row / h_total_value prev.
Proof.
  revert prev. induction rows as [|r rows IH]; intros prev Hrec Hprev Hpos i row;
    [ destruct i; discriminate | ].
  destruct Hrec as (Hret & _ & Hrec). apply Forall_cons in Hpos as [Hr Hpos].
  cbn [daily_return_after] in Hret.
  apply Qgtb_true in Hprev as Hb. rewrite Hb in Hret.
  cbn [map firstn fold_right].
  destruct i as [|i]; cbn [lookup list_lookup].
  - intros [= <-]. rewrite firstn_O. cbn [map fold_right].
    rewrite Hret. field. lra.
  - intros Hrow. rewrite (IH r Hrec Hr Hpos i row Hrow), Hret.
    field. split; lra.
Qed.

(** X13.  On a history kept by [record_state] whose total values are positive,
    compounding the daily returns that the metrics use (all rows but the
    first) up to a row gives the ratio of that row's total value to the
    first row's: the daily returns and the recorded values tell the same
    story.  In particular the total return reported by
    [calculate_metrics] (called without a CDI series, or with one of at
    least two days) is the compounded daily return. *)
Theorem compounded_returns_are_value_ratios (h : list HistoryRow) :
  recorded h ->
  Forall (fun row => 0 < h_total_value row) h ->
  (forall (i : nat) (first row : HistoryRow),
      h !! 0%nat = Some first -> h !! S i = Some row ->
      cumulative_at (metrics_returns h) i
      == h_total_value row / h_total_value first)
  /\ (forall fsqrt fpow cdi_series risk_free_rate,
        (2 <= length h)%nat ->
        match cdi_series with
        | Some cdi => (2 <= length cdi)%nat
        | None => True
        end ->
        exists m tr,
          calculate_metrics fsqrt fpow h cdi_series risk_free_rate = Some m
          /\ m_total_return_pct m = Some tr
          /\ tr == (cumulative_at (metrics_returns h) (length h - 2) - 1) * 100).
Proof.
  intros Hrec Hpos.
  assert (Hcum : forall (i : nat) (first row : HistoryRow),
             h !! 0%nat = Some first -> h !! S i = Some row ->
             cumulative_at (metrics_returns h) i
             == h_total_value row / h_total_value first).
  { destruct h as [|r0 rows]; [ discriminate | ].
    intros i first row [= <-] Hrow. cbn in Hrow.
    destruct Hrec as (_ & _ & Hrec). apply Forall_cons in Hpos as [H0 Hpos].
    unfold cumulative_at, metrics_returns. cbn [map tail].
    apply compounded_from; assumption. }
  split; [ exact Hcum | ].
  intros fsqrt fpow cdi_series risk_free_rate Hlen _.
  destruct h as [|r0 [|r1 rows]]; cbn in Hlen; try lia.
  destruct (last (r0 :: r1 :: rows)) as [rl|] eqn:Hlast;
    [ | rewrite last_None in Hlast; discriminate ].
  assert (Hl : (r0 :: r1 :: rows) !! S (length rows) = Some rl).
  { rewrite last_lookup in Hlast. exact Hlast. }
  apply Forall_cons in Hpos as Hpos'. destruct Hpos' as [H0 _].
  unfold calculate_metrics.
  change (length (r0 :: r1 :: rows) <? 2)%nat with false. cbv iota.
  rewrite Hlast.
  change (metrics_returns (r0 :: r1 :: rows))
    with (h_returns r1 / 100
          :: map (fun row => h_returns row / 100) rows) at 1.
  cbn [head]. unfold np_div.
  assert (Hz : Qeq_bool (h_total_value r0) 0 = false)
    by (apply Qeq_bool_false; lra).
  rewrite Hz. eexists _, _. split; [ reflexivity | ].
  cbn [m_total_return_pct fmap option_fmap option_map].
  split; [ reflexivity | ].
  replace (length (r0 :: r1 :: rows) - 2)%nat with (length rows)
    by (cbn; lia).
  rewrite (Hcum (length rows) r0 rl eq_refl Hl). reflexivity.
Qed.

Lemma compounded_returns_are_value_ratios_witness :
  let h := history (outcome_state (run example_run (Portfolio_default 1000))) in
  exists first row,
    h !! 0%nat = Some first /\ h !! 2%nat = Some row
    /\ cumulative_at (metrics_returns h) 1
       == h_total_value row / h_total_value first.
Proof.
  intros h. eexists _, _.
  split; [ vm_compute; reflexivity | ].
  split; [ vm_compute; reflexivity | ].
  refine (proj1 (compounded_returns_are_value_ratios h _ _) 1%nat _ _ _ _).
  - vm_compute. repeat split.
  - vm_compute. repeat constructor.
  - vm_compute. reflexivity.
  - vm_compute. reflexivity.
Defined.

Lemma books_are_append_only_witness :
  exists new,
    history (outcome_state (run example_run (Portfolio_default 1000))) = new
    /\ length new = 3%nat.
Proof.
  destruct (books_are_append_only example_run (Portfolio_default 1000))
    as (_ & _ & _ & _ & _ & (new & Hh & _ & Hok)).
  exists new. split; [ exact Hh | ].
  apply Hok. vm_compute. reflexivity.
Defined.

(** ** Daily statistics *)

Lemma fold_left_Qmax_ge_acc (l : list Q) (a : Q) : a <= fold_left Qmax l a.
Proof.
  revert a. induction l as [|y l IH]; intros a; cbn; [ lra | ].
  apply Qle_trans with (Qmax a y); [ apply Q.le_max_l | apply IH ].
Qed.

Lemma fold_left_Qmax_ge_elem (l : list Q) (a y : Q) :
  In y l -> y <= fold_left Qmax l a.
Proof.
  revert a. induction l as [|z l IH]; intros a Hin; cbn; [ destruct Hin | ].
  destruct Hin as [-> | Hin]; [ | apply IH, Hin ].
  apply Qle_trans with (Qmax a y);
    [ apply Q.le_max_r | apply fold_left_Qmax_ge_acc ].
Qed.

Lemma fold_left_Qmax_attained (l : list Q) (a : Q) :
  exists y, In y (a :: l) /\ fold_left Qmax l a == y.
Proof.
  revert a. induction l as [|z l IH]; intros a; cbn [fold_left].
  - exists a. split; [ left; reflexivity | reflexivity ].
  - destruct (IH (Qmax a z)) as (y & [<- | Hin] & Hy).
    + destruct (Q.max_dec a z) as [E | E].
      * exists a. split; [ left; reflexivity | rewrite Hy; exact E ].
      * exists z. split; [ right; left; reflexivity | rewrite Hy; exact E ].
    + exists y. split; [ right; right; exact Hin | exact Hy ].
Qed.

Lemma series_max_bounds (l : list Q) :
  l <> [] ->
  exists m,
    series_max l = Some m
    /\ (exists y, In y l /\ m == y)
    /\ (forall y, In y l -> y <= m).
Proof.
  destruct l as [|x l]; [ congruence | intros _ ].
  exists (fold_left Qmax l x). splits; [ reflexivity | | ].
  - apply fold_left_Qmax_attained.
  - intros y [<- | Hin];
      [ apply fold_left_Qmax_ge_acc | apply fold_left_Qmax_ge_elem, Hin ].
Qed.

Section Counting.
Context {A : Type}.
Variable p : A -> bool.

Lemma filter_count_le (l : list A) :
  (length (List.filter p l) <= length l)%nat.
Proof.
  induction l as [|x l IH]; cbn; [ lia | ].
  destruct (p x); cbn; lia.
Qed.

Lemma filter_count_zero (l : list A) :
  length (List.filter p l) = 0%nat <-> Forall (fun x => p x = false) l.
Proof.
  induction l as [|x l IH]; cbn.
  - split; [ constructor | reflexivity ].
  - destruct (p x) eqn:E; cbn.
    + split; [ discriminate | ]. intros H. apply Forall_cons in H as [H _].
      congruence.
    + rewrite IH. split; [ intros H; constructor; assumption | ].
      intros H. apply Forall_cons in H as [_ H]. exact H.
Qed.

Lemma filter_count_all (l : list A) :
  length (List.filter p l) = length l <-> Forall (fun x => p x = true) l.
Proof.
  induction l as [|x l IH]; cbn.
  - split; [ constructor | reflexivity ].
  - pose proof (filter_count_le l) as Hle.
    destruct (p x) eqn:E; cbn.
    + split.
      * intros H. constructor; [ exact E | apply IH; lia ].
      * intros H. apply Forall_cons in H as [_ H]. apply IH in H. lia.
    + split; [ lia | ]. intros H. apply Forall_cons in H as [H _].
      congruence.
Qed.
End Counting.

(** X14.  For a history of at least two records the win rate, the best day and
    the worst day are defined; the win rate is a percentage between 0 and
    100, every daily return (in percent) lies between the worst and the
    best day, and the three agree with one another: the win rate is 0
    exactly when the best day is not a gain, and 100 exactly when the
    worst day is a gain. *)
Theorem day_statistics_are_consistent (h : list HistoryRow) :
  (2 <= length h)%nat ->
  exists st w b d,
    day_stats h = Some st
    /\ m_win_rate_pct st = Some w
    /\ m_best_day_pct st = Some b
    /\ m_worst_day_pct st = Some d
    /\ 0 <= w /\ w <= 100
    /\ (forall r, In r (metrics_returns h) -> d <= r * 100 /\ r * 100 <= b)
    /\ (w == 0 <-> b <= 0)
    /\ (w == 100 <-> 0 < d).
Proof.
  intros Hlen.
  assert (Hrl : (0 < length (metrics_returns h))%nat)
    by (rewrite metrics_returns_length; lia).
  unfold day_stats.
  destruct (length h <? 2)%nat eqn:Hlt; [ apply Nat.ltb_lt in Hlt; lia | ].
  set (returns := metrics_returns h) in *.
  destruct returns as [|r0 rs] eqn:Hr; [ cbn in Hrl; lia | ].
  rewrite <- Hr in *. clear Hr r0 rs.
  assert (Hne : returns <> []) by (intros E; rewrite E in Hrl; cbn in Hrl; lia).
  destruct (series_max_bounds returns Hne) as (mx & -> & (ymx & Hinx & Hmx) & Hub).
  destruct (series_min_bounds returns Hne) as (mn & -> & (ymn & Hinn & Hmn) & Hlb).
  set (cnt := length (List.filter (fun r => Qgtb r 0) returns)).
  pose proof (filter_count_le (fun r => Qgtb r 0) returns) as Hcl. fold cnt in Hcl.
  pose proof (filter_count_zero (fun r => Qgtb r 0) returns) as Hc0. fold cnt in Hc0.
  pose proof (filter_count_all (fun r => Qgtb r 0) returns) as Hca. fold cnt in Hca.
  set (C := inject_Z (Z.of_nat cnt)).
  set (L := inject_Z (Z.of_nat (length returns))).
  assert (HL : 0 < L) by (apply inject_Z_pos; lia).
  assert (HC0 : 0 <= C) by (apply inject_Z_nonneg; lia).
  assert (HCL : C <= L) by (unfold C, L; rewrite <- Zle_Qle; lia).
  assert (HCz : C == 0 <-> cnt = 0%nat).
  { unfold C. split.
    - intros E. change (inject_Z (Z.of_nat cnt) == inject_Z 0) in E.
      rewrite inject_Z_injective in E. lia.
    - intros ->. reflexivity. }
  assert (HCa : C == L <-> cnt = length returns).
  { unfold C, L. rewrite inject_Z_injective. lia. }
  unfold np_div.
  assert (HLz : Qeq_bool L 0 = false) by (apply Qeq_bool_false; lra).
  rewrite HLz. cbn [fmap option_fmap option_map].
  assert (Hw : C / L * 100 * L == C * 100) by (field; lra).
  assert (Hq : 0 <= C / L /\ C / L <= 1).
  { split; [ apply Qdiv_nonneg; assumption
           | apply Qle_shift_div_r; [ exact HL | lra ] ]. }
  eexists _, (C / L * 100), (mx * 100), (mn * 100).
  cbn [m_win_rate_pct m_best_day_pct m_worst_day_pct].
  splits; try reflexivity; try lra.
  - intros r Hin. pose proof (Hub r Hin). pose proof (Hlb r Hin). lra.
  - assert (Hz : C / L * 100 == 0 <-> C == 0).
    { split; intros E; [ | rewrite E; field; lra ].
      rewrite E in Hw. lra. }
    rewrite Hz, HCz, Hc0. split.
    + intros Hall. rewrite List.Forall_forall in Hall.
      specialize (Hall ymx Hinx). apply Qgtb_false in Hall. lra.
    + intros Hb. apply List.Forall_forall. intros r Hin.
      apply Qgtb_false.
      pose proof (Hub r Hin). lra.
  - assert (Hz : C / L * 100 == 100 <-> C == L).
    { split; intros E; [ | rewrite E; field; lra ].
      rewrite E in Hw. lra. }
    rewrite Hz, HCa, Hca. split.
    + intros Hall. rewrite List.Forall_forall in Hall.
      specialize (Hall ymn Hinn). apply Qgtb_true in Hall. lra.
    + intros Hd. apply List.Forall_forall. intros r Hin.
      apply Qgtb_true.
      pose proof (Hlb r Hin). lra.
Qed.

Lemma day_statistics_are_consistent_witness :
  exists st w b d,
    day_stats example_history = Some st
    /\ m_win_rate_pct st = Some w
    /\ m_best_day_pct st = Some b
    /\ m_worst_day_pct st = Some d
    /\ w <= 100 /\ d <= (1 # 100) * 100.
Proof.
  destruct (day_statistics_are_consistent example_history)
    as (st & w & b & d & Hst & Hw & Hb & Hd & _ & Hw100 & Hin & _).
  - cbn. lia.
  - exists st, w, b, d. splits; try assumption.
    apply (Hin (1 # 100)). vm_compute. left. reflexivity.
Defined.

(** ** Sign and range of the maximum drawdown *)

Lemma compounded_pos (l : list Q) (n : nat) :
  Forall (fun r => -1 < r) l ->
  0 < fold_right Qmult 1 (map (fun r => 1 + r) (firstn n l)).
Proof.
  intros H. revert n. induction H as [|x l Hx Hl IH]; intros [|n];
    cbn [firstn map fold_right]; try reflexivity.
  apply Qmult_lt_0_compat; [ lra | apply IH ].
Qed.

Lemma compounded_succ (l : list Q) (n : nat) (x : Q) :
  l !! n = Some x ->
  fold_right Qmult 1 (map (fun r => 1 + r) (firstn (S n) l))
  == fold_right Qmult 1 (map (fun r => 1 + r) (firstn n l)) * (1 + x).
Proof.
  revert n. induction l as [|y l IH]; intros [|n]; try discriminate.
  - intros [= ->]. change (firstn 1 (x :: l)) with [x].
    change (firstn 0 (x :: l)) with (@nil Q). cbn [map fold_right]. ring.
  - intros H. change (firstn (S (S n)) (y :: l)) with (y :: firstn (S n) l).
    change (firstn (S n) (y :: l)) with (y :: firstn n l).
    cbn [map fold_right]. rewrite (IH n H). ring.
Qed.

Lemma cumulative_le_running_max (returns : list Q) (i : nat) :
  cumulative_at returns i <= running_max_at returns i.
Proof. destruct i; cbn [running_max_at]; [ lra | apply Q.le_max_r ]. Qed.

Lemma drawdown_at_range (returns : list Q) (i : nat) :
  Forall (fun r => -1 < r) returns ->
  0 < running_max_at returns i
  /\ -1 < drawdown_at returns i /\ drawdown_at returns i <= 0.
Proof.
  intros H.
  assert (Hc : 0 < cumulative_at returns i) by (apply compounded_pos, H).
  pose proof (cumulative_le_running_max returns i) as Hle.
  assert (Hm : 0 < running_max_at returns i) by lra.
  split; [ exact Hm | ]. unfold drawdown_at.
  set (c := cumulative_at returns i) in *.
  set (m := running_max_at returns i) in *.
  assert (E : (c - m) / m == c / m - 1) by (field; lra).
  assert (0 < c / m) by (apply Qlt_shift_div_l; lra).
  assert (c / m <= 1) by (apply Qle_shift_div_r; lra).
  lra.
Qed.

Lemma running_max_without_loss (returns : list Q) (i : nat) :
  Forall (fun r => -1 < r) returns ->
  Forall (fun r => 0 <= r) (tail returns) ->
  (i < length returns)%nat ->
  running_max_at returns i == cumulative_at returns i.
Proof.
  intros Hgt Hge. induction i as [|i IH]; intros Hi; cbn [running_max_at];
    [ reflexivity | ].
  destruct (lookup_lt_is_Some_2 returns (S i) Hi) as [x Hx].
  assert (H0 : 0 <= x).
  { eapply (Forall_lookup_1 _ (tail returns) i); [ exact Hge | ].
    rewrite lookup_tail. exact Hx. }
  assert (Hstep : cumulative_at returns (S i)
                  == cumulative_at returns i * (1 + x))
    by (apply compounded_succ, Hx).
  assert (Hc : 0 < cumulative_at returns i) by (apply compounded_pos, Hgt).
  rewrite IH by lia. apply Q.max_r. rewrite Hstep.
  assert (0 <= cumulative_at returns i * x)
    by (apply Qmult_le_0_compat; lra).
  lra.
Qed.

Lemma metrics_returns_tail (h : list HistoryRow) :
  metrics_returns h = map (fun row => h_returns row / 100) (tail h).
Proof. destruct h; reflexivity. Qed.

(** X15.  For a history of at least two records none of whose daily returns
    (first record apart) is a loss of 100 percent or more, the maximum
    drawdown is defined, is never positive and is above -100 percent.
    It is 0 when no return after the second record is negative: the first
    cumulated value is the first peak, so a loss on the second record
    alone is not a drawdown. *)
Theorem max_drawdown_is_a_relative_loss (h : list HistoryRow) :
  (2 <= length h)%nat ->
  Forall (fun row => -100 < h_returns row) (tail h) ->
  exists m,
    max_drawdown_pct h = Some (Some m)
    /\ -100 < m /\ m <= 0
    /\ (Forall (fun row => 0 <= h_returns row) (tail (tail h)) -> m == 0).
Proof.
  intros Hlen Hgt.
  assert (Hrl : (0 < length (metrics_returns h))%nat)
    by (rewrite metrics_returns_length; lia).
  assert (Hgt' : Forall (fun r => -1 < r) (metrics_returns h)).
  { rewrite metrics_returns_tail. apply Forall_map.
    eapply List.Forall_impl; [ | exact Hgt ]. cbn. intros row Hr.
    apply Qlt_shift_div_l; lra. }
  unfold max_drawdown_pct.
  destruct (length h <? 2)%nat eqn:Hlt; [ apply Nat.ltb_lt in Hlt; lia | ].
  set (returns := metrics_returns h) in *.
  destruct returns as [|r0 rs] eqn:Hr; [ cbn in Hrl; lia | ].
  rewrite <- Hr in *.
  assert (Hne : returns <> []) by (rewrite Hr; discriminate).
  clear Hr r0 rs.
  pose proof (max_drawdown_values returns) as Hval.
  destruct (max_drawdown returns) as [m|].
  2: { exfalso. specialize (Hval 0%nat Hrl).
       destruct (drawdown_at_range returns 0 Hgt') as [Hm _]. lra. }
  destruct Hval as [(i & Hi & _ & Hat) Hle].
  exists m. split; [ reflexivity | ].
  destruct (drawdown_at_range returns i Hgt') as (_ & Hlo & Hhi).
  splits; [ lra | lra | ].
  intros Hge.
  assert (Hge' : Forall (fun r => 0 <= r) (tail returns)).
  { unfold returns. rewrite metrics_returns_tail.
    destruct (tail h) as [|r1 h']; [ constructor | ]. cbn [map tail].
    apply Forall_map. eapply List.Forall_impl; [ | exact Hge ].
    cbn. intros row Hrow. apply Qle_shift_div_l; lra. }
  rewrite Hat. unfold drawdown_at.
  rewrite (running_max_without_loss returns i Hgt' Hge' Hi).
  field. pose proof (compounded_pos returns (S i) Hgt') as Hc.
  unfold cumulative_at. lra.
Qed.

Lemma max_drawdown_is_a_relative_loss_witness :
  exists m,
    max_drawdown_pct (history_of_returns [0; -10; 2; 3]) = Some (Some m)
    /\ m == 0.
Proof.
  destruct (max_drawdown_is_a_relative_loss (history_of_returns [0; -10; 2; 3]))
    as (m & Hm & _ & _ & Hz).
  - cbn. lia.
  - vm_compute. repeat constructor.
  - exists m. split; [ exact Hm | ]. apply Hz.
    vm_compute. repeat constructor; discriminate.
Defined.

(** ** The drawdown chart and the metrics *)

Lemma Qmin_scale (a b : Q) : Qmin (a * 100) (b * 100) == Qmin a b * 100.
Proof.
  destruct (Qlt_le_dec b a) as [H | H].
  - rewrite !Q.min_r by lra. reflexivity.
  - rewrite !Q.min_l by lra. reflexivity.
Qed.

Lemma fold_left_Qmin_scale (l : list Q) (a a' : Q) :
  a' == a * 100 ->
  fold_left Qmin (map (fun d => d * 100) l) a' == fold_left Qmin l a * 100.
Proof.
  revert a a'. induction l as [|x l IH]; intros a a' Ha; cbn [map fold_left];
    [ exact Ha | ].
  apply IH. rewrite Ha. apply Qmin_scale.
Qed.

Lemma omap_scale (l : list (option Q)) :
  omap id (map (fun d : option Q => (fun x => x * 100) <$> d) l)
  = map (fun d => d * 100) (omap id l).
Proof.
  induction l as [|[x|] l IH]; cbn; [ reflexivity | | exact IH ].
  f_equal. exact IH.
Qed.

(** X16.  For a history of at least two records, the maximum drawdown printed
    in the legend of the drawdown chart is the [max_drawdown_pct] of the
    metrics: taking the minimum before or after converting to percent
    makes no difference. *)
Theorem chart_and_metrics_agree_on_max_drawdown (h : list HistoryRow) :
  (2 <= length h)%nat ->
  exists md,
    max_drawdown_pct h = Some md /\ opt_Qeq md (plot_drawdown_max h).
Proof.
  intros Hlen.
  assert (Hrl : (0 < length (metrics_returns h))%nat)
    by (rewrite metrics_returns_length; lia).
  unfold max_drawdown_pct.
  destruct (length h <? 2)%nat eqn:Hlt; [ apply Nat.ltb_lt in Hlt; lia | ].
  destruct (metrics_returns h) as [|r0 rs] eqn:Hr; [ cbn in Hrl; lia | ].
  clear Hrl. rewrite <- Hr. clear Hr r0 rs.
  eexists. split; [ reflexivity | ].
  unfold plot_drawdown_max, max_drawdown, min_skipna.
  change (tail (map (fun row => h_returns row / 100) h))
    with (metrics_returns h).
  rewrite omap_scale.
  destruct (omap id (drawdown_series _ _)) as [|d dd]; [ exact I | ].
  cbn [series_min map fmap option_fmap option_map opt_Qeq].
  apply fold_left_Qmin_scale. reflexivity.
Qed.

Lemma chart_and_metrics_agree_on_max_drawdown_witness :
  exists md,
    max_drawdown_pct example_history = Some md
    /\ opt_Qeq md (plot_drawdown_max example_history).
Proof.
  apply (chart_and_metrics_agree_on_max_drawdown example_history).
  cbn. lia.
Defined.

(** ** Keys of the position dictionary *)

Section DictKeys.
Context {V : Type}.
Implicit Types (d : dict V) (k : string) (v : V).

Lemma dget_dset_ne k k' v d : k' <> k -> dget k' (dset k v d) = dget k' d.
Proof.
  intros Hne. induction d as [|[k0 v0] d IH]; cbn.
  - destruct (String.eqb_spec k' k); [ contradiction | reflexivity ].
  - destruct (String.eqb_spec k k0) as [-> | Hk]; cbn.
    + destruct (String.eqb_spec k' k0); [ contradiction | reflexivity ].
    + rewrite IH. reflexivity.
Qed.

Lemma dget_ddel_ne k k' d : k' <> k -> dget k' (ddel k d) = dget k' d.
Proof.
  intros Hne. induction d as [|[k0 v0] d IH]; cbn; [ reflexivity | ].
  destruct (String.eqb_spec k k0) as [-> | Hk]; cbn.
  - destruct (String.eqb_spec k' k0); [ contradiction | reflexivity ].
  - rewrite IH. reflexivity.
Qed.

Lemma dget_None_iff k d : dget k d = None <-> ~ In k (dkeys d).
Proof.
  induction d as [|[k0 v0] d IH]; cbn.
  - split; [ intros _ [] | reflexivity ].
  - destruct (String.eqb_spec k k0) as [-> | Hk].
    + split; [ discriminate | ]. intros H. exfalso. apply H. left. reflexivity.
    + rewrite IH. split.
      * intros H [E | Hin]; [ congruence | contradiction ].
      * intros H Hin. apply H. right. exact Hin.
Qed.

Lemma dget_ddel_eq k d : List.NoDup (dkeys d) -> dget k (ddel k d) = None.
Proof.
  induction d as [|[k0 v0] d IH]; cbn; [ reflexivity | ].
  intros Hnd. apply List.NoDup_cons_iff in Hnd as [Hnotin Hnd].
  destruct (String.eqb_spec k k0) as [-> | Hk]; cbn.
  - apply dget_None_iff. exact Hnotin.
  - destruct (String.eqb_spec k k0); [ contradiction | ]. apply IH, Hnd.
Qed.

Lemma In_dkeys_dset k v d x :
  In x (dkeys (dset k v d)) -> x = k \/ In x (dkeys d).
Proof.
  induction d as [|[k0 v0] d IH]; cbn.
  - intros [<- | []]. left. reflexivity.
  - destruct (String.eqb_spec k k0) as [-> | Hk]; cbn.
    + intros H. right. exact H.
    + intros [<- | H]; [ right; left; reflexivity | ].
      destruct (IH H) as [-> | Hin]; [ left; reflexivity | right; right; exact Hin ].
Qed.

Lemma In_dkeys_ddel k d x : In x (dkeys (ddel k d)) -> In x (dkeys d).
Proof.
  induction d as [|[k0 v0] d IH]; cbn; [ exact id | ].
  destruct (String.eqb_spec k k0) as [-> | Hk]; cbn.
  - intros H. right. exact H.
  - intros [<- | H]; [ left; reflexivity | right; apply IH, H ].
Qed.

Lemma NoDup_dset k v d : List.NoDup (dkeys d) -> List.NoDup (dkeys (dset k v d)).
Proof.
  induction d as [|[k0 v0] d IH]; cbn.
  - intros _. constructor; [ intros [] | constructor ].
  - intros Hnd. apply List.NoDup_cons_iff in Hnd as [Hnotin Hnd].
    destruct (String.eqb_spec k k0) as [-> | Hk]; cbn.
    + constructor; assumption.
    + apply List.NoDup_cons_iff. split; [ | apply IH, Hnd ].
      intros Hin. apply In_dkeys_dset in Hin as [-> | Hin]; contradiction.
Qed.

Lemma NoDup_ddel k d : List.NoDup (dkeys d) -> List.NoDup (dkeys (ddel k d)).
Proof.
  induction d as [|[k0 v0] d IH]; cbn; [ exact id | ].
  intros Hnd. apply List.NoDup_cons_iff in Hnd as [Hnotin Hnd].
  destruct (String.eqb_spec k k0) as [-> | Hk]; cbn; [ exact Hnd | ].
  apply List.NoDup_cons_iff. split; [ | apply IH, Hnd ].
  intros Hin. apply In_dkeys_ddel in Hin. contradiction.
Qed.

Lemma dget_app_fresh k v d d' :
  ~ In k (dkeys d) -> dget k (d ++ (k, v) :: d') = Some v.
Proof.
  induction d as [|[k0 v0] d IH]; cbn.
  - intros _. rewrite String.eqb_refl. reflexivity.
  - intros H. destruct (String.eqb_spec k k0) as [-> | Hk].
    + exfalso. apply H. left. reflexivity.
    + apply IH. intros Hin. apply H. right. exact Hin.
Qed.

Lemma ddel_app_fresh k v d d' :
  ~ In k (dkeys d) -> ddel k (d ++ (k, v) :: d') = d ++ d'.
Proof.
  induction d as [|[k0 v0] d IH]; cbn.
  - intros _. rewrite String.eqb_refl. reflexivity.
  - intros H. destruct (String.eqb_spec k k0) as [-> | Hk].
    + exfalso. apply H. left. reflexivity.
    + rewrite IH; [ reflexivity | ]. intros Hin. apply H. right. exact Hin.
Qed.
End DictKeys.

Lemma NoDup_app_middle {A : Type} (l l' : list A) (x : A) :
  List.NoDup (l ++ x :: l') -> ~ In x l /\ List.NoDup (l ++ l').
Proof.
  intros H. split.
  - apply List.NoDup_remove_2 in H. intros Hin. apply H.
    apply in_or_app. left. exact Hin.
  - apply List.NoDup_remove_1 in H. exact H.
Qed.

(** ** Stops close exactly the positions they hit *)

Lemma tickers_to_close_untriggered (ps : dict Position) :
  tickers_to_close
    (List.filter (fun kv : string * Position => negb (triggered (snd kv))) ps)
  = [].
Proof.
  induction ps as [|[k pos] ps IH]; cbn [List.filter snd]; [ reflexivity | ].
  unfold triggered.
  destruct (should_stop_loss pos) eqn:Hsl, (should_take_profit pos) eqn:Htp;
    cbn [orb negb]; try exact IH.
  cbn [tickers_to_close]. rewrite Hsl, Htp. exact IH.
Qed.

Lemma Qsum_filter_split {A : Type} (f : A -> Q) (p : A -> bool) (l : list A) :
  Qsum (map f l)
  == Qsum (map f (List.filter p l))
     + Qsum (map f (List.filter (fun x => negb (p x)) l)).
Proof.
  induction l as [|x l IH]; cbn [map List.filter].
  - unfold Qsum. cbn. ring.
  - destruct (p x); cbn [negb map]; rewrite !Qsum_cons, IH; ring.
Qed.

Lemma close_one (date : string) (k : string) (pos : Position) (rsn : string)
    (kept suf : dict Position) (s : Portfolio) :
  positions s = kept ++ (k, pos) :: suf ->
  ~ In k (dkeys kept) ->
  shares pos <> 0%Z ->
  exists s1,
    sell k (current_price pos) date None rsn s =
      Ok (Some {| trade_date := date; trade_ticker := k; action := SELL;
                  trade_shares := shares pos;
                  trade_price := current_price pos;
                  commission :=
                    inject_Z (shares pos) * current_price pos * commission_pct s;
                  total_cost :=
                    - (inject_Z (shares pos) * current_price pos
                       - inject_Z (shares pos) * current_price pos
                         * commission_pct s);
                  reason := rsn |}) s1
    /\ positions s1 = kept ++ suf
    /\ cash s1 ==
       cash s + (1 - commission_pct s) * market_value pos
    /\ commission_pct s1 = commission_pct s
    /\ trades s1 =
       trades s ++
       [ {| trade_date := date; trade_ticker := k; action := SELL;
            trade_shares := shares pos;
            trade_price := current_price pos;
            commission :=
              inject_Z (shares pos) * current_price pos * commission_pct s;
            total_cost :=
              - (inject_Z (shares pos) * current_price pos
                 - inject_Z (shares pos) * current_price pos
                   * commission_pct s);
            reason := rsn |} ].
Proof.
  intros Hps Hfresh Hnz.
  pose proof (sell_outcome k (current_price pos) date None rsn s) as Ho.
  rewrite Hps, dget_app_fresh in Ho by exact Hfresh.
  cbn zeta in Ho. rewrite Z.min_id in Ho.
  apply Z.eqb_neq in Hnz. rewrite Hnz, Z.sub_diag in Ho. cbn [Z.eqb] in Ho.
  destruct Ho as (s1 & Hsell & Hc & Ht & _ & _ & Hcp & _ & _ & Hpos).
  rewrite ddel_app_fresh in Hpos by exact Hfresh.
  exists s1. splits; [ exact Hsell | exact Hpos | | exact Hcp | exact Ht ].
  rewrite Hc. unfold market_value. ring.
Qed.

Lemma execute_closes_exact (date : string) (cp : Q) (suf : dict Position) :
  forall (kept : dict Position) (acc : list Trade) (s : Portfolio),
    positions s = kept ++ suf ->
    commission_pct s = cp ->
    List.NoDup (dkeys (kept ++ suf)) ->
    Forall nonzero_position suf ->
    exists s',
      execute_closes date (tickers_to_close suf) acc s =
        Ok (acc ++ map (closing_trade date cp)
                       (List.filter (fun kv => triggered (snd kv)) suf)) s'
      /\ positions s' =
         kept ++ List.filter (fun kv => negb (triggered (snd kv))) suf
      /\ trades s' =
         trades s ++ map (closing_trade date cp)
                        (List.filter (fun kv => triggered (snd kv)) suf)
      /\ cash s' ==
         cash s
         + (1 - cp)
           * Qsum (map market_value
                       (dvalues (List.filter (fun kv => triggered (snd kv)) suf)))
      /\ history s' = history s.
Proof.
  induction suf as [|[k pos] suf IH]; intros kept acc s Hps Hcp Hnd Hnz.
  - cbn. unfold_M. exists s. rewrite !app_nil_r in *.
    splits; [ reflexivity | exact Hps | reflexivity | | reflexivity ].
    unfold Qsum. cbn. ring.
  - subst cp.
    apply Forall_cons in Hnz as [Hk Hnz]. unfold nonzero_position in Hk.
    cbn [snd] in Hk.
    pose proof Hnd as Hnd0.
    unfold dkeys in Hnd. rewrite map_app in Hnd. cbn [map fst] in Hnd.
    apply NoDup_app_middle in Hnd as [Hfresh Hnd].
    rewrite <- map_app in Hnd.
    assert (Hclose : forall rsn,
               rsn = (if should_stop_loss pos then "STOP_LOSS"
                      else "TAKE_PROFIT")%string ->
               triggered pos = true ->
               exists s',
                 (trade ← sell k (current_price pos) date None rsn;
                  execute_closes date (tickers_to_close suf)
                    match trade with
                    | Some t => acc ++ [t]
                    | None => acc
                    end) s =
                 Ok (acc ++ map (closing_trade date (commission_pct s))
                       (List.filter (fun kv => triggered (snd kv))
                                    ((k, pos) :: suf))) s'
                 /\ positions s' =
                    kept ++ List.filter (fun kv => negb (triggered (snd kv)))
                                        ((k, pos) :: suf)
                 /\ trades s' =
                    trades s ++ map (closing_trade date (commission_pct s))
                       (List.filter (fun kv => triggered (snd kv))
                                    ((k, pos) :: suf))
                 /\ cash s' ==
                    cash s
                    + (1 - commission_pct s)
                      * Qsum (map market_value
                           (dvalues (List.filter (fun kv => triggered (snd kv))
                                                 ((k, pos) :: suf))))
                 /\ history s' = history s).
    { intros rsn Hrsn Htrig.
      destruct (close_one date k pos rsn kept suf s Hps Hfresh Hk)
        as (s1 & Hsell & Hpos1 & Hc1 & Hcp1 & Ht1).
      assert (Hh1 : history s1 = history s).
      { pose proof (sell_books k (current_price pos) date None rsn s) as Hb.
        rewrite Hsell in Hb. destruct Hb as (_ & _ & _ & (h & Hh & Hl)).
        destruct h; [ | discriminate ]. rewrite app_nil_r in Hh. exact Hh. }
      unfold_M. rewrite Hsell.
      destruct (IH kept
                  (acc ++ [ {| trade_date := date; trade_ticker := k;
                               action := SELL; trade_shares := shares pos;
                               trade_price := current_price pos;
                               commission :=
                                 inject_Z (shares pos) * current_price pos
                                 * commission_pct s;
                               total_cost :=
                                 - (inject_Z (shares pos) * current_price pos
                                    - inject_Z (shares pos) * current_price pos
                                      * commission_pct s);
                               reason := rsn |} ])
                  s1 Hpos1 Hcp1 Hnd Hnz)
        as (s' & Hex & Hpos' & Ht' & Hc' & Hh').
      exists s'. cbn [List.filter snd]. rewrite Htrig. cbn [negb map dvalues].
      unfold closing_trade at 1 3. cbn [fst snd].
      rewrite <- Hrsn.
      splits.
      - rewrite Hex, <- app_assoc. reflexivity.
      - exact Hpos'.
      - rewrite Ht', Ht1, <- app_assoc. reflexivity.
      - rewrite Hc', Hc1. unfold dvalues. cbn [map snd].
        rewrite Qsum_cons. ring.
      - congruence. }
    cbn [tickers_to_close execute_closes].
    destruct (should_stop_loss pos) eqn:Hsl.
    { apply Hclose; [ reflexivity | unfold triggered; rewrite Hsl; reflexivity ]. }
    destruct (should_take_profit pos) eqn:Htp.
    { apply Hclose; [ reflexivity
                    | unfold triggered; rewrite Hsl, Htp; reflexivity ]. }
    assert (Htrig : triggered pos = false)
      by (unfold triggered; rewrite Hsl, Htp; reflexivity).
    destruct (IH (kept ++ [(k, pos)]) acc s) as (s' & Hex & Hpos' & Ht' & Hc' & Hh').
    { rewrite <- app_assoc. exact Hps. }
    { reflexivity. }
    { rewrite <- app_assoc. exact Hnd0. }
    { exact Hnz. }
    exists s'. cbn [List.filter snd]. rewrite Htrig. cbn [negb].
    splits; [ exact Hex | | exact Ht' | exact Hc' | exact Hh' ].
    rewrite Hpos', <- app_assoc. reflexivity.
Qed.

(** X17.  On a portfolio whose positions all have shares (and whose position
    dictionary has distinct keys, as every Python dict has), [check_stops]
    never fails and closes exactly the positions whose stop loss or take profit
    is hit, in the order they are held: each one is sold whole at its
    mark, with reason STOP_LOSS when the stop is hit and TAKE_PROFIT
    otherwise, the other positions are kept as they are, and the trades
    returned are the trades appended to the log.  Cash receives the
    market value of the closed positions net of commission, so total
    value falls by the commission alone.  A second check right after
    closes nothing. *)
Theorem check_stops_closes_the_triggered (date : string) (s : Portfolio) :
  List.NoDup (dkeys (positions s)) ->
  Forall nonzero_position (positions s) ->
  let hit := List.filter (fun kv => triggered (snd kv)) (positions s) in
  let closing := map (closing_trade date (commission_pct s)) hit in
  exists s',
    check_stops date s = Ok closing s'
    /\ positions s' =
       List.filter (fun kv => negb (triggered (snd kv))) (positions s)
    /\ trades s' = trades s ++ closing
    /\ cash s' ==
       cash s + (1 - commission_pct s) * Qsum (map market_value (dvalues hit))
    /\ total_value s' ==
       total_value s - commission_pct s * Qsum (map market_value (dvalues hit))
    /\ check_stops date s' = Ok [] s'.
Proof.
  intros Hnd Hnz. cbn zeta.
  destruct (execute_closes_exact date (commission_pct s) (positions s)
              [] [] s eq_refl eq_refl Hnd Hnz)
    as (s' & Hex & Hpos & Ht & Hc & _).
  cbn [app] in Hex, Hpos.
  exists s'. unfold check_stops. unfold_M. cbn.
  splits; [ exact Hex | exact Hpos | exact Ht | exact Hc | | ].
  - unfold total_value, positions_value. rewrite Hc, Hpos.
    unfold dvalues. rewrite !map_map.
    rewrite (Qsum_filter_split (fun kv : string * Position => market_value (snd kv))
               (fun kv => triggered (snd kv)) (positions s)).
    ring.
  - rewrite Hpos, tickers_to_close_untriggered. reflexivity.
Qed.

Lemma check_stops_closes_the_triggered_witness :
  exists s',
    check_stops "2024-01-05" example_stopped =
      Ok (map (closing_trade "2024-01-05" (commission_pct example_stopped))
              (positions example_stopped)) s'
    /\ positions s' = [].
Proof.
  destruct (check_stops_closes_the_triggered "2024-01-05" example_stopped)
    as (s' & H & Hp & _).
  - repeat constructor. intros [].
  - repeat constructor. vm_compute. discriminate.
  - exists s'. split; [ exact H | exact Hp ].
Defined.

(** ** The trade log reconciles with cash and holdings *)

Lemma net_shares_app (tkr : string) (a b : list Trade) :
  net_shares tkr (a ++ b) = (net_shares tkr a + net_shares tkr b)%Z.
Proof.
  induction a as [|t a IH]; cbn [app net_shares fold_right]; [ reflexivity | ].
  fold (net_shares tkr (a ++ b)). fold (net_shares tkr a). rewrite IH. lia.
Qed.

Lemma reconciled_refl (s : Portfolio) :
  List.NoDup (dkeys (positions s)) -> reconciled s s [].
Proof.
  intros H. unfold reconciled. splits.
  - rewrite app_nil_r. reflexivity.
  - unfold Qsum. cbn. ring.
  - intros tkr. cbn. lia.
  - exact H.
Qed.

Lemma reconciled_trans (s s1 s2 : Portfolio) (a b : list Trade) :
  reconciled s s1 a -> reconciled s1 s2 b -> reconciled s s2 (a ++ b).
Proof.
  intros (Ht & Hc & Hh & _) (Ht' & Hc' & Hh' & Hnd). unfold reconciled. splits.
  - rewrite Ht', Ht, app_assoc. reflexivity.
  - rewrite Hc', Hc, map_app, Qsum_app. ring.
  - intros tkr. rewrite Hh', Hh, net_shares_app. lia.
  - exact Hnd.
Qed.

Lemma held_dset (k tkr : string) (pos : Position) (s s' : Portfolio) :
  positions s' = dset k pos (positions s) ->
  held tkr s' = if String.eqb tkr k then shares pos else held tkr s.
Proof.
  intros Hp. unfold held. rewrite Hp.
  destruct (String.eqb_spec tkr k) as [-> | Hne].
  - rewrite dget_dset_eq. reflexivity.
  - rewrite dget_dset_ne by exact Hne. reflexivity.
Qed.

Lemma held_ddel (k tkr : string) (s s' : Portfolio) :
  List.NoDup (dkeys (positions s)) ->
  positions s' = ddel k (positions s) ->
  held tkr s' = if String.eqb tkr k then 0%Z else held tkr s.
Proof.
  intros Hnd Hp. unfold held. rewrite Hp.
  destruct (String.eqb_spec tkr k) as [-> | Hne].
  - rewrite dget_ddel_eq by exact Hnd. reflexivity.
  - rewrite dget_ddel_ne by exact Hne. reflexivity.
Qed.

Lemma buy_reconciled (tkr : string) (price target_pct : Q) (date : string)
    (sl tp : option Q) (rsn : string) (s s' : Portfolio) (r : option Trade) :
  List.NoDup (dkeys (positions s)) ->
  buy tkr price target_pct date sl tp rsn s = Ok r s' ->
  exists new, reconciled s s' new.
Proof.
  intros Hnd H.
  destruct (buy_outcome tkr price target_pct date sl tp rsn s)
    as [Hn | [[He _] | (n & _ & _ & Hs & _)]]; [ | congruence | ].
  { rewrite Hn in H. injection H as <- <-. exists [].
    apply reconciled_refl, Hnd. }
  rewrite Hs in H.
  destruct (buy_settle_spec tkr price date sl tp rsn n
              (inject_Z n * price * commission_pct s)
              (inject_Z n * price + inject_Z n * price * commission_pct s) s)
    as [(s1 & p & Hb & Hc & Ht & _ & _ & _ & _ & _ & Hps & _ & Hsh & _)
       | (s1 & p & Hb & _)];
    rewrite Hb in H; [ | discriminate ].
  injection H as <- <-.
  eexists [_]. unfold reconciled. splits.
  - exact Ht.
  - rewrite Hc. cbn [map total_cost]. rewrite Qsum_cons. unfold Qsum. cbn [fold_left].
    ring.
  - intros k. rewrite (held_dset tkr k p s s1 Hps), Hsh.
    cbn [net_shares fold_right]. unfold signed_shares.
    cbn [trade_ticker action trade_shares].
    rewrite (String.eqb_sym tkr k).
    destruct (String.eqb_spec k tkr) as [-> | Hne]; [ | lia ].
    unfold held. destruct (dget tkr (positions s)); lia.
  - rewrite Hps. apply NoDup_dset, Hnd.
Qed.

Lemma sell_reconciled (tkr : string) (price : Q) (date : string)
    (nshares : option Z) (rsn : string) (s s' : Portfolio) (r : option Trade) :
  List.NoDup (dkeys (positions s)) ->
  sell tkr price date nshares rsn s = Ok r s' ->
  exists new, reconciled s s' new.
Proof.
  intros Hnd H.
  pose proof (sell_outcome tkr price date nshares rsn s) as Ho.
  destruct (dget tkr (positions s)) as [pos|] eqn:Hget.
  2: { rewrite Ho in H. injection H as <- <-. exists [].
       apply reconciled_refl, Hnd. }
  cbn zeta in Ho. destruct (Z.min _ _ =? 0)%Z.
  { rewrite Ho in H. injection H as <- <-. exists [].
    apply reconciled_refl, Hnd. }
  destruct Ho as (s1 & Hsell & Hc & Ht & _ & _ & _ & _ & _ & Hps).
  rewrite Hsell in H. injection H as <- <-.
  set (n := Z.min _ _) in *.
  eexists [_]. unfold reconciled. splits.
  - exact Ht.
  - rewrite Hc. cbn [map total_cost]. rewrite Qsum_cons. unfold Qsum. cbn [fold_left].
    ring.
  - intros k.
    cbn [net_shares fold_right]. unfold signed_shares.
    cbn [trade_ticker action trade_shares].
    rewrite (String.eqb_sym tkr k).
    destruct (shares pos - n =? 0)%Z eqn:Hz.
    + apply Z.eqb_eq in Hz. rewrite (held_ddel tkr k s s1 Hnd Hps).
      destruct (String.eqb_spec k tkr) as [-> | Hne]; [ | lia ].
      unfold held. rewrite Hget. lia.
    + rewrite (held_dset tkr k _ s s1 Hps). cbn [shares].
      destruct (String.eqb_spec k tkr) as [-> | Hne]; [ | lia ].
      unfold held. rewrite Hget. lia.
  - rewrite Hps. destruct (shares pos - n =? 0)%Z;
      [ apply NoDup_ddel, Hnd | apply NoDup_dset, Hnd ].
Qed.

Lemma execute_closes_reconciled (date : string) (l : list (string * Q * string))
    (acc r : list Trade) (s s' : Portfolio) :
  List.NoDup (dkeys (positions s)) ->
  execute_closes date l acc s = Ok r s' ->
  exists new, reconciled s s' new.
Proof.
  revert acc s. induction l as [|[[k price] rsn] l IH]; intros acc s Hnd;
    cbn [execute_closes]; unfold_M.
  - intros [= <- <-]. exists []. apply reconciled_refl, Hnd.
  - destruct (sell k price date None rsn s) as [t s1 | e s1] eqn:Hs;
      [ | discriminate ].
    intros H.
    destruct (sell_reconciled _ _ _ _ _ _ _ _ Hnd Hs) as (a & Ha).
    destruct (IH _ s1 (proj2 (proj2 (proj2 Ha))) H) as (b & Hb).
    exists (a ++ b). eapply reconciled_trans; eassumption.
Qed.

Lemma dget_remark (prices : gmap string Q) (tkr : string) (d : dict Position) :
  dget tkr (map (fun kv : string * Position =>
                   (fst kv, remark prices (fst kv) (snd kv))) d)
  = remark prices tkr <$> dget tkr d.
Proof.
  induction d as [|[k pos] d IH]; cbn; [ reflexivity | ].
  destruct (String.eqb tkr k) eqn:E; [ | exact IH ].
  apply String.eqb_eq in E. subst k. reflexivity.
Qed.

Lemma step_reconciled (o : op) (s s' : Portfolio) :
  List.NoDup (dkeys (positions s)) ->
  step o s = Ok tt s' ->
  exists new, reconciled s s' new.
Proof.
  intros Hnd.
  destruct o as [tkr price target_pct date sl tp rsn | tkr price date nshares rsn
                 | date | prices | date rate | date];
    cbn [step]; unfold_M.
  - destruct (buy _ _ _ _ _ _ _ s) as [r s1 | e s1] eqn:H; [ | discriminate ].
    intros [= <-]. eapply buy_reconciled; eassumption.
  - destruct (sell _ _ _ _ _ s) as [r s1 | e s1] eqn:H; [ | discriminate ].
    intros [= <-]. eapply sell_reconciled; eassumption.
  - destruct (check_stops date s) as [r s1 | e s1] eqn:H; [ | discriminate ].
    intros [= <-]. revert H. unfold check_stops. unfold_M. cbn.
    apply execute_closes_reconciled, Hnd.
  - rewrite update_prices_positions. intros [= <-]. exists [].
    unfold reconciled. cbn [trades cash positions set_positions]. splits.
    + rewrite app_nil_r. reflexivity.
    + unfold Qsum. cbn. ring.
    + intros tkr. unfold held. cbn [positions set_positions].
      rewrite dget_remark. cbn [net_shares fold_right].
      destruct (dget tkr (positions s)) as [pos|]; cbn; [ | lia ].
      unfold remark. destruct (prices !! tkr); cbn; lia.
    + unfold dkeys. rewrite map_map. exact Hnd.
  - unfold apply_selic_to_cash, append_trade. unfold_M. cbn.
    destruct (Qgtb (cash s) 0); cbn; intros [= <-].
    + eexists [_]. unfold reconciled.
      cbn [trades cash positions set_cash set_trades]. splits.
      * reflexivity.
      * cbn [map total_cost]. rewrite Qsum_cons. unfold Qsum. cbn [fold_left].
        ring.
      * intros tkr. unfold held. cbn [positions set_cash set_trades].
        cbn [net_shares fold_right]. unfold signed_shares. cbn [action].
        destruct (String.eqb _ tkr); lia.
      * exact Hnd.
    + exists []. apply reconciled_refl, Hnd.
  - unfold record_state. unfold_M. cbn. intros [= <-]. exists [].
    unfold reconciled. cbn [trades cash positions set_history]. splits.
    + rewrite app_nil_r. reflexivity.
    + unfold Qsum. cbn. ring.
    + intros tkr. unfold held. cbn. lia.
    + exact Hnd.
Qed.

(** X18.  Over a run that ends normally (from a position dictionary with
    distinct keys, as every Python dict has) the trade log accounts for
    every change of cash and of holdings: the final log is the initial one
    followed by new trades, the final cash is the initial cash minus the
    sum of their [total_cost] (interest entries included), and for every
    instrument the shares held changed by the shares bought minus the
    shares sold. *)
Theorem trade_log_reconciles (ops : list op) (s s' : Portfolio) :
  List.NoDup (dkeys (positions s)) ->
  run ops s = Ok tt s' ->
  exists new,
    trades s' = trades s ++ new
    /\ cash s' == cash s - Qsum (map total_cost new)
    /\ (forall tkr, held tkr s' = (held tkr s + net_shares tkr new)%Z).
Proof.
  intros Hnd Hrun.
  assert (H : exists new, reconciled s s' new).
  { revert s Hnd Hrun. induction ops as [|o ops IH]; intros s Hnd; cbn [run];
      unfold_M.
    - intros [= <-]. exists []. apply reconciled_refl, Hnd.
    - destruct (step o s) as [[] s1 | e s1] eqn:Hs; [ | discriminate ].
      intros Hrun.
      destruct (step_reconciled o s s1 Hnd Hs) as (a & Ha).
      destruct (IH s1 (proj2 (proj2 (proj2 Ha))) Hrun) as (b & Hb).
      exists (a ++ b). eapply reconciled_trans; eassumption. }
  destruct H as (new & Ht & Hc & Hh & _).
  exists new. splits; assumption.
Qed.

Lemma trade_log_reconciles_witness :
  exists s',
    run example_run (Portfolio_default 1000) = Ok tt s'
    /\ cash s' == 1000 - Qsum (map total_cost (trades s'))
    /\ held "PETR4.SA" s' = net_shares "PETR4.SA" (trades s').
Proof.
  eexists. split; [ vm_compute; reflexivity | ].
  match goal with
  | |- cash ?s' == _ /\ _ =>
      destruct (trade_log_reconciles example_run (Portfolio_default 1000) s')
        as (new & Ht & Hc & Hh);
      [ constructor | vm_compute; reflexivity | ];
      assert (Hn : trades s' = new) by exact Ht;
      rewrite Hn
  end.
  split; [ exact Hc | exact (Hh "PETR4.SA"%string) ].
Defined.

(** ** Position weights *)

Lemma positions_data_from_ok (ps : dict Position) :
  forall (acc : list PositionRow) (s : Portfolio),
    ~ total_value s == 0 ->
    exists rows,
      positions_data_from ps acc s = Ok (acc ++ rows) s
      /\ map r_ticker rows = dkeys ps
      /\ Qsum (map r_weight_pct rows)
         == Qsum (map market_value (dvalues ps)) / total_value s * 100
      /\ Qsum (map r_pnl rows)
         == Qsum (map market_value (dvalues ps)) - Qsum (map r_cost_basis rows).
Proof.
  induction ps as [|[k pos] ps IH]; intros acc s Htv.
  - exists []. cbn. unfold_M. rewrite app_nil_r.
    splits; reflexivity.
  - cbn [positions_data_from]. unfold pdiv. unfold_M. cbn.
    apply Qeq_bool_false in Htv as Hb. rewrite Hb.
    destruct (IH (acc ++
                  [ {| r_ticker := k; r_shares := shares pos;
                       r_avg_price := avg_price pos;
                       r_current_price := current_price pos;
                       r_market_value := market_value pos;
                       r_cost_basis := cost_basis pos;
                       r_pnl := pnl pos; r_pnl_pct := pnl_pct pos;
                       r_weight_pct := market_value pos / total_value s * 100;
                       r_entry_date := entry_date pos;
                       r_stop_loss := stop_loss pos;
                       r_take_profit := take_profit pos |} ]) s Htv)
      as (rows & Hex & Hk & Hw & Hp).
    eexists (_ :: rows). rewrite <- app_assoc in Hex.
    split; [ exact Hex | ].
    assert (Hs : Qsum (map market_value (dvalues ((k, pos) :: ps)))
                 == market_value pos + Qsum (map market_value (dvalues ps)))
      by apply Qsum_cons.
    rewrite Hs. cbn [map r_ticker r_weight_pct r_pnl r_cost_basis].
    rewrite !Qsum_cons, Hw, Hp, Hk.
    splits; [ reflexivity | field; exact Htv | unfold pnl; ring ].
Qed.

Lemma insert_by_weight_perm (r : PositionRow) (l : list PositionRow) :
  Permutation (insert_by_weight r l) (r :: l).
Proof.
  induction l as [|r' l IH]; cbn [insert_by_weight]; [ reflexivity | ].
  destruct (Qltb (r_weight_pct r') (r_weight_pct r)); [ reflexivity | ].
  rewrite IH. apply perm_swap.
Qed.

Lemma sort_by_weight_desc_perm (l : list PositionRow) :
  Permutation (sort_by_weight_desc l) l.
Proof.
  induction l as [|r l IH]; cbn; [ reflexivity | ].
  rewrite insert_by_weight_perm. constructor. exact IH.
Qed.

Lemma insert_by_weight_sorted (r : PositionRow) (l : list PositionRow) :
  StronglySorted (fun a b => r_weight_pct b <= r_weight_pct a) l ->
  StronglySorted (fun a b => r_weight_pct b <= r_weight_pct a)
                 (insert_by_weight r l).
Proof.
  induction 1 as [|r' l Hl IH Hall]; cbn [insert_by_weight].
  - repeat constructor.
  - destruct (Qltb (r_weight_pct r') (r_weight_pct r)) eqn:E.
    + apply Qltb_true in E. constructor; [ constructor; assumption | ].
      constructor; [ lra | ].
      eapply List.Forall_impl; [ | exact Hall ]. cbn. intros x Hx. lra.
    + apply Qltb_false in E. constructor; [ exact IH | ].
      apply (Permutation_Forall
               (Permutation_sym (insert_by_weight_perm r l))).
      constructor; assumption.
Qed.

Lemma sort_by_weight_desc_sorted (l : list PositionRow) :
  StronglySorted (fun a b => r_weight_pct b <= r_weight_pct a)
                 (sort_by_weight_desc l).
Proof.
  induction l as [|r l IH]; cbn; [ constructor | ].
  apply insert_by_weight_sorted, IH.
Qed.

Lemma Qsum_perm (l l' : list Q) : Permutation l l' -> Qsum l == Qsum l'.
Proof.
  induction 1 as [|x l l' _ IH|x y l|l l' l'' _ IH1 _ IH2].
  - reflexivity.
  - rewrite !Qsum_cons, IH. reflexivity.
  - rewrite !Qsum_cons. ring.
  - rewrite IH1. exact IH2.
Qed.

(** X19.  The positions summary has one row per held instrument, in
    decreasing order of weight; the weights add up to the positions'
    share of total value, which is the exposure when total value is
    positive, and the unrealized profits add up to positions value minus
    the cost bases.  With positions and a total value of zero the summary
    raises [ZeroDivisionError]; without positions it is empty.  The
    portfolio is never changed. *)
Theorem position_weights_sum_to_exposure (s : Portfolio) :
  (positions s <> [] -> total_value s == 0 ->
   get_positions_summary s = Raise ZeroDivisionError s)
  /\ (positions s = [] -> get_positions_summary s = Ok [] s)
  /\ (~ total_value s == 0 ->
      exists rows,
        get_positions_summary s = Ok rows s
        /\ Permutation (map r_ticker rows) (dkeys (positions s))
        /\ StronglySorted (fun a b => r_weight_pct b <= r_weight_pct a) rows
        /\ Qsum (map r_weight_pct rows)
           == positions_value s / total_value s * 100
        /\ (0 < total_value s -> Qsum (map r_weight_pct rows) == exposure s)
        /\ Qsum (map r_pnl rows)
           == positions_value s - Qsum (map r_cost_basis rows)).
Proof.
  unfold get_positions_summary, positions_data. unfold_M. cbn. splits.
  - intros Hne Hz. destruct (positions s) as [|[k pos] ps]; [ congruence | ].
    cbn [positions_data_from]. unfold pdiv. unfold_M. cbn.
    apply Qeq_bool_iff in Hz. rewrite Hz. reflexivity.
  - intros ->. reflexivity.
  - intros Htv.
    destruct (positions_data_from_ok (positions s) [] s Htv)
      as (rows & Hex & Hk & Hw & Hp).
    cbn [app] in Hex. rewrite Hex.
    pose proof (sort_by_weight_desc_perm rows) as Hperm.
    assert (Hwsum : Qsum (map r_weight_pct (sort_by_weight_desc rows))
                    == positions_value s / total_value s * 100).
    { rewrite (Qsum_perm _ _ (Permutation_map r_weight_pct Hperm)). exact Hw. }
    eexists. splits; [ reflexivity | | | exact Hwsum | | ].
    + rewrite <- Hk. apply Permutation_map, Hperm.
    + apply sort_by_weight_desc_sorted.
    + intros Hpos. unfold exposure. apply Qgtb_true in Hpos. rewrite Hpos.
      exact Hwsum.
    + rewrite (Qsum_perm _ _ (Permutation_map r_pnl Hperm)),
              (Qsum_perm _ _ (Permutation_map r_cost_basis Hperm)).
      exact Hp.
Qed.

(** The instrument held second is the heavier one and comes first. *)
Lemma position_weights_sum_to_exposure_witness :
  exists rows,
    get_positions_summary example_two_holdings = Ok rows example_two_holdings
    /\ map r_ticker rows = ["PETR4.SA"; "ABEV3.SA"]%string
    /\ Qsum (map r_weight_pct rows) == exposure example_two_holdings.
Proof.
  destruct (proj2 (proj2 (position_weights_sum_to_exposure example_two_holdings)))
    as (rows & Hex & _ & _ & _ & Hw & _).
  - vm_compute. discriminate.
  - exists rows. splits; [ exact Hex | | apply Hw; reflexivity ].
    vm_compute in Hex. injection Hex as <-. reflexivity.
Defined.

(** ** A buy stays within the size cap *)

Lemma buy_outcome_sized (tkr : string) (price target_pct : Q) (date : string)
    (sl tp : option Q) (rsn : string) (s s' : Portfolio) (tr : Trade) :
  buy tkr price target_pct date sl tp rsn s = Ok (Some tr) s' ->
  exists v m pos',
    can_buy tkr target_pct s = Ok (true, v, m) s
    /\ (trade_shares tr = trunc (inject_Z v / price)
        \/ (trade_shares tr = trunc (cash s / (price * (1 + commission_pct s)))
            /\ cash s < inject_Z (trunc (inject_Z v / price)) * price
                        * (1 + commission_pct s)))
    /\ trade_shares tr <> 0%Z
    /\ positions s' = dset tkr pos' (positions s)
    /\ current_price pos' = price
    /\ shares pos' = match dget tkr (positions s) with
                     | Some pos => (shares pos + trade_shares tr)%Z
                     | None => trade_shares tr
                     end.
Proof.
  assert (Hsettle : forall n com tc,
             buy_settle tkr price date sl tp rsn n com tc s = Ok (Some tr) s' ->
             trade_shares tr = n
             /\ exists pos',
                 positions s' = dset tkr pos' (positions s)
                 /\ current_price pos' = price
                 /\ shares pos' = match dget tkr (positions s) with
                                  | Some pos => (shares pos + n)%Z
                                  | None => n
                                  end).
  { intros n com tc H.
    destruct (buy_settle_spec tkr price date sl tp rsn n com tc s)
      as [(s1 & p & Hb & _ & _ & _ & _ & _ & _ & _ & Hps & Hcp & Hsh & _)
         | (s1 & p & Hb & _)];
      rewrite Hb in H; [ | discriminate ].
    injection H as <- <-. split; [ reflexivity | ]. exists p.
    splits; assumption. }
  unfold buy, pdiv. unfold_M.
  destruct (can_buy_frame tkr target_pct s) as [[[[can v] m] H] | [e H]];
    rewrite H; [ | discriminate ].
  destruct can; cbn; [ | discriminate ].
  qcase; cbn; [ discriminate | ].
  destruct (trunc (inject_Z v / price) =? 0)%Z eqn:Hn; [ discriminate | ].
  apply Z.eqb_neq in Hn.
  qcase; cbn.
  - qcase; cbn; [ discriminate | ].
    destruct (trunc (cash s / (price * (1 + commission_pct s))) =? 0)%Z eqn:Hn2;
      [ discriminate | ].
    apply Z.eqb_neq in Hn2. intros Hb.
    destruct (Hsettle _ _ _ Hb) as (Hts & pos' & Hps & Hcp & Hsh).
    exists v, m, pos'. rewrite Hts.
    splits; [ reflexivity | right; split; [ reflexivity | lra ]
            | exact Hn2 | exact Hps | exact Hcp | exact Hsh ].
  - intros Hb.
    destruct (Hsettle _ _ _ Hb) as (Hts & pos' & Hps & Hcp & Hsh).
    exists v, m, pos'. rewrite Hts.
    splits; [ reflexivity | left; reflexivity
            | exact Hn | exact Hps | exact Hcp | exact Hsh ].
Qed.

(** X20.  With valid parameters, non-negative cash, positive holdings at
    non-negative marks and a positive price, a buy that trades buys a
    positive number of shares whose value at the execution price exceeds
    neither the requested share of total value nor [max_position_size]
    of total value (both taken before the buy).  So a newly opened
    position is worth at most [max_position_size] of that total value. *)
Theorem buy_respects_the_size_cap (tkr : string) (price target_pct : Q)
    (date : string) (sl tp : option Q) (rsn : string)
    (s s' : Portfolio) (tr : Trade) :
  valid_params s -> wf s -> 0 < price ->
  buy tkr price target_pct date sl tp rsn s = Ok (Some tr) s' ->
  (0 < trade_shares tr)%Z
  /\ inject_Z (trade_shares tr) * price <= (target_pct / 100) * total_value s
  /\ inject_Z (trade_shares tr) * price <= max_position_size s * total_value s
  /\ (dget tkr (positions s) = None ->
      exists pos',
        dget tkr (positions s') = Some pos'
        /\ market_value pos' <= max_position_size s * total_value s).
Proof.
  intros Hv Hwf Hprice H.
  pose proof Hv as (Hc1 & _). pose proof Hwf as [Hcash _].
  destruct (buy_outcome_sized _ _ _ _ _ _ _ _ _ _ H)
    as (v & m & pos' & Hcan & Hn & Hnz & Hps & Hcp & Hsh).
  destruct (can_buy_bounds tkr target_pct s s v m Hv Hwf Hcan)
    as (_ & _ & _ & Hv0 & _ & Ht & Hmx).
  assert (Hq : 0 <= inject_Z v / price).
  { apply Qdiv_nonneg; [ apply inject_Z_nonneg, Hv0 | exact Hprice ]. }
  destruct (trunc_nonneg _ Hq) as [Hn1 Hle1].
  assert (Hval1 : inject_Z (trunc (inject_Z v / price)) * price <= inject_Z v).
  { apply Qle_trans with (inject_Z v / price * price);
      [ apply Qmult_le_compat_r; lra | ].
    assert (E : inject_Z v / price * price == inject_Z v) by (field; lra).
    lra. }
  assert (Hmain : (0 <= trade_shares tr)%Z
                  /\ inject_Z (trade_shares tr) * price <= inject_Z v).
  { destruct Hn as [-> | [-> Hlt]]; [ split; assumption | ].
    assert (Hd : 0 < price * (1 + commission_pct s))
      by (apply Qmult_lt_0_compat; lra).
    assert (Hq2 : 0 <= cash s / (price * (1 + commission_pct s)))
      by (apply Qdiv_nonneg; assumption).
    destruct (trunc_nonneg _ Hq2) as [Hn2 Hle2].
    split; [ exact Hn2 | ].
    set (n2 := inject_Z (trunc (cash s / (price * (1 + commission_pct s))))) in *.
    set (n1 := inject_Z (trunc (inject_Z v / price))) in *.
    assert (Hc2 : n2 * (price * (1 + commission_pct s)) <= cash s).
    { apply Qle_trans
        with (cash s / (price * (1 + commission_pct s))
              * (price * (1 + commission_pct s)));
        [ apply Qmult_le_compat_r; lra | ].
      assert (E : cash s / (price * (1 + commission_pct s))
                  * (price * (1 + commission_pct s)) == cash s)
        by (field; lra).
      lra. }
    destruct (Qlt_le_dec (n1 * price) (n2 * price)) as [Hgt | Hle]; [ | lra ].
    exfalso.
    assert ((n1 * price) * (1 + commission_pct s)
            <= (n2 * price) * (1 + commission_pct s))
      by (apply Qmult_le_compat_r; lra).
    lra. }
  destruct Hmain as [Hn0 Hval].
  splits; [ lia | lra | lra | ].
  intros Hfree. exists pos'. rewrite Hps, dget_dset_eq.
  split; [ reflexivity | ].
  unfold market_value. rewrite Hcp, Hsh, Hfree. lra.
Qed.

Lemma buy_respects_the_size_cap_witness :
  exists tr s',
    buy "VALE3.SA" 65 40 "2024-01-02" None None "INITIAL" example_holding
      = Ok (Some tr) s'
    /\ inject_Z (trade_shares tr) * 65
       <= max_position_size example_holding * total_value example_holding.
Proof.
  eexists _, _. split; [ vm_compute; reflexivity | ].
  match goal with
  | |- inject_Z (trade_shares ?tr) * _ <= _ =>
      refine (proj1 (proj2 (proj2
                (buy_respects_the_size_cap "VALE3.SA" 65 40 "2024-01-02"
                   None None "INITIAL" example_holding _ tr _ _ _ _))))
  end.
  - repeat split; vm_compute; congruence.
  - split; [ vm_compute; congruence | ].
    repeat constructor; vm_compute; congruence.
  - reflexivity.
  - vm_compute. reflexivity.
Defined.

(** ** How a buy can fail *)

Lemma can_buy_funded_raises (target_value : Q) (s s' : Portfolio) (e : exn) :
  can_buy_funded target_value s = Raise e s' -> commission_pct s == -1.
Proof.
  unfold can_buy_funded, pdiv. unfold_M. cbn.
  qcase; cbn; [ | discriminate ].
  qcase; cbn; [ intros _; lra | ].
  qcase; cbn; discriminate.
Qed.

Lemma can_buy_raises (tkr : string) (target_pct : Q) (s s' : Portfolio) (e : exn) :
  can_buy tkr target_pct s = Raise e s' ->
  commission_pct s == -1
  \/ (total_value s == 0 /\ dget tkr (positions s) <> None).
Proof.
  unfold can_buy. unfold_M. cbn. qcase; cbn; [ discriminate | ].
  unfold can_buy_sized. unfold_M. cbn.
  destruct (dget tkr (positions s)) as [pos|]; cbn.
  - qcase; cbn.
    + unfold pdiv.
      destruct (Qeq_bool (total_value s) 0) eqn:Ez; unfold_M; cbn;
        [ | discriminate ].
      intros _. right. split; [ apply Qeq_bool_iff, Ez | congruence ].
    + intros H. left. eapply can_buy_funded_raises, H.
  - intros H. left. eapply can_buy_funded_raises, H.
Qed.

Lemma buy_settle_raises (tkr : string) (price : Q) (date : string)
    (sl tp : option Q) (rsn : string) (n : Z) (com tc : Q)
    (s s' : Portfolio) (e : exn) :
  buy_settle tkr price date sl tp rsn n com tc s = Raise e s' ->
  exists pos,
    dget tkr (positions s) = Some pos
    /\ (shares pos + n = 0)%Z
    /\ cash s' = cash s - tc
    /\ trades s' = trades s
    /\ history s' = history s
    /\ held tkr s' = 0%Z.
Proof.
  unfold buy_settle, append_trade. unfold_M. cbn.
  destruct (dget tkr (positions s)) as [pos|] eqn:Hget; cbn; [ | discriminate ].
  unfold pdiv. rewrite inject_Z_eq_bool_0.
  destruct (shares pos + n =? 0)%Z eqn:Hz; unfold_M; cbn; [ | discriminate ].
  apply Z.eqb_eq in Hz. intros [= _ <-]. exists pos.
  splits; try reflexivity; [ exact Hz | ].
  unfold held. cbn [positions set_positions]. rewrite dget_dset_eq.
  cbn [shares]. exact Hz.
Qed.

(** X21.  A buy that raises [ZeroDivisionError] does so in one of two ways.
    Either the portfolio is left exactly as it was, and a divisor is
    zero: the price, [1 + commission_pct], their product, or total value
    while the instrument is held.  Or the buy was topping up a position
    with exactly the opposite number of shares: then cash has been
    debited by the cost, the position is left with zero shares and no
    trade is logged.  In particular a buy at price zero that [can_buy]
    allows raises and leaves the portfolio as it was. *)
Theorem buy_failure_modes (tkr : string) (price target_pct : Q)
    (date : string) (sl tp : option Q) (rsn : string) (s : Portfolio) :
  (forall s',
      buy tkr price target_pct date sl tp rsn s = Raise ZeroDivisionError s' ->
      (s' = s
       /\ (price == 0 \/ 1 + commission_pct s == 0
           \/ price * (1 + commission_pct s) == 0
           \/ (total_value s == 0 /\ dget tkr (positions s) <> None)))
      \/ (exists pos n,
            dget tkr (positions s) = Some pos
            /\ n <> 0%Z /\ (shares pos + n = 0)%Z
            /\ cash s' == cash s - inject_Z n * price * (1 + commission_pct s)
            /\ trades s' = trades s
            /\ history s' = history s
            /\ held tkr s' = 0%Z))
  /\ (forall v m,
        can_buy tkr target_pct s = Ok (true, v, m) s -> price == 0 ->
        buy tkr price target_pct date sl tp rsn s = Raise ZeroDivisionError s).
Proof.
  split.
  - intros s' H.
    destruct (buy_outcome tkr price target_pct date sl tp rsn s)
      as [Hn | [[He Hwhy] | (n & Hn0 & _ & Hs & _)]]; [ congruence | | ].
    + left. rewrite He in H. injection H as <-. split; [ reflexivity | ].
      destruct Hwhy as [[e' Hcan] | [Hp | Hpc]].
      * destruct (can_buy_raises _ _ _ _ _ Hcan) as [Hc | Ht];
          [ right; left; lra | right; right; right; exact Ht ].
      * left. exact Hp.
      * right; right; left. exact Hpc.
    + right. rewrite Hs in H.
      destruct (buy_settle_raises _ _ _ _ _ _ _ _ _ _ _ _ H)
        as (pos & Hget & Hz & Hc & Ht & Hh & Hheld).
      exists pos, n. splits; try assumption. rewrite Hc. ring.
  - intros v m Hcan Hp. unfold buy, pdiv. unfold_M. rewrite Hcan. cbn.
    apply Qeq_bool_iff in Hp. rewrite Hp. reflexivity.
Qed.

Lemma buy_failure_modes_witness :
  buy "VALE3.SA" 0 10 "2024-01-02" None None "SIGNAL" example_holding
    = Raise ZeroDivisionError example_holding.
Proof.
  refine (proj2 (buy_failure_modes "VALE3.SA" 0 10 "2024-01-02" None None
                   "SIGNAL" example_holding) _ _ _ _).
  - vm_compute. reflexivity.
  - reflexivity.
Defined.

(** ** A constant benchmark *)

Lemma Qsum_constant (c : Q) (l : list Q) :
  Forall (eq c) l -> Qsum l == inject_Z (Z.of_nat (length l)) * c.
Proof.
  induction 1 as [|x l <- Hl IH].
  - unfold Qsum. cbn. ring.
  - rewrite Qsum_cons, IH. cbn [length].
    rewrite Nat2Z.inj_succ, <- Z.add_1_r, inject_Z_plus. ring.
Qed.

Lemma ffill_from_constant (c : Q) (prev : option Q) (l : list (option Q)) :
  (prev = None \/ prev = Some c) ->
  Forall (fun cell => cell = None \/ cell = Some c) l ->
  Forall (fun cell => cell = None \/ cell = Some c) (ffill_from prev l).
Proof.
  intros Hprev H. revert prev Hprev.
  induction H as [|cell l Hcell Hl IH]; intros prev Hprev; cbn [ffill_from];
    constructor.
  - destruct Hcell as [-> | ->]; [ exact Hprev | right; reflexivity ].
  - apply IH. destruct Hcell as [-> | ->]; [ exact Hprev | right; reflexivity ].
Qed.

(** X22.  Aligning a source series that holds the same rate on every one of its
    dates (as the fixed-rate fallback series does) gives that rate on
    every target date, whether or not the date is covered by the source:
    the mean used before the first covered date is the rate itself. *)
Theorem align_constant_source (portfolio_dates : list Z)
    (cdi : gmap Z (option Q)) (c : Q) :
  cdi <> ∅ ->
  (forall d cell, cdi !! d = Some cell -> cell = Some c) ->
  length (align_cdi_to_portfolio portfolio_dates cdi) = length portfolio_dates
  /\ Forall (fun cell => exists v, cell = Some v /\ v == c)
            (align_cdi_to_portfolio portfolio_dates cdi).
Proof.
  intros Hne Hall.
  assert (Hmean : exists m, series_mean cdi = Some m /\ m == c).
  { unfold series_mean.
    assert (Hvs : Forall (eq c) (valid_cells cdi)).
    { apply Forall_forall. intros v Hin. unfold valid_cells in Hin.
      apply list_elem_of_omap in Hin as ([d cell] & Hd & Hs).
      apply elem_of_map_to_list in Hd. cbn in Hs. subst cell.
      specialize (Hall d (Some v) Hd). congruence. }
    destruct (map_choose cdi Hne) as (d & cell & Hd).
    assert (Hin : c ∈ valid_cells cdi).
    { unfold valid_cells. apply list_elem_of_omap. exists (d, cell).
      split; [ apply elem_of_map_to_list, Hd | ].
      cbn. apply (Hall d cell Hd). }
    pose proof (Qsum_constant c _ Hvs) as Hsum.
    destruct (valid_cells cdi) as [|x vs] eqn:Hv; [ inversion Hin | ].
    eexists. split; [ reflexivity | ]. rewrite Hsum. field.
    change 0 with (inject_Z 0). rewrite inject_Z_injective. cbn [length]. lia. }
  destruct Hmean as (m & Hm & Hmc).
  rewrite align_cdi_unfold, Hm. split.
  - unfold fillna, ffill, reindex.
    rewrite length_map, ffill_from_length, length_map. reflexivity.
  - assert (Hre : Forall (fun cell => cell = None \/ cell = Some c)
                         (reindex portfolio_dates cdi)).
    { unfold reindex. apply Forall_map, List.Forall_forall. intros d _.
      unfold cdi_cell. destruct (cdi !! d) as [cell|] eqn:Hd;
        [ right; apply (Hall d cell Hd) | left; reflexivity ]. }
    apply (ffill_from_constant c None) in Hre; [ | left; reflexivity ].
    unfold ffill, fillna. apply Forall_map.
    eapply List.Forall_impl; [ | exact Hre ]. cbn.
    intros cell [-> | ->]; eexists; (split; [ reflexivity | ]);
      [ exact Hmc | reflexivity ].
Qed.

Lemma align_constant_source_witness :
  Forall (fun cell => exists v, cell = Some v /\ v == 35 # 100000)
         (align_cdi_to_portfolio [1; 2; 3; 4]%Z
            {[ 2%Z := Some (35 # 100000); 3%Z := Some (35 # 100000) ]}).
Proof.
  apply (align_constant_source [1; 2; 3; 4]%Z
           {[ 2%Z := Some (35 # 100000); 3%Z := Some (35 # 100000) ]}
           (35 # 100000)).
  - intros E. apply (f_equal (fun m => m !! 2%Z)) in E. vm_compute in E.
    discriminate.
  - intros d cell Hd.
    apply lookup_insert_Some in Hd as [[_ <-] | [_ Hd]]; [ reflexivity | ].
    apply lookup_singleton_Some in Hd as [_ <-]. reflexivity.
Defined.

(** ** The chart of cumulated returns and the metrics *)

Lemma last_map {A B : Type} (f : A -> B) (l : list A) :
  last (map f l) = f <$> last l.
Proof.
  induction l as [|x l IH]; [ reflexivity | ].
  cbn [map]. rewrite !last_cons, IH. destruct (last l); reflexivity.
Qed.

Lemma last_cumprod_from (l : list Q) (acc : Q) :
  l <> [] ->
  exists y,
    last (cumprod_from acc l) = Some y
    /\ y == acc * fold_right Qmult 1 l.
Proof.
  revert acc. induction l as [|x l IH]; intros acc Hne; [ congruence | ].
  cbn [cumprod_from fold_right]. rewrite last_cons.
  destruct l as [|x' l].
  - eexists. split; [ reflexivity | cbn [fold_right]; ring ].
  - destruct (IH (acc * x)) as (y & -> & Hy); [ discriminate | ].
    exists y. split; [ reflexivity | rewrite Hy; ring ].
Qed.

Lemma last_cumprod (l : list Q) :
  l <> [] ->
  exists y, last (cumprod l) = Some y /\ y == fold_right Qmult 1 l.
Proof.
  destruct l as [|x l]; [ congruence | intros _ ].
  cbn [cumprod fold_right]. rewrite last_cons.
  destruct l as [|x' l].
  - eexists. split; [ reflexivity | cbn [fold_right]; ring ].
  - destruct (last_cumprod_from (x' :: l) x) as (y & -> & Hy); [ discriminate | ].
    exists y. split; [ reflexivity | exact Hy ].
Qed.

(** X23.  For a history of at least two records whose first total value is not
    zero and a CDI series of at least two days, the performance report
    draws its curves and the portfolio curve ends at the total return of
    the metrics.  The CDI curve does not end at the CDI return of the
    metrics: the chart compounds the rate of the first day too, the
    metrics leave it out, so the two growth factors differ by exactly
    [1 + cdi_0]. *)
Theorem chart_curves_and_metrics (fsqrt : Q -> Q) (fpow : Q -> Q -> option Q)
    (risk_free_rate : Q) (h : list HistoryRow) (c0 c1 : Q) (rest : list Q) :
  (2 <= length h)%nat ->
  (forall first, head h = Some first -> ~ h_total_value first == 0) ->
  let cdi := c0 :: c1 :: rest in
  exists m portfolio_curve cdi_curve ctr p,
    calculate_metrics fsqrt fpow h (Some cdi) risk_free_rate = Some m
    /\ report_curves h cdi = Some (portfolio_curve, cdi_curve)
    /\ last portfolio_curve = Some (m_total_return_pct m)
    /\ cdi_total_return cdi = Some ctr
    /\ last cdi_curve = Some (Some p)
    /\ p / 100 + 1 == (1 + c0) * (ctr / 100 + 1).
Proof.
  intros Hlen Hfirst cdi. subst cdi.
  destruct h as [|r0 [|r1 rows]]; cbn in Hlen; try lia.
  specialize (Hfirst r0 eq_refl).
  destruct (last (r0 :: r1 :: rows)) as [rl|] eqn:Hlast;
    [ | rewrite last_None in Hlast; discriminate ].
  destruct (last_cumprod (map (fun r => 1 + r) (c1 :: rest)))
    as (y1 & Hl1 & Hy1); [ discriminate | ].
  destruct (last_cumprod (map (fun r => 1 + r) (c0 :: c1 :: rest)))
    as (y2 & Hl2 & Hy2); [ discriminate | ].
  assert (Hz : Qeq_bool (h_total_value r0) 0 = false)
    by (apply Qeq_bool_false; exact Hfirst).
  unfold calculate_metrics, report_curves.
  change (length (r0 :: r1 :: rows) <? 2)%nat with false. cbv iota.
  rewrite Hlast.
  change (metrics_returns (r0 :: r1 :: rows))
    with (h_returns r1 / 100
          :: map (fun row => h_returns row / 100) rows) at 1.
  cbn [head].
  eexists _, _, _, ((y1 - 1) * 100),
    ((h_total_value r0 * y2 / h_total_value r0 - 1) * 100).
  splits; [ reflexivity | reflexivity | | | | ].
  - cbn [m_total_return_pct]. unfold plot_portfolio_returns.
    rewrite last_map, Hlast. reflexivity.
  - unfold cdi_total_return. cbn [tail]. rewrite Hl1. reflexivity.
  - unfold plot_cdi_returns_cum. rewrite !last_map, Hl2.
    cbn [fmap option_fmap option_map]. unfold np_div. rewrite Hz. reflexivity.
  - cbn [map fold_right] in Hy1, Hy2. rewrite Hy1, Hy2.
    cbn [map fold_right]. field. exact Hfirst.
Qed.

Lemma chart_curves_and_metrics_witness :
  exists m portfolio_curve cdi_curve,
    calculate_metrics (fun x => x) (fun x _ => Some x) example_history
      (Some [1 # 100; 1 # 100; 1 # 100; 1 # 100]) 0 = Some m
    /\ report_curves example_history [1 # 100; 1 # 100; 1 # 100; 1 # 100]
       = Some (portfolio_curve, cdi_curve)
    /\ last portfolio_curve = Some (m_total_return_pct m).
Proof.
  destruct (chart_curves_and_metrics (fun x => x) (fun x _ => Some x) 0
              example_history (1 # 100) (1 # 100) [1 # 100; 1 # 100])
    as (m & pc & cc & ctr & p & Hm & Hr & Hl & _).
  - cbn. lia.
  - intros first [= <-]. vm_compute. discriminate.
  - exists m, pc, cc. splits; assumption.
Defined.

(** * The ledger on doubles *)

(** Without rounding the ledger on doubles is the exact ledger. *)
Lemma float_market_values_exact (ps : list Position) (s : Portfolio) :
  Float.mapM (Float.market_value (fun x => x) (fun _ => true)) ps s
  = Ok (map market_value ps) s.
Proof.
  induction ps as [|p ps IH]; cbn [Float.mapM map]; [ reflexivity | ].
  unfold mbind, M_bind, bind.
  change (Float.market_value (fun x => x) (fun _ => true) p s)
    with (Ok (market_value p) s).
  cbv beta iota. rewrite IH. reflexivity.
Qed.

Lemma float_total_value_exact (s : Portfolio) :
  Float.total_value (fun x => x) Qsum (fun _ => true) s = Ok (total_value s) s.
Proof.
  unfold Float.total_value, Float.positions_value, mbind, M_bind, bind, gets.
  rewrite float_market_values_exact. reflexivity.
Qed.

Ltac float_norm :=
  repeat (progress (unfold mbind, M_bind, bind, gets, ret, mret, M_ret,
                      Float.market_value, Float.rnd, Float.check,
                      Float.of_int, Float.to_int;
                    cbn -[Float.total_value total_value])).

Lemma float_can_buy_funded_exact (target_value : Q) (s : Portfolio) :
  Float.can_buy_funded (fun x => x) Qsum (fun _ => true) target_value s
  = can_buy_funded target_value s.
Proof.
  unfold Float.can_buy_funded, can_buy_funded, Float.fdiv, pdiv. float_norm.
  destruct (Qgtb _ (cash s)); [ | reflexivity ].
  destruct (Qeq_bool (1 + commission_pct s) 0); [ reflexivity | ].
  float_norm. rewrite float_total_value_exact. reflexivity.
Qed.

Lemma float_can_buy_exact (tkr : string) (target_pct : Q) (s : Portfolio) :
  Float.can_buy (fun x => x) Qsum (fun _ => true) tkr target_pct s
  = can_buy tkr target_pct s.
Proof.
  assert (Hsized : forall pct,
             Float.can_buy_sized (fun x => x) Qsum (fun _ => true) tkr pct s
             = can_buy_sized tkr pct s).
  { intros pct. unfold Float.can_buy_sized, can_buy_sized, Float.fdiv, pdiv.
    float_norm. rewrite float_total_value_exact. float_norm.
    destruct (dget tkr (positions s)) as [pos|]; float_norm;
      [ | apply float_can_buy_funded_exact ].
    rewrite float_total_value_exact. float_norm.
    destruct (Qltb _ _); [ | apply float_can_buy_funded_exact ].
    rewrite float_total_value_exact.
    destruct (Qeq_bool (total_value s) 0); reflexivity. }
  unfold Float.can_buy, can_buy. float_norm.
  destruct (Qltb _ _); [ reflexivity | ].
  destruct (Qgtb _ _); apply Hsized.
Qed.

Lemma float_model_without_rounding :
  (forall tkr target_pct s,
      Float.can_buy (fun x => x) Qsum (fun _ => true) tkr target_pct s
      = can_buy tkr target_pct s)
  /\ (forall tkr price target_pct date sl tp rsn s,
        Float.buy (fun x => x) Qsum (fun _ => true)
                  tkr price target_pct date sl tp rsn s
        = buy tkr price target_pct date sl tp rsn s)
  /\ (forall tkr price date nshares rsn s,
        Float.sell (fun x => x) (fun _ => true) tkr price date nshares rsn s
        = sell tkr price date nshares rsn s)
  /\ (forall date rate s,
        Float.apply_selic_to_cash (fun x => x) (fun _ => true) date rate s
        = apply_selic_to_cash date rate s).
Proof.
  splits; try reflexivity; [ apply float_can_buy_exact | ].
  intros. unfold Float.buy, buy. unfold mbind, M_bind, bind.
  rewrite float_can_buy_exact.
  destruct (can_buy tkr target_pct s) as [[[can v] m] s1 | e s1];
    [ | reflexivity ].
  destruct can; [ | reflexivity ].
  unfold Float.fdiv, pdiv, Float.cost_of. float_norm.
  destruct (Qeq_bool price 0); [ reflexivity | ]. float_norm.
  destruct (_ =? 0)%Z; [ reflexivity | ]. float_norm.
  destruct (Qgtb _ _); [ | reflexivity ]. float_norm.
  destruct (Qeq_bool _ 0); [ reflexivity | ]. float_norm.
  destruct (_ =? 0)%Z; reflexivity.
Qed.

Example round64_examples :
  round64 (7 # 100) == 1261007895663739 # 18014398509481984
  /\ round64 (1 # 10) == 3602879701896397 # 36028797018963968
  /\ round64 77 == 77
  /\ round64 (1 # 3) == 6004799503160661 # 18014398509481984.
Proof. splits; vm_compute; reflexivity. Qed.

(** On doubles the share count recomputed from cash can cost more than
    the cash: [Portfolio(77, commission_pct=0.0,
    max_position_size=1.0).buy('X', 0.07, 100)] first counts 1100
    shares, finds their cost above 77, recomputes 1100 shares and
    deducts their cost, 77.00000000000001, leaving cash at
    -2^-46. *)
Example recount_overshoots_on_doubles :
  exists tr s',
    Float.buy round64 sum64 finite64
              "X" (round64 (7 # 100)) 100 "2024-01-02" None None "SIGNAL"
              example_tight = Ok (Some tr) s'
    /\ Float.recounts round64 sum64 finite64 "X" (round64 (7 # 100)) 100
                      example_tight = Ok true example_tight
    /\ trade_shares tr = 1100%Z
    /\ cash example_tight < total_cost tr
    /\ cash s' == - (1 # 70368744177664).
Proof. eexists _, _. splits; vm_compute; reflexivity. Qed.

(** A price so small that the quotient is an infinity:
    [Portfolio(1000).buy('X', 1e-320, 10)] raises [OverflowError]. *)
Example buy_overflow_on_doubles :
  Float.buy round64 sum64 finite64
            "X" (round64 (1 # 10 ^ 320)) 10 "2024-01-02" None None "SIGNAL"
            (Portfolio_double 1000)
  = Raise OverflowError (Portfolio_double 1000).
Proof. vm_compute. reflexivity. Qed.

(** ** Rounding *)

Section Rounding.
Variable fl : Q -> Q.
Hypothesis Hfl : rounding fl.

Lemma fl_mono (a b : Q) : a <= b -> fl a <= fl b.
Proof. apply Hfl. Qed.

Lemma fl_idem (a : Q) : fl (fl a) == fl a.
Proof. apply Hfl. Qed.

Lemma fl_opp (a : Q) : fl (- a) == - fl a.
Proof. apply Hfl. Qed.

Lemma fl_compat (a b : Q) : a == b -> fl a == fl b.
Proof.
  intros H. apply Qle_antisym; apply fl_mono; rewrite H; apply Qle_refl.
Qed.

Lemma fl_0 : fl 0 == 0.
Proof. pose proof (fl_opp 0) as H. change (- 0) with 0 in H. lra. Qed.

Lemma fl_nonneg (a : Q) : 0 <= a -> 0 <= fl a.
Proof. intros H. rewrite <- fl_0. apply fl_mono, H. Qed.

Lemma fl_nonpos (a : Q) : a <= 0 -> fl a <= 0.
Proof. intros H. rewrite <- fl_0. apply fl_mono, H. Qed.

Lemma fl_le_double (a b : Q) : a <= fl b -> fl a <= fl b.
Proof. intros H. rewrite <- (fl_idem b). apply fl_mono, H. Qed.

Lemma fl_ge_double (a b : Q) : fl b <= a -> fl b <= fl a.
Proof. intros H. rewrite <- (fl_idem b). apply fl_mono, H. Qed.

End Rounding.

(** ** binary64 is such a rounding *)

(** *** Powers of two *)

Lemma pow2_pos (e : Z) : 0 < 2 ^ e.
Proof. apply Qpower_0_lt. reflexivity. Qed.

Lemma pow2_le (a b : Z) : (a <= b)%Z -> 2 ^ a <= 2 ^ b.
Proof. intros H. apply Qpower_le_compat_l; [ exact H | discriminate ]. Qed.

Lemma pow2_lt (a b : Z) : (a < b)%Z -> 2 ^ a < 2 ^ b.
Proof. intros H. apply Qpower_lt_compat_l; [ exact H | reflexivity ]. Qed.

Lemma pow2_plus (a b : Z) : 2 ^ (a + b) == 2 ^ a * 2 ^ b.
Proof. apply Qpower_plus. discriminate. Qed.

Lemma pow2_inject (k : Z) : (0 <= k)%Z -> 2 ^ k == inject_Z (2 ^ k).
Proof. intros H. rewrite Zpower_Qpower by exact H. reflexivity. Qed.

Lemma pow2_succ (a : Z) : 2 ^ (a + 1) == 2 * 2 ^ a.
Proof. rewrite pow2_plus. change (2 ^ 1) with 2. ring. Qed.

(** *** The binary exponent *)

Lemma Qlog2_spec (q : Q) :
  0 < q -> 2 ^ Qlog2 q <= q /\ q < 2 ^ (Qlog2 q + 1).
Proof.
  destruct q as [n d]. intros Hq.
  assert (Hn : (0 < n)%Z).
  { unfold Qlt in Hq. cbn in Hq. lia. }
  unfold Qlog2. cbn [Qnum Qden].
  set (a := Z.log2 n). set (b := Z.log2 (Z.pos d)).
  destruct (Z.log2_spec n Hn) as [Ha1 Ha2]. fold a in Ha1, Ha2.
  destruct (Z.log2_spec (Z.pos d) eq_refl) as [Hb1 Hb2]. fold b in Hb1, Hb2.
  assert (Ha0 : (0 <= a)%Z) by apply Z.log2_nonneg.
  assert (Hb0 : (0 <= b)%Z) by apply Z.log2_nonneg.
  assert (HA1 : 2 ^ a <= inject_Z n).
  { rewrite pow2_inject by exact Ha0. rewrite <- Zle_Qle. exact Ha1. }
  assert (HA2 : inject_Z n < 2 * 2 ^ a).
  { rewrite <- pow2_succ, pow2_inject by lia. rewrite <- Zlt_Qlt.
    replace (a + 1)%Z with (Z.succ a) by lia. exact Ha2. }
  assert (HB1 : 2 ^ b <= inject_Z (Z.pos d)).
  { rewrite pow2_inject by exact Hb0. rewrite <- Zle_Qle. exact Hb1. }
  assert (HB2 : inject_Z (Z.pos d) < 2 * 2 ^ b).
  { rewrite <- pow2_succ, pow2_inject by lia. rewrite <- Zlt_Qlt.
    replace (b + 1)%Z with (Z.succ b) by lia. exact Hb2. }
  pose proof (pow2_pos a) as Hpa. pose proof (pow2_pos b) as Hpb.
  assert (Hab : 2 ^ (a - b) * 2 ^ b == 2 ^ a).
  { rewrite <- pow2_plus. replace (a - b + b)%Z with a by lia. reflexivity. }
  pose proof (pow2_pos (a - b)) as Hpab.
  assert (Hqd : (n # d) * inject_Z (Z.pos d) == inject_Z n).
  { rewrite Qmake_Qdiv. field. discriminate. }
  set (q := n # d) in *.
  assert (Hlo : 2 ^ (a - b) < 2 * q) by nra.
  assert (Hhi : q < 2 * 2 ^ (a - b)) by nra.
  destruct (Qle_bool (2 ^ (a - b)) q) eqn:E.
  - apply Qle_bool_iff in E. split; [ exact E | ].
    rewrite pow2_succ. exact Hhi.
  - assert (E' : q < 2 ^ (a - b)).
    { apply Qnot_le_lt. intros H. apply Qle_bool_iff in H. congruence. }
    replace (a - b - 1 + 1)%Z with (a - b)%Z by lia.
    split; [ | exact E' ].
    assert (2 ^ (a - b) == 2 * 2 ^ (a - b - 1)).
    { rewrite <- pow2_succ. replace (a - b - 1 + 1)%Z with (a - b)%Z by lia.
      reflexivity. }
    lra.
Qed.

Lemma Qlog2_unique (q : Q) (e : Z) :
  2 ^ e <= q -> q < 2 ^ (e + 1) -> Qlog2 q = e.
Proof.
  intros H1 H2.
  assert (Hq : 0 < q) by (pose proof (pow2_pos e); lra).
  destruct (Qlog2_spec q Hq) as [L1 L2].
  destruct (Z.lt_trichotomy (Qlog2 q) e) as [H | [H | H]]; [ | exact H | ].
  - pose proof (pow2_le (Qlog2 q + 1) e ltac:(lia)). lra.
  - pose proof (pow2_le (e + 1) (Qlog2 q) ltac:(lia)). lra.
Qed.

Lemma Qlog2_mono (x y : Q) : 0 < x -> x <= y -> (Qlog2 x <= Qlog2 y)%Z.
Proof.
  intros Hx Hxy.
  destruct (Qlog2_spec x Hx) as [X1 X2].
  destruct (Qlog2_spec y ltac:(lra)) as [Y1 Y2].
  destruct (Z.le_gt_cases (Qlog2 x) (Qlog2 y)) as [H | H]; [ exact H | ].
  pose proof (pow2_le (Qlog2 y + 1) (Qlog2 x) ltac:(lia)). lra.
Qed.

Lemma Qlog2_compat (x y : Q) : 0 < x -> x == y -> Qlog2 x = Qlog2 y.
Proof.
  intros Hx Hxy. destruct (Qlog2_spec x Hx) as [X1 X2].
  symmetry. apply Qlog2_unique; rewrite <- Hxy; assumption.
Qed.

(** *** Rounding to the nearest integer *)

Lemma round_half_even_bounds (q : Q) :
  (Qfloor q <= round_half_even q <= Qfloor q + 1)%Z.
Proof.
  unfold round_half_even.
  destruct (Qcompare _ _); [ destruct (Z.even _) | | ]; lia.
Qed.

Lemma round_half_even_compat (x y : Q) :
  x == y -> round_half_even x = round_half_even y.
Proof.
  intros H. unfold round_half_even.
  rewrite (Qfloor_comp _ _ H).
  assert (E : Qcompare (x - inject_Z (Qfloor y)) (1 # 2)
              = Qcompare (y - inject_Z (Qfloor y)) (1 # 2)).
  { apply Qcompare_comp; [ rewrite H | ]; reflexivity. }
  rewrite E. reflexivity.
Qed.

Lemma round_half_even_Z (n : Z) : round_half_even (inject_Z n) = n.
Proof.
  unfold round_half_even. rewrite Qfloor_Z.
  destruct (Qcompare_spec (inject_Z n - inject_Z n) (1 # 2));
    [ lra | reflexivity | lra ].
Qed.

Lemma round_half_even_mono (x y : Q) :
  x <= y -> (round_half_even x <= round_half_even y)%Z.
Proof.
  intros H. pose proof (Qfloor_resp_le _ _ H) as Hf.
  pose proof (round_half_even_bounds x) as Bx.
  pose proof (round_half_even_bounds y) as By.
  destruct (Z.eq_dec (Qfloor x) (Qfloor y)) as [E | E]; [ | lia ].
  clear Bx By Hf. unfold round_half_even. rewrite <- E.
  destruct (Qcompare_spec (x - inject_Z (Qfloor x)) (1 # 2)) as [X | X | X];
    destruct (Qcompare_spec (y - inject_Z (Qfloor x)) (1 # 2)) as [Y | Y | Y];
    try destruct (Z.even (Qfloor x)); try lia; lra.
Qed.

Lemma round_half_even_nonneg (q : Q) : 0 <= q -> (0 <= round_half_even q)%Z.
Proof.
  intros H. rewrite <- (round_half_even_Z 0). apply round_half_even_mono, H.
Qed.

(** *** Rounding to a double *)

Lemma round64_pos_nonneg (q : Q) : 0 < q -> 0 <= round64_pos q.
Proof.
  intros Hq. unfold round64_pos.
  pose proof (pow2_pos (ulp_exp q)) as Hp.
  apply Qmult_le_0_compat; [ | lra ].
  change 0 with (inject_Z 0). rewrite <- Zle_Qle.
  apply round_half_even_nonneg, Qle_shift_div_l; lra.
Qed.

Lemma round64_pos_compat (x y : Q) :
  0 < x -> x == y -> round64_pos x == round64_pos y.
Proof.
  intros Hx H. unfold round64_pos, ulp_exp.
  rewrite <- (Qlog2_compat x y Hx H). fold (ulp_exp x).
  rewrite (round_half_even_compat (x / 2 ^ ulp_exp x) (y / 2 ^ ulp_exp x)).
  - reflexivity.
  - apply Qdiv_comp; [ exact H | reflexivity ].
Qed.

(** A multiple of the last place rounds to itself. *)
Lemma round64_pos_multiple (r : Q) (m : Z) :
  r == inject_Z m * 2 ^ ulp_exp r -> round64_pos r == r.
Proof.
  intros H. unfold round64_pos.
  pose proof (pow2_pos (ulp_exp r)) as Hp.
  rewrite (round_half_even_compat _ (inject_Z m)).
  - rewrite round_half_even_Z. symmetry. exact H.
  - rewrite H at 1. field. lra.
Qed.

Lemma Qlog2_scaled (m e : Z) :
  (0 < m)%Z -> Qlog2 (inject_Z m * 2 ^ e) = (Z.log2 m + e)%Z.
Proof.
  intros Hm. destruct (Z.log2_spec m Hm) as [H1 H2].
  pose proof (Z.log2_nonneg m) as H0.
  pose proof (pow2_pos e) as Hp.
  apply Qlog2_unique.
  - rewrite pow2_plus, (pow2_inject (Z.log2 m)) by exact H0.
    apply Qmult_le_compat_r; [ | lra ]. rewrite <- Zle_Qle. exact H1.
  - replace (Z.log2 m + e + 1)%Z with (Z.succ (Z.log2 m) + e)%Z by lia.
    rewrite pow2_plus, (pow2_inject (Z.succ (Z.log2 m))) by lia.
    apply Qmult_lt_compat_r; [ exact Hp | ]. rewrite <- Zlt_Qlt. exact H2.
Qed.

(** A double rounds to itself: [m * 2 ^ e] with at most 53 bits in [m]
    and [e] not below the subnormal exponent. *)
Lemma round64_pos_double (m e : Z) :
  (0 < m <= 2 ^ 53)%Z -> (-1074 <= e)%Z ->
  round64_pos (inject_Z m * 2 ^ e) == inject_Z m * 2 ^ e.
Proof.
  intros [Hm Hm53] He.
  set (r := inject_Z m * 2 ^ e).
  pose proof (Qlog2_scaled m e Hm) as HL. fold r in HL.
  assert (Hlog : (Z.log2 m <= 53)%Z).
  { rewrite <- (Z.log2_pow2 53%Z) by lia. apply Z.log2_le_mono, Hm53. }
  destruct (Z.eq_dec (Z.log2 m) 53%Z) as [E | E].
  - assert (m = 2 ^ 53)%Z.
    { destruct (Z.log2_spec m Hm) as [H1 _]. rewrite E in H1. lia. }
    subst m. apply (round64_pos_multiple r (2 ^ 52)%Z).
    unfold ulp_exp. rewrite HL, E.
    replace (Z.max (53 + e - 52) (-1074)) with (1 + e)%Z by lia.
    subst r. rewrite pow2_plus.
    rewrite <- !pow2_inject by lia.
    rewrite Qmult_assoc. apply Qmult_comp; reflexivity.
  - set (e' := ulp_exp r).
    assert (He' : (e' <= e)%Z) by (subst e'; unfold ulp_exp; rewrite HL; lia).
    apply (round64_pos_multiple r (m * 2 ^ (e - e'))%Z). fold e'.
    subst r. rewrite inject_Z_mult, <- pow2_inject by lia.
    rewrite <- Qmult_assoc, <- pow2_plus.
    replace (e - e' + e')%Z with e by lia. reflexivity.
Qed.

Lemma round64_pos_idem (x : Q) :
  0 < x -> 0 < round64_pos x -> round64_pos (round64_pos x) == round64_pos x.
Proof.
  intros Hx Hr. unfold round64_pos at 2 3. unfold round64_pos in Hr.
  set (e := ulp_exp x) in *. set (m := round_half_even (x / 2 ^ e)) in *.
  pose proof (pow2_pos e) as Hp.
  assert (Hm : (0 < m)%Z).
  { apply Z.lt_nge. intros H. rewrite Zle_Qle in H.
    change (inject_Z 0) with 0 in H. nra. }
  assert (He : (Qlog2 x - 52 <= e /\ -1074 <= e)%Z)
    by (subst e; unfold ulp_exp; lia).
  apply round64_pos_double; [ split; [ exact Hm | ] | lia ].
  rewrite <- (round_half_even_Z (2 ^ 53)%Z). apply round_half_even_mono.
  rewrite <- pow2_inject by lia.
  destruct (Qlog2_spec x Hx) as [_ H2].
  apply Qle_shift_div_r; [ exact Hp | ].
  rewrite <- pow2_plus.
  pose proof (pow2_le (Qlog2 x + 1) (53 + e) ltac:(lia)). lra.
Qed.

Lemma round64_pos_mono (x y : Q) :
  0 < x -> x <= y -> round64_pos x <= round64_pos y.
Proof.
  intros Hx Hxy. assert (Hy : 0 < y) by lra.
  pose proof (Qlog2_mono x y Hx Hxy) as HL.
  destruct (Qlog2_spec x Hx) as [X1 X2]. destruct (Qlog2_spec y Hy) as [Y1 Y2].
  unfold round64_pos.
  set (ex := ulp_exp x). set (ey := ulp_exp y).
  assert (Hex : ex = Z.max (Qlog2 x - 52) (-1074)) by reflexivity.
  assert (Hey' : ey = Z.max (Qlog2 y - 52) (-1074)) by reflexivity.
  clearbody ex ey.
  pose proof (pow2_pos ex) as Hpx. pose proof (pow2_pos ey) as Hpy.
  destruct (Z.eq_dec ex ey) as [E | E].
  - rewrite <- E. apply Qmult_le_compat_r; [ | lra ].
    rewrite <- Zle_Qle. apply round_half_even_mono.
    apply Qmult_le_compat_r; [ exact Hxy | ].
    apply Qlt_le_weak, Qinv_lt_0_compat, Hpx.
  - assert (Hey : ey = (Qlog2 y - 52)%Z) by lia.
    assert (HLxy : (Qlog2 x + 1 <= Qlog2 y)%Z) by lia.
    apply Qle_trans with (2 ^ Qlog2 y).
    + set (k := Z.max (Qlog2 x + 1 - ex) 0).
      apply Qle_trans with (inject_Z (2 ^ k) * 2 ^ ex).
      * apply Qmult_le_compat_r; [ | lra ].
        rewrite <- Zle_Qle, <- (round_half_even_Z (2 ^ k)%Z).
        apply round_half_even_mono.
        rewrite <- pow2_inject by (subst k; lia).
        apply Qle_shift_div_r; [ exact Hpx | ].
        rewrite <- pow2_plus.
        pose proof (pow2_le (Qlog2 x + 1) (k + ex) ltac:(subst k; lia)). lra.
      * rewrite <- pow2_inject by (subst k; lia). rewrite <- pow2_plus.
        apply pow2_le. subst k. lia.
    + apply Qle_trans with (inject_Z (2 ^ 52) * 2 ^ ey).
      * rewrite <- pow2_inject by lia. rewrite <- pow2_plus.
        apply pow2_le. lia.
      * apply Qmult_le_compat_r; [ | lra ].
        rewrite <- Zle_Qle, <- (round_half_even_Z (2 ^ 52)%Z).
        apply round_half_even_mono.
        rewrite <- pow2_inject by lia.
        apply Qle_shift_div_l; [ exact Hpy | ].
        rewrite <- pow2_plus.
        pose proof (pow2_le (52 + ey) (Qlog2 y) ltac:(lia)). lra.
Qed.

Lemma round64_neg (a : Q) :
  a < 0 -> round64 a == - round64_pos (- a).
Proof.
  intros H. unfold round64.
  destruct (Qcompare_spec a 0); [ lra | apply Qred_correct | lra ].
Qed.

Lemma round64_zero (a : Q) : a == 0 -> round64 a == 0.
Proof.
  intros H. unfold round64.
  destruct (Qcompare_spec a 0); [ reflexivity | lra | lra ].
Qed.

Lemma round64_positive (a : Q) : 0 < a -> round64 a == round64_pos a.
Proof.
  intros H. unfold round64.
  destruct (Qcompare_spec a 0); [ lra | lra | apply Qred_correct ].
Qed.

Lemma round64_mono (a b : Q) : a <= b -> round64 a <= round64 b.
Proof.
  intros H.
  destruct (Q_dec a 0) as [[Ha | Ha] | Ha], (Q_dec b 0) as [[Hb | Hb] | Hb];
    try lra;
    rewrite ?(round64_neg a), ?(round64_neg b), ?(round64_positive a),
      ?(round64_positive b), ?(round64_zero a), ?(round64_zero b)
      by assumption.
  - pose proof (round64_pos_mono (- b) (- a) ltac:(lra) ltac:(lra)). lra.
  - pose proof (round64_pos_nonneg (- a) ltac:(lra)).
    pose proof (round64_pos_nonneg b Hb). lra.
  - pose proof (round64_pos_nonneg (- a) ltac:(lra)). lra.
  - apply round64_pos_mono; assumption.
  - apply round64_pos_nonneg, Hb.
  - lra.
Qed.

Lemma round64_compat (a b : Q) : a == b -> round64 a == round64 b.
Proof.
  intros H. apply Qle_antisym; apply round64_mono; rewrite H; apply Qle_refl.
Qed.

Lemma round64_idem_pos (a : Q) :
  0 < a -> round64 (round64_pos a) == round64_pos a.
Proof.
  intros Ha. pose proof (round64_pos_nonneg a Ha) as H0.
  destruct (Q_dec (round64_pos a) 0) as [[H | H] | H]; [ lra | | ].
  - rewrite round64_positive by exact H. apply round64_pos_idem; assumption.
  - rewrite (round64_zero _ H). symmetry. exact H.
Qed.

Lemma round64_opp (a : Q) : round64 (- a) == - round64 a.
Proof.
  destruct (Q_dec a 0) as [[Ha | Ha] | Ha].
  - rewrite (round64_neg a Ha), (round64_positive (- a)) by lra. lra.
  - rewrite (round64_positive a Ha), (round64_neg (- a)) by lra.
    rewrite (round64_pos_compat (- - a) a) by lra. reflexivity.
  - rewrite (round64_zero a Ha), (round64_zero (- a)) by lra. reflexivity.
Qed.

Lemma round64_idem (a : Q) : round64 (round64 a) == round64 a.
Proof.
  destruct (Q_dec a 0) as [[Ha | Ha] | Ha].
  - rewrite (round64_compat _ _ (round64_neg a Ha)).
    rewrite round64_opp, round64_idem_pos by lra.
    symmetry. apply round64_neg, Ha.
  - rewrite (round64_compat _ _ (round64_positive a Ha)).
    rewrite round64_idem_pos by exact Ha.
    symmetry. apply round64_positive, Ha.
  - rewrite (round64_compat _ _ (round64_zero a Ha)).
    rewrite (round64_zero a Ha). reflexivity.
Qed.

Lemma rounding_round64 : rounding round64.
Proof.
  split; [ exact round64_mono | split; [ exact round64_idem | exact round64_opp ] ].
Qed.

Lemma summation_sum64 : summation sum64.
Proof.
  intros l Hl. unfold sum64.
  assert (H : forall acc, 0 <= acc ->
            0 <= fold_left (fun acc x => round64 (acc + x)) l acc).
  { induction Hl as [|x l Hx Hl IH]; intros acc Hacc; cbn; [ exact Hacc | ].
    apply IH. rewrite <- (round64_zero 0) by reflexivity.
    apply round64_mono. lra. }
  apply H. lra.
Qed.


(** ** The ledger on doubles: what a call does *)

Lemma bind_Ok {A B : Type} (m : M A) (k : A -> M B) (s s' : Portfolio) (r : B) :
  (x ← m; k x) s = Ok r s' ->
  exists a s1, m s = Ok a s1 /\ k a s1 = Ok r s'.
Proof.
  unfold mbind, M_bind, bind. destruct (m s) as [a s1 | e s1]; [ | discriminate ].
  intros H. exists a, s1. split; [ reflexivity | exact H ].
Qed.

Lemma gets_Ok {A : Type} (f : Portfolio -> A) (s s' : Portfolio) (a : A) :
  gets f s = Ok a s' -> a = f s /\ s' = s.
Proof. unfold gets. intros [= <- <-]. split; reflexivity. Qed.

Lemma modify_Ok (f : Portfolio -> Portfolio) (s s' : Portfolio) (u : unit) :
  modify f s = Ok u s' -> s' = f s.
Proof. unfold modify. intros [= _ <-]. reflexivity. Qed.

Lemma mret_Ok {A : Type} (a r : A) (s s' : Portfolio) :
  (mret a : M A) s = Ok r s' -> r = a /\ s' = s.
Proof. unfold mret, M_ret, ret. intros [= <- <-]. split; reflexivity. Qed.

Section FloatLedger.
Variable fl : Q -> Q.
Variable fsum : list Q -> Q.
Variable finite : Q -> bool.

Lemma check_Ok (x y : Q) (s s' : Portfolio) :
  Float.check finite x s = Ok y s' -> y = x /\ s' = s.
Proof.
  unfold Float.check. destruct (finite x); unfold_M; [ | discriminate ].
  intros [= <- <-]. split; reflexivity.
Qed.

Lemma rnd_Ok (x y : Q) (s s' : Portfolio) :
  Float.rnd fl finite x s = Ok y s' -> y = fl x /\ s' = s.
Proof. apply check_Ok. Qed.

Lemma of_int_Ok (n : Z) (y : Q) (s s' : Portfolio) :
  Float.of_int fl finite n s = Ok y s' -> y = fl (inject_Z n) /\ s' = s.
Proof.
  unfold Float.of_int. destruct (finite _); unfold_M; [ | discriminate ].
  intros [= <- <-]. split; reflexivity.
Qed.

Lemma to_int_Ok (x : Q) (n : Z) (s s' : Portfolio) :
  Float.to_int finite x s = Ok n s' -> n = trunc x /\ s' = s.
Proof.
  unfold Float.to_int. destruct (finite x); unfold_M; [ | discriminate ].
  intros [= <- <-]. split; reflexivity.
Qed.

Lemma fdiv_Ok (a b q : Q) (s s' : Portfolio) :
  Float.fdiv fl a b s = Ok q s' -> q = fl (a / b) /\ s' = s /\ ~ b == 0.
Proof.
  unfold Float.fdiv. destruct (Qeq_bool b 0) eqn:E; unfold_M; [ discriminate | ].
  apply Qeq_bool_false in E. intros [= <- <-]. splits; [ reflexivity .. | exact E ].
Qed.

End FloatLedger.

(** Inversion of a computation that returned, one bind at a time. *)
Ltac float_prim E :=
  first
    [ apply rnd_Ok in E as [-> ->]
    | apply check_Ok in E as [-> ->]
    | apply of_int_Ok in E as [-> ->]
    | apply to_int_Ok in E as [-> ->]
    | apply gets_Ok in E as [-> ->]
    | apply modify_Ok in E as ->
    | apply mret_Ok in E as [-> ->] ].

Ltac float_call H E :=
  let a := fresh "a" in
  let s1 := fresh "s" in
  apply bind_Ok in H as (a & s1 & E & H).

Ltac float_step H :=
  let E := fresh "E" in
  float_call H E; float_prim E.

Section FloatSigns.
Variable fl : Q -> Q.
Variable fsum : list Q -> Q.
Variable finite : Q -> bool.
Hypothesis Hfl : rounding fl.
Hypothesis Hsum : summation fsum.

Lemma float_market_value (p : Position) (v : Q) (s s' : Portfolio) :
  Float.market_value fl finite p s = Ok v s' ->
  s' = s /\ ((0 <= shares p)%Z -> 0 <= current_price p -> 0 <= v).
Proof.
  unfold Float.market_value. intros H.
  float_step H. apply rnd_Ok in H as [-> ->].
  split; [ reflexivity | ]. intros Hs Hp.
  apply (fl_nonneg fl Hfl), Qmult_le_0_compat; [ | exact Hp ].
  apply (fl_nonneg fl Hfl), inject_Z_nonneg, Hs.
Qed.

Lemma float_market_values (ps : list Position) (vs : list Q) (s s' : Portfolio) :
  Float.mapM (Float.market_value fl finite) ps s = Ok vs s' ->
  s' = s
  /\ (Forall (fun p => (0 <= shares p)%Z /\ 0 <= current_price p) ps ->
      Forall (fun x => 0 <= x) vs).
Proof.
  revert vs s s'. induction ps as [|p ps IH]; intros vs s s'; cbn [Float.mapM].
  - intros H. apply mret_Ok in H as [-> ->]. split; [ reflexivity | constructor ].
  - intros H. float_call H E.
    apply float_market_value in E as [-> Hv].
    float_call H E'. apply IH in E' as [-> Hvs].
    apply mret_Ok in H as [-> ->]. split; [ reflexivity | ].
    intros Hps. inversion Hps as [|? ? [Hs Hp] Hps']; subst.
    constructor; [ apply Hv; assumption | apply Hvs, Hps' ].
Qed.

Lemma float_total_value (tv : Q) (s s' : Portfolio) :
  Float.total_value fl fsum finite s = Ok tv s' ->
  s' = s /\ (wf s -> 0 <= tv).
Proof.
  unfold Float.total_value, Float.positions_value. intros H.
  float_step H. float_call H E. float_step E. float_call E E'.
  apply float_market_values in E' as [-> Hvs].
  apply check_Ok in E as [-> ->]. apply rnd_Ok in H as [-> ->].
  split; [ reflexivity | ]. intros [Hcash Hps].
  apply (fl_nonneg fl Hfl).
  assert (Hpre : Forall (fun p => (0 <= shares p)%Z /\ 0 <= current_price p)
                        (dvalues (positions s))).
  { unfold dvalues. apply Forall_map.
    eapply List.Forall_impl; [ | exact Hps ].
    intros [k p] [Hs Hp]. cbn in *. split; [ lia | exact Hp ]. }
  pose proof (Hsum _ (Hvs Hpre)). lra.
Qed.

Lemma float_can_buy_funded (target_value : Q) (s s' : Portfolio)
    (can : bool) (v : Z) (m : BuyMsg) :
  Float.can_buy_funded fl fsum finite target_value s = Ok (can, v, m) s' ->
  s' = s /\ (valid_params s -> wf s -> 0 <= target_value -> (0 <= v)%Z).
Proof.
  unfold Float.can_buy_funded. intros H.
  do 4 float_step H.
  destruct (Qgtb _ _).
  - float_step H. float_call H E. apply fdiv_Ok in E as (-> & -> & Hk).
    float_call H E. apply float_total_value in E as [-> Htv].
    do 2 float_step H.
    destruct (Qltb _ _).
    + apply mret_Ok in H as [[= -> -> ->] ->].
      split; [ reflexivity | intros; lia ].
    + float_step H. apply mret_Ok in H as [[= -> -> ->] ->].
      split; [ reflexivity | ].
      intros (Hc1 & Hc2 & Hmn & Hmx) [Hcash Hps] _.
      apply trunc_nonneg, (fl_nonneg fl Hfl), Qdiv_nonneg; [ exact Hcash | ].
      assert (0 <= fl (1 + commission_pct s))
        by (apply (fl_nonneg fl Hfl); lra).
      lra.
  - float_step H. apply mret_Ok in H as [[= -> -> ->] ->].
    split; [ reflexivity | ]. intros _ _ Ht. apply trunc_nonneg, Ht.
Qed.

Lemma float_can_buy_sized (tkr : string) (target_pct : Q) (s s' : Portfolio)
    (can : bool) (v : Z) (m : BuyMsg) :
  Float.can_buy_sized fl fsum finite tkr target_pct s = Ok (can, v, m) s' ->
  s' = s /\ (valid_params s -> wf s -> 0 <= target_pct -> (0 <= v)%Z).
Proof.
  unfold Float.can_buy_sized. intros H.
  float_step H. float_call H E. apply float_total_value in E as [-> Htv].
  do 2 float_step H.
  destruct (dget tkr (positions s)) as [pos|].
  - float_call H E. apply float_market_value in E as [-> _].
    float_step H. float_call H E. apply float_total_value in E as [-> Htv'].
    do 2 float_step H.
    destruct (Qltb _ _) eqn:Hinc.
    + float_call H E. apply float_total_value in E as [-> _].
      float_call H E. apply fdiv_Ok in E as (-> & -> & _).
      do 2 float_step H. apply mret_Ok in H as [[= -> -> ->] ->].
      split; [ reflexivity | intros; lia ].
    + apply Qltb_false in Hinc.
      apply float_can_buy_funded in H as [-> Hv].
      split; [ reflexivity | ]. intros Hp Hwf _. apply Hv; [ exact Hp | exact Hwf | ].
      destruct Hp as (_ & _ & Hmn & _).
      eapply Qle_trans; [ | exact Hinc ].
      apply (fl_nonneg fl Hfl), Qmult_le_0_compat; [ apply Htv', Hwf | exact Hmn ].
  - apply float_can_buy_funded in H as [-> Hv].
    split; [ reflexivity | ]. intros Hp Hwf Hpct. apply Hv; [ exact Hp | exact Hwf | ].
    apply (fl_nonneg fl Hfl), Qmult_le_0_compat; [ | apply Htv, Hwf ].
    apply (fl_nonneg fl Hfl). apply Qle_shift_div_l; lra.
Qed.

Lemma float_can_buy (tkr : string) (target_pct : Q) (s s' : Portfolio)
    (can : bool) (v : Z) (m : BuyMsg) :
  Float.can_buy fl fsum finite tkr target_pct s = Ok (can, v, m) s' ->
  s' = s /\ (valid_params s -> wf s -> (0 <= v)%Z).
Proof.
  unfold Float.can_buy. intros H.
  do 2 float_step H.
  destruct (Qltb _ _) eqn:Hlow.
  - float_step H. apply mret_Ok in H as [[= -> -> ->] ->].
    split; [ reflexivity | intros; lia ].
  - apply Qltb_false in Hlow. do 2 float_step H.
    destruct (Qgtb _ _).
    + float_step H. apply float_can_buy_sized in H as [-> Hv].
      split; [ reflexivity | ]. intros Hp Hwf. apply Hv; [ exact Hp | exact Hwf | ].
      destruct Hp as (_ & _ & _ & Hmx). apply (fl_nonneg fl Hfl). lra.
    + apply float_can_buy_sized in H as [-> Hv].
      split; [ reflexivity | ]. intros Hp Hwf. apply Hv; [ exact Hp | exact Hwf | ].
      destruct Hp as (_ & _ & Hmn & _).
      eapply Qle_trans; [ | exact Hlow ]. apply (fl_nonneg fl Hfl). lra.
Qed.

Lemma float_cost_of (n : Z) (price : Q) (cost : Q * Q) (s s' : Portfolio) :
  Float.cost_of fl finite n price s = Ok cost s' -> s' = s.
Proof.
  unfold Float.cost_of. intros H. do 5 float_step H.
  apply mret_Ok in H as [_ ->]. reflexivity.
Qed.

(** What [buy_settle] does when it returns. *)
Lemma float_buy_settle_spec (tkr : string) (price : Q) (date : string)
    (sl tp : option Q) (rsn : string) (n : Z) (com tc : Q)
    (s s' : Portfolio) (r : option Trade) :
  Float.buy_settle fl finite tkr price date sl tp rsn n com tc s = Ok r s' ->
  r = Some {| trade_date := date; trade_ticker := tkr; action := BUY;
              trade_shares := n; trade_price := price; commission := com;
              total_cost := tc; reason := rsn |}
  /\ cash s' = fl (cash s - tc)
  /\ same_params s s'
  /\ exists pos',
       positions s' = dset tkr pos' (positions s)
       /\ current_price pos' = price
       /\ shares pos' = match dget tkr (positions s) with
                        | Some pos => (shares pos + n)%Z
                        | None => n
                        end.
Proof.
  unfold Float.buy_settle, append_trade. intros H.
  do 4 float_step H. float_call H E. cbn [positions set_cash] in E.
  destruct (dget tkr (positions s)) as [pos|] eqn:Hget.
  - do 5 float_step E. float_step E. float_step E.
    float_call E E'. apply fdiv_Ok in E' as (-> & -> & _).
    float_step E. apply modify_Ok in E as ->.
    float_step H. apply mret_Ok in H as [-> ->].
    unfold same_params. cbn. splits; try reflexivity.
    eexists. splits; reflexivity.
  - apply modify_Ok in E as ->.
    float_step H. apply mret_Ok in H as [-> ->].
    unfold same_params. cbn. splits; try reflexivity.
    eexists. splits; reflexivity.
Qed.

(** What [buy] does when it returns: nothing, or the settlement of a
    share count; when it did not have to recompute, of the share count
    it computed first, whose cost passed "Verifica cash novamente". *)
Lemma float_buy_outcome (tkr : string) (price target_pct : Q) (date : string)
    (sl tp : option Q) (rsn : string) (s s' : Portfolio) (r : option Trade) :
  Float.buy fl fsum finite tkr price target_pct date sl tp rsn s = Ok r s' ->
  (r = None /\ s' = s)
  \/ exists v m n cost b,
       Float.can_buy fl fsum finite tkr target_pct s = Ok (true, v, m) s
       /\ Float.recounts fl fsum finite tkr price target_pct s = Ok b s
       /\ n <> 0%Z
       /\ Float.cost_of fl finite n price s = Ok cost s
       /\ Float.buy_settle fl finite tkr price date sl tp rsn n
            (fst cost) (snd cost) s = Ok r s'
       /\ (b = false ->
           n = trunc (fl (fl (inject_Z v) / price)) /\ snd cost <= cash s).
Proof.
  unfold Float.buy. intros H.
  float_call H Ecan.
  match type of Ecan with _ = Ok ?a _ => destruct a as [[can v] m] end.
  destruct (float_can_buy _ _ _ _ _ _ _ Ecan) as [-> _].
  destruct can; cbn [negb] in H;
    [ | apply mret_Ok in H as [-> ->]; left; split; reflexivity ].
  float_call H Et. destruct (of_int_Ok _ _ _ _ _ _ Et) as [-> ->].
  float_call H Ediv. destruct (fdiv_Ok _ _ _ _ _ _ Ediv) as (-> & -> & _).
  float_call H En. destruct (to_int_Ok _ _ _ _ _ En) as [-> ->].
  set (n1 := trunc (fl (fl (inject_Z v) / price))) in *.
  assert (Hrec : forall cost,
             (n1 =? 0)%Z = false ->
             Float.cost_of fl finite n1 price s = Ok cost s ->
             Float.recounts fl fsum finite tkr price target_pct s
             = Ok (Qgtb (snd cost) (cash s)) s).
  { intros cost Hn1 Hcost. unfold Float.recounts, mbind, M_bind, bind.
    rewrite Ecan. cbn [negb]. rewrite Et, Ediv, En, Hn1, Hcost. reflexivity. }
  destruct (n1 =? 0)%Z eqn:Hn1;
    [ apply mret_Ok in H as [-> ->]; left; split; reflexivity | ].
  float_call H Ecost. pose proof (float_cost_of _ _ _ _ _ Ecost) as ->.
  specialize (Hrec _ eq_refl Ecost).
  float_step H.
  destruct (Qgtb _ (cash s)) eqn:Hgt.
  - do 3 float_step H.
    float_call H Ediv2. apply fdiv_Ok in Ediv2 as (-> & -> & _).
    float_step H.
    match type of H with
    | context [(?x =? 0)%Z] => destruct (x =? 0)%Z eqn:Hn2
    end; [ apply mret_Ok in H as [-> ->]; left; split; reflexivity | ].
    float_call H Ecost2. pose proof (float_cost_of _ _ _ _ _ Ecost2) as ->.
    right. eexists v, m, _, _, true. splits;
      [ exact Ecan | exact Hrec | apply Z.eqb_neq, Hn2 | exact Ecost2
      | exact H | discriminate ].
  - right. eexists v, m, _, _, false. splits;
      [ exact Ecan | exact Hrec | apply Z.eqb_neq, Hn1 | exact Ecost
      | exact H | ].
    intros _. split; [ reflexivity | apply Qgtb_false, Hgt ].
Qed.

(** A buy that does not have to recompute its share count leaves a
    valid ledger with non-negative cash. *)
Lemma float_buy_safe (tkr : string) (price target_pct : Q) (date : string)
    (sl tp : option Q) (rsn : string) (s s' : Portfolio) (r : option Trade) :
  valid_params s -> wf s -> fl (cash s) == cash s -> 0 < price ->
  (forall s1, Float.recounts fl fsum finite tkr price target_pct s
              <> Ok true s1) ->
  Float.buy fl fsum finite tkr price target_pct date sl tp rsn s = Ok r s' ->
  valid_params s' /\ wf s' /\ fl (cash s') == cash s'.
Proof.
  intros Hv Hwf Hd Hprice Hrec H.
  destruct (float_buy_outcome _ _ _ _ _ _ _ _ _ _ H)
    as [[_ ->] | (v & m & n & cost & b & Hcan & Hb & Hn0 & _ & Hset & Hn)];
    [ splits; assumption | ].
  destruct b; [ exfalso; exact (Hrec _ Hb) | ].
  destruct (Hn eq_refl) as [-> Hcost].
  set (n := trunc (fl (fl (inject_Z v) / price))) in *.
  assert (Hn' : (0 < n)%Z).
  { enough (0 <= n)%Z by lia. subst n.
    apply trunc_nonneg, (fl_nonneg fl Hfl), Qdiv_nonneg; [ | exact Hprice ].
    apply (fl_nonneg fl Hfl), inject_Z_nonneg.
    destruct (float_can_buy _ _ _ _ _ _ _ Hcan) as [_ Hv0]. auto. }
  destruct (float_buy_settle_spec _ _ _ _ _ _ _ _ _ _ _ _ Hset)
    as (_ & Hc & (Hp1 & Hp2 & Hp3) & pos' & Hps & Hmark & Hsh).
  destruct Hv as (Hc1 & Hc2 & Hmn & Hmx). destruct Hwf as [Hcash Hpos].
  splits.
  - unfold valid_params. rewrite Hp1, Hp2, Hp3. splits; assumption.
  - split.
    + rewrite Hc. apply (fl_nonneg fl Hfl). lra.
    + rewrite Hps. apply Forall_dset; [ | exact Hpos ].
      intros k. split; cbn [snd]; [ | rewrite Hmark; lra ].
      rewrite Hsh. destruct (dget tkr (positions s)) as [pos|] eqn:Hget;
        [ | exact Hn' ].
      destruct (wf_position_lookup _ _ _ Hpos Hget). lia.
  - rewrite Hc. apply (fl_idem fl Hfl).
Qed.

Lemma float_sell_safe (tkr : string) (price : Q) (date : string)
    (nshares : option Z) (rsn : string) (s s' : Portfolio) (r : option Trade) :
  valid_params s -> wf s -> fl (cash s) == cash s ->
  0 <= price ->
  match nshares with Some n => (0 <= n)%Z | None => True end ->
  Float.sell fl finite tkr price date nshares rsn s = Ok r s' ->
  valid_params s' /\ wf s' /\ fl (cash s') == cash s'.
Proof.
  intros Hv Hwf Hd Hprice Hreq.
  pose proof Hv as (Hc1 & Hc2 & Hmn & Hmx). pose proof Hwf as [Hcash Hpos].
  unfold Float.sell, append_trade. intros H. float_step H.
  destruct (dget tkr (positions s)) as [pos|] eqn:Hget;
    [ | apply mret_Ok in H as [_ ->]; splits; assumption ].
  destruct (wf_position_lookup _ _ _ Hpos Hget) as [Hsh Hmark].
  cbv zeta in H.
  set (n := Z.min _ (shares pos)) in H.
  assert (Hn : (0 <= n <= shares pos)%Z).
  { subst n. destruct nshares as [k|]; lia. }
  destruct (n =? 0)%Z eqn:Hn0;
    [ apply mret_Ok in H as [_ ->]; splits; assumption | ].
  apply Z.eqb_neq in Hn0.
  repeat float_step H. apply mret_Ok in H as [_ ->].
  cbn. splits.
  - exact Hv.
  - split; cbn.
    + apply (fl_nonneg fl Hfl).
      set (tv := fl (fl (inject_Z n) * price)).
      assert (Htv : 0 <= tv).
      { subst tv. apply (fl_nonneg fl Hfl), Qmult_le_0_compat;
          [ apply (fl_nonneg fl Hfl), inject_Z_nonneg; lia | exact Hprice ]. }
      assert (Hcom : fl (tv * commission_pct s) <= tv).
      { assert (Hid : fl tv == tv) by (subst tv; apply (fl_idem fl Hfl)).
        apply Qle_trans with (fl tv); [ apply (fl_mono fl Hfl); nra | ].
        rewrite Hid. apply Qle_refl. }
      assert (0 <= fl (tv - fl (tv * commission_pct s)))
        by (apply (fl_nonneg fl Hfl); lra).
      lra.
    + destruct (shares pos - n =? 0)%Z eqn:Hz; cbn.
      * apply Forall_ddel, Hpos.
      * apply Z.eqb_neq in Hz. apply Forall_dset; [ | exact Hpos ].
        intros k. split; cbn; [ lia | exact Hmark ].
  - apply (fl_idem fl Hfl).
Qed.

Lemma float_interest_safe (date : string) (rate : Q) (s s' : Portfolio) :
  valid_params s -> wf s -> fl (cash s) == cash s ->
  -1 <= rate ->
  Float.apply_selic_to_cash fl finite date rate s = Ok tt s' ->
  valid_params s' /\ wf s' /\ fl (cash s') == cash s'.
Proof.
  intros Hv [Hcash Hpos] Hd Hrate.
  unfold Float.apply_selic_to_cash, append_trade. intros H. float_step H.
  destruct (Qgtb (cash s) 0) eqn:Hgt;
    [ | apply mret_Ok in H as [_ ->]; splits; [ | split | ]; assumption ].
  do 4 float_step H. apply modify_Ok in H as ->.
  cbn. splits.
  - exact Hv.
  - split; cbn; [ | exact Hpos ].
    apply (fl_nonneg fl Hfl).
    assert (- cash s <= fl (cash s * rate)).
    { rewrite <- Hd at 1. rewrite <- (fl_opp fl Hfl).
      apply (fl_mono fl Hfl). nra. }
    lra.
  - apply (fl_idem fl Hfl).
Qed.

(** One call of a sequence in which no buy recomputes its share count. *)
Lemma float_step_safe (c : Float.call) (s s' : Portfolio) (r : Float.returned) :
  valid_params s -> wf s -> fl (cash s) == cash s ->
  valid_call c ->
  Float.recounting fl fsum finite [c] s = [] ->
  Float.step fl fsum finite c s = Ok r s' ->
  valid_params s' /\ wf s' /\ fl (cash s') == cash s'.
Proof.
  intros Hv Hwf Hd Hc Hrec.
  destruct c as [tkr price target_pct date sl tp rsn
                | tkr price date nshares rsn | date rate];
    cbn [Float.step valid_call] in *; intros H.
  - float_call H E. apply mret_Ok in H as [_ ->].
    eapply float_buy_safe; try eassumption.
    intros s1 Hs1. cbn [Float.recounting] in Hrec. rewrite Hs1 in Hrec.
    discriminate.
  - float_call H E. apply mret_Ok in H as [_ ->].
    destruct Hc. eapply float_sell_safe; eassumption.
  - float_call H E. apply mret_Ok in H as [_ ->].
    match type of E with _ = Ok ?u _ => destruct u end.
    eapply float_interest_safe; eassumption.
Qed.

Lemma float_states_safe (cs : list Float.call) (s : Portfolio) :
  valid_params s -> wf s -> fl (cash s) == cash s ->
  Forall valid_call cs ->
  Float.recounting fl fsum finite cs s = [] ->
  Forall (fun s' => 0 <= cash s') (Float.states fl fsum finite cs s).
Proof.
  intros Hv Hwf Hd Hcs. revert s Hv Hwf Hd.
  induction Hcs as [|c cs Hc Hcs IH]; intros s Hv Hwf Hd Hrec;
    cbn [Float.states]; [ constructor | ].
  cbn [Float.recounting] in Hrec. apply app_eq_nil in Hrec as [Hrec1 Hrec2].
  destruct (Float.step fl fsum finite c s) as [r s1 | e s1] eqn:Hstep;
    [ | constructor ].
  destruct (float_step_safe c s s1 r Hv Hwf Hd Hc) as (Hv1 & Hwf1 & Hd1).
  { cbn [Float.recounting]. rewrite Hrec1.
    destruct (Float.step fl fsum finite c s); reflexivity. }
  { exact Hstep. }
  constructor; [ apply Hwf1 | ].
  apply IH; assumption.
Qed.

End FloatSigns.

(** ** Cash on doubles *)

(** A sell at a negative price is accepted and drives cash below zero:
    after buying ten shares at 10 on [Portfolio(1000)], selling them at
    -1000 leaves cash near -9090.1. *)
Lemma cash_negative_counterexample :
  exists s1 s2,
    Float.states round64 sum64 finite64
      [Float.Buy "PETR4.SA" 10 10 "2024-01-02" None None "SIGNAL";
       Float.Sell "PETR4.SA" (-1000) "2024-01-03" None "SIGNAL"]
      (Portfolio_double 1000) = [s1; s2]
    /\ held "PETR4.SA" s1 = 10%Z
    /\ cash s2 < -9090.
Proof. eexists _, _. splits; vm_compute; reflexivity. Qed.

(** C1 (amended).  On doubles, whatever the rounding as long as it is
    monotone, leaves doubles alone and commutes with negation: take a
    portfolio with commission rate in (-1, 1], non-negative size
    bounds, non-negative cash and positive holdings at non-negative
    marks, and a sequence of buys at positive prices, sells at
    non-negative prices of non-negative share counts and interest
    accruals at daily rates of at least -1.  If no buy of the sequence
    has to recompute its share count, cash is non-negative after every
    call that returns.  And a buy that trades without recomputing its
    share count deducts the cost of the share count it computed first,
    which does not exceed the cash held before the deduction.  Nothing
    is said of a buy that recomputes its share count. *)
Theorem cash_nonnegative_on_doubles (fl : Q -> Q) (fsum : list Q -> Q)
    (finite : Q -> bool) :
  rounding fl -> summation fsum ->
  (forall (cs : list Float.call) (s : Portfolio),
      valid_params s -> wf s -> fl (cash s) == cash s ->
      Forall valid_call cs ->
      Float.recounting fl fsum finite cs s = [] ->
      Forall (fun s' => 0 <= cash s') (Float.states fl fsum finite cs s))
  /\
  (forall tkr price target_pct date sl tp rsn (s s' : Portfolio) (tr : Trade),
      Float.buy fl fsum finite tkr price target_pct date sl tp rsn s
      = Ok (Some tr) s' ->
      Float.recounts fl fsum finite tkr price target_pct s = Ok false s ->
      exists v m,
        Float.can_buy fl fsum finite tkr target_pct s = Ok (true, v, m) s
        /\ trade_shares tr = trunc (fl (fl (inject_Z v) / price))
        /\ Float.cost_of fl finite (trade_shares tr) price s
           = Ok (commission tr, total_cost tr) s
        /\ total_cost tr <= cash s
        /\ cash s' = fl (cash s - total_cost tr)
        /\ 0 <= cash s').
Proof.
  intros Hfl Hsum. split.
  - intros cs s. apply float_states_safe; assumption.
  - intros tkr price target_pct date sl tp rsn s s' tr H Hrec.
    destruct (float_buy_outcome fl fsum finite Hfl Hsum _ _ _ _ _ _ _ _ _ _ H)
      as [[[=] _] | (v & m & n & [com tc] & b & Hcan & Hb & _ & Hcost & Hset & Hn)].
    rewrite Hrec in Hb. injection Hb as <-.
    destruct (Hn eq_refl) as [-> Hle]. cbn [fst snd] in *.
    destruct (float_buy_settle_spec fl finite _ _ _ _ _ _ _ _ _ _ _ _ Hset)
      as ([= ->] & Hc & _).
    exists v, m. cbn [trade_shares total_cost commission].
    splits; [ exact Hcan | reflexivity | exact Hcost | exact Hle | exact Hc | ].
    rewrite Hc. apply (fl_nonneg fl Hfl). lra.
Qed.

Lemma cash_nonnegative_on_doubles_witness :
  (Forall (fun s' => 0 <= cash s')
          (Float.states round64 sum64 finite64 example_calls
                        (Portfolio_double 50000000))
   /\ length (Float.states round64 sum64 finite64 example_calls
                           (Portfolio_double 50000000)) = 3%nat)
  /\ (exists tr s',
         Float.buy round64 sum64 finite64
                   "PETR4.SA" (round64 (305 # 10)) 8 "2024-01-02" None None
                   "INITIAL" (Portfolio_double 50000000) = Ok (Some tr) s'
         /\ trade_shares tr = 131147%Z
         /\ total_cost tr <= 50000000
         /\ 0 <= cash s').
Proof.
  pose proof (cash_nonnegative_on_doubles round64 sum64 finite64
                rounding_round64 summation_sum64) as [Hrun Hbuy].
  split; [ split | ].
  - apply Hrun.
    + repeat split; vm_compute; congruence.
    + split; [ vm_compute; congruence | constructor ].
    + vm_compute. reflexivity.
    + repeat constructor; vm_compute; congruence.
    + vm_compute. reflexivity.
  - vm_compute. reflexivity.
  - eexists _, _. split; [ vm_compute; reflexivity | ].
    edestruct (Hbuy "PETR4.SA" (round64 (305 # 10)) 8 "2024-01-02"
                 (@None Q) (@None Q) "INITIAL"%string
                 (Portfolio_double 50000000))
      as (v & m & _ & _ & _ & Hle & _ & Hpos).
    + vm_compute. reflexivity.
    + vm_compute. reflexivity.
    + split; [ reflexivity | ]. split; [ exact Hle | exact Hpos ].
Defined.
